(** * Prediction confidence: a model of [src/conf.cpp] and its verified properties

    The program evaluates a normal density with a hand-written exponential,
    integrates it once into a table of 10001 cumulative values, and answers
    a query by one table lookup.  All of it is single-precision arithmetic
    with a few double-precision intermediate results, so the model starts
    with the number format.

    Modelling choices.
    - A floating-point number is [NaN], an infinity, or [Fin m e] standing
      for the real number m * 2^e.  Every operation computes the exact
      result and rounds it once to the format of the operation (binary32 for
      [float], binary64 for [double]), to nearest, ties to even, as IEEE 754
      prescribes; [round] does so with integer arithmetic only, so that
      every definition evaluates.
    - The two zeros are identified (the program never divides by zero and
      never inspects the sign of a zero).
    - A conversion of a float to [int] that C++ leaves undefined (NaN, or a
      value outside the range of [int]) and an array access out of range
      have no result: the functions return [option] and yield [None].
    - A [while] loop takes a bound on its number of iterations ("fuel") and
      yields [None] when the bound is reached; the theorems on termination
      show which bound is enough.  The table is built with the bound
      [max_iterations]. *)

From Stdlib Require Import ZArith List Bool Lia Reals Lra Psatz FMapPositive.
Import ListNotations.
Open Scope Z_scope.

(** * Part I: definitions *)

(** * IEEE-754 binary floating point *)

Record format := Format { prec : Z; emin : Z; emax : Z }.

Definition binary32 := Format 24 (-149) 128.

Definition binary64 := Format 53 (-1074) 1024.

Inductive fp := NaN | Inf (neg : bool) | Fin (m e : Z).

Definition ilog2_ratio (a d : Z) : Z :=
  let l := Z.log2 a - Z.log2 d in
  if (if 0 <=? l then a <? Z.shiftl d l else Z.shiftl a (- l) <? d) then l - 1 else l.

Definition tie (c : comparison) (q : Z) : Z :=
  match c with Lt => q | Gt => q + 1 | Eq => if Z.even q then q else q + 1 end.

Definition rne (a den : Z) : Z :=
  let (q, r) := Z.div_eucl a den in tie (2 * r ?= den) q.

Definition rne_shr (a j : Z) : Z :=
  let q := Z.shiftr a j in
  tie (a - Z.shiftl q j ?= Z.shiftl 1 (j - 1)) q.

Definition round (f : format) (n d e : Z) : fp :=
  if n =? 0 then Fin 0 0 else
  let a := Z.abs n in
  let ex := Z.max (ilog2_ratio a d + e - prec f + 1) (emin f) in
  let k := e - ex in
  let M := if d =? 1 then (if 0 <=? k then Z.shiftl a k else rne_shr a (- k))
           else if 0 <=? k then rne (Z.shiftl a k) d else rne a (Z.shiftl d (- k)) in
  if M =? 0 then Fin 0 0 else
  let L := Z.log2 M in
  if emax f <=? ex + L then Inf (n <? 0) else
  let (M', ex') := if L =? prec f then (Z.shiftr M 1, ex + 1) else (M, ex) in
  Fin (if n <? 0 then - M' else M') ex'.

Definition fneg (x : fp) : fp :=
  match x with NaN => NaN | Inf s => Inf (negb s) | Fin m e => Fin (- m) e end.

Definition fadd (f : format) (x y : fp) : fp :=
  match x, y with
  | NaN, _ | _, NaN => NaN
  | Inf s, Inf t => if Bool.eqb s t then Inf s else NaN
  | Inf s, _ => Inf s
  | _, Inf t => Inf t
  | Fin m1 e1, Fin m2 e2 =>
      if e1 <=? e2 then round f (m1 + Z.shiftl m2 (e2 - e1)) 1 e1
      else round f (Z.shiftl m1 (e1 - e2) + m2) 1 e2
  end.

Definition fsub (f : format) (x y : fp) : fp := fadd f x (fneg y).

Definition fmul (f : format) (x y : fp) : fp :=
  match x, y with
  | NaN, _ | _, NaN => NaN
  | Inf s, Inf t => Inf (xorb s t)
  | Inf s, Fin m _ => if m =? 0 then NaN else Inf (xorb s (m <? 0))
  | Fin m _, Inf t => if m =? 0 then NaN else Inf (xorb (m <? 0) t)
  | Fin m1 e1, Fin m2 e2 => round f (m1 * m2) 1 (e1 + e2)
  end.

Definition fdiv (f : format) (x y : fp) : fp :=
  match x, y with
  | NaN, _ | _, NaN => NaN
  | Inf s, Inf t => NaN
  | Inf s, Fin m _ => Inf (xorb s (m <? 0))
  | Fin m _, Inf t => Fin 0 0
  | Fin m1 e1, Fin m2 e2 =>
      if m2 =? 0 then (if m1 =? 0 then NaN else Inf (m1 <? 0))
      else round f (if m2 <? 0 then - m1 else m1) (Z.abs m2) (e1 - e2)
  end.

Definition fcmp (x y : fp) : option comparison :=
  match x, y with
  | NaN, _ | _, NaN => None
  | Inf s, Inf t => Some (if s then (if t then Eq else Lt) else (if t then Gt else Eq))
  | Inf s, _ => Some (if s then Lt else Gt)
  | _, Inf t => Some (if t then Gt else Lt)
  | Fin m1 e1, Fin m2 e2 =>
      Some (if e1 <=? e2 then m1 ?= Z.shiftl m2 (e2 - e1) else Z.shiftl m1 (e1 - e2) ?= m2)
  end.

Definition flt (x y : fp) : bool := match fcmp x y with Some Lt => true | _ => false end.

Definition fle (x y : fp) : bool := match fcmp x y with Some Lt | Some Eq => true | _ => false end.

Definition fgt (x y : fp) : bool := flt y x.

Definition fge (x y : fp) : bool := fle y x.

Definition is_nan (x : fp) : bool := match x with NaN => true | _ => false end.

Definition is_fin (x : fp) : bool := match x with Fin _ _ => true | _ => false end.

Definition of_int (f : format) (n : Z) : fp := round f n 1 0.

Definition cvt (f : format) (x : fp) : fp :=
  match x with Fin m e => round f m 1 e | _ => x end.

Definition literal (n d : Z) : fp := round binary64 n d 0.

Definition trunc (m e : Z) : Z :=
  if 0 <=? e then Z.shiftl m e else Z.quot m (Z.shiftl 1 (- e)).

Definition to_int (x : fp) : option Z :=
  match x with
  | Fin m e =>
      let t := trunc m e in
      if (- 2 ^ 31 <=? t) && (t <? 2 ^ 31) then Some t else None
  | _ => None
  end.

Definition representable (f : format) (x : fp) : bool :=
  match x with
  | Fin m e =>
      (m =? 0) || ((Z.abs m <? 2 ^ prec f) && (emin f <=? e) && (e + Z.log2 (Z.abs m) <? emax f))
  | _ => true
  end.

Declare Scope fp_scope.

Delimit Scope fp_scope with fp.

Notation "x + y" := (fadd binary32 x y) : fp_scope.

Notation "x - y" := (fsub binary32 x y) : fp_scope.

Notation "x * y" := (fmul binary32 x y) : fp_scope.

Notation "x / y" := (fdiv binary32 x y) : fp_scope.

Notation "- x" := (fneg x) : fp_scope.

Notation "x < y" := (flt x y) : fp_scope.

Notation "x <= y" := (fle x y) : fp_scope.

Notation "x > y" := (fgt x y) : fp_scope.

Notation "x >= y" := (fge x y) : fp_scope.

Declare Scope double_scope.

Delimit Scope double_scope with double.

Notation "x + y" := (fadd binary64 x y) : double_scope.

Notation "x - y" := (fsub binary64 x y) : double_scope.

Notation "x * y" := (fmul binary64 x y) : double_scope.

Notation "x / y" := (fdiv binary64 x y) : double_scope.

Notation "- x" := (fneg x) : double_scope.

Definition float_of_int (n : Z) : fp := of_int binary32 n.

Definition to_float (x : fp) : fp := cvt binary32 x.

Definition to_double (x : fp) : fp := x.

(** * Loops *)
Fixpoint while {S : Type} (fuel : nat) (c : S -> bool) (b : S -> S) (s : S) : option S :=
  match fuel with
  | O => None
  | Datatypes.S k => if c s then while k c b (b s) else Some s
  end.

Definition std_min (a b : fp) : fp := if (b < a)%fp then b else a.

Fixpoint array_set {A : Type} (v : list A) (i : nat) (x : A) : option (list A) :=
  match v, i with
  | [], _ => None
  | _ :: t, O => Some (x :: t)
  | h :: t, S j => option_map (cons h) (array_set t j x)
  end.

(** * struct NormalProbabilityDensity *)
Module NormalProbabilityDensity.
Section Params.
  Variables kMean kStdev : fp.

Definition static_int_pow (fuel : nat) (x : fp) (n : Z) : option fp :=
    let p := float_of_int 1 in
    match while fuel (fun '(p, x, n) => 0 <? n)
            (fun '(p, x, n) =>
               let p := if Z.land n 1 =? 0 then p else (p * x)%fp in
               let x := (x * x)%fp in
               let n := Z.shiftr n 1 in
               (p, x, n))
            (p, x, n) with
    | Some (p, _, _) => Some p
    | None => None
    end.

Definition kAccuracy := Eval vm_compute in to_float (literal 1 1000000).
Definition e := Eval vm_compute in to_float (literal 2718281828459045 1000000000000000).

Definition static_exp (fuel : nat) (x : fp) : option fp :=
    let positive := (x >= float_of_int 0)%fp in
    let x := if (x < float_of_int 0)%fp then (- x)%fp else x in
    match to_int x with
    | None => None
    | Some integer_part =>
      let x := (x - float_of_int integer_part)%fp in
      let sum := float_of_int 0 in
      let term := float_of_int 1 in
      let i := 1 in
      match while fuel (fun '(sum, term, i) => (term > kAccuracy)%fp)
              (fun '(sum, term, i) =>
                 let sum := (sum + term)%fp in
                 let term := (term * (x / float_of_int i))%fp in
                 let i := i + 1 in
                 (sum, term, i))
              (sum, term, i) with
      | None => None
      | Some (sum, _, _) =>
        let sum := if negb positive
                   then to_float (literal 1 1 / to_double sum)%double else sum in
        let base := to_float (if positive then to_double e
                              else (literal 1 1 / to_double e)%double) in
        match static_int_pow fuel base integer_part with
        | None => None
        | Some p => Some (p * sum)%fp
        end
      end
    end.

Definition kRootOf2Pi := Eval vm_compute in to_float (literal 250662827463 100000000000).

Definition eval (fuel : nat) (x : fp) : option fp :=
    let power :=
      to_float (- literal 5 10 * to_double (x - kMean)%fp * to_double (x - kMean)%fp
                / to_double kStdev / to_double kStdev)%double in
    match static_exp fuel power with
    | None => None
    | Some ex =>
      Some (to_float (literal 1 1 / to_double (kStdev * kRootOf2Pi)%fp * to_double ex)%double)
    end.
End Params.
End NormalProbabilityDensity.

(** * class Confidence *)
Record arith (T : Type) := Arith {
  add : T -> T -> T; sub : T -> T -> T; mul : T -> T -> T; div : T -> T -> T;
  of_Z : Z -> T }.

Arguments add {T}. Arguments sub {T}. Arguments mul {T}. Arguments div {T}. Arguments of_Z {T}.

Definition float_arith : arith fp :=
  Arith fp (fadd binary32) (fsub binary32) (fmul binary32) (fdiv binary32) float_of_int.

Definition real_arith : arith R := Arith R Rplus Rminus Rmult Rdiv IZR.

Module Confidence.
Section Template.
  Context {T : Type} (A : arith T).
  Variable kPoints : nat.
  Variables kLower kUpper : T.
  Variable DistributionFunction_eval : T -> option T.

Definition kDelta : T := div A (sub A kUpper kLower) (of_Z A (Z.of_nat kPoints)).

Definition cdf_step (st : option (list T * T)) (i : nat) : option (list T * T) :=
    match st with
    | None => None
    | Some (v, sum) =>
      match DistributionFunction_eval (add A kLower (mul A kDelta (of_Z A (Z.of_nat i)))) with
      | None => None
      | Some f_i =>
        match array_set v i (mul A kDelta (add A sum (div A f_i (of_Z A 2)))) with
        | None => None
        | Some v => Some (v, add A sum f_i)
        end
      end
    end.

Definition cdf_ : option (list T) :=
    match array_set (repeat (of_Z A 0) (S kPoints)) 0 (of_Z A 0) with
    | None => None
    | Some v =>
      match DistributionFunction_eval kLower with
      | None => None
      | Some f_i =>
        let sum := div A f_i (of_Z A 2) in
        match fold_left cdf_step (seq 1 kPoints) (Some (v, sum)) with
        | Some (v, _) => Some v
        | None => None
        end
      end
    end.
End Template.

Section Evaluate.
  Variable kPoints : nat.
  Variables kLower kUpper : fp.
  Variable cdf_ : option (list fp).

Definition evaluate (x : fp) : option fp :=
    if (x <= kLower)%fp || (x >= kUpper)%fp then Some (float_of_int 0)
    else
      match to_int ((x - kLower) / kDelta float_arith kPoints kLower kUpper)%fp with
      | None => None
      | Some i =>
        match cdf_ with
        | None => None
        | Some v =>
          match (if i <? 0 then None else nth_error v (Z.to_nat i)) with
          | None => None
          | Some c => Some (float_of_int 2 * std_min c (float_of_int 1 - c))%fp
          end
        end
      end.
End Evaluate.
End Confidence.

Module NormalDistributionParams.
Definition kMean := Eval vm_compute in to_float (literal 43 1000).
Definition kStdev := Eval vm_compute in to_float (literal 26 1000).
End NormalDistributionParams.

Module Limits.
Definition kMean : fp := NormalDistributionParams.kMean.
Definition kStdev : fp := NormalDistributionParams.kStdev.
Definition kLower : fp := (kMean - float_of_int 6 * kStdev)%fp.
Definition kUpper : fp := (kMean + float_of_int 6 * kStdev)%fp.
End Limits.

Definition max_iterations : nat := 64.

Module Metric.
Definition kPoints : nat := Z.to_nat 10000.
Definition density : fp -> option fp :=
    NormalProbabilityDensity.eval NormalDistributionParams.kMean NormalDistributionParams.kStdev
      max_iterations.
Definition kDelta : fp := Confidence.kDelta float_arith kPoints Limits.kLower Limits.kUpper.
Definition cdf_ : option (list fp) :=
    Confidence.cdf_ float_arith kPoints Limits.kLower Limits.kUpper density.
Definition evaluate : fp -> option fp :=
    Confidence.evaluate kPoints Limits.kLower Limits.kUpper cdf_.
End Metric.

Module tests.
Definition accuracy := Eval vm_compute in to_float (literal 1 1000).
Definition test_equal (x y : fp) : bool :=
    ((y - accuracy < x)%fp && (x < y + accuracy)%fp)%bool.
Definition static_assert_1 : option bool :=
    option_map (fun r => test_equal r (to_float (literal 1 1)))
      (Metric.evaluate NormalDistributionParams.kMean).
End tests.

Definition bpow (e : Z) : R := powerRZ 2 e.

Definition F2R (m e : Z) : R := (IZR m * bpow e)%R.

(** nearest integer, ties to even *)
Definition nearest_even (y : R) (M : Z) : Prop :=
  (y - / 2 <= IZR M <= y + / 2)%R /\
  ((IZR M = y - / 2 \/ IZR M = y + / 2)%R -> Z.even M = true).

(** [rnd_pos f v M ex]: [M * 2^ex] is the round-to-nearest-even image of the
    positive real [v] in format [f], before the overflow test. *)
Definition rnd_pos (f : format) (v : R) (M ex : Z) : Prop :=
  (exists E, (bpow E <= v < bpow (E + 1))%R /\ ex = Z.max (E - prec f + 1) (emin f)) /\
  nearest_even (v / bpow ex) M.

Definition rounded (f : format) (v r : R) : Prop :=
  (v = 0 /\ r = 0)%R \/
  (0 < v /\ exists M ex, rnd_pos f v M ex /\ r = F2R M ex)%R \/
  (v < 0 /\ exists M ex, rnd_pos f (- v) M ex /\ r = - F2R M ex)%R.

Definition clamped (f : format) (r : R) (x : fp) : Prop :=
  (bpow (emax f) <= r /\ x = Inf false)%R \/
  (r <= - bpow (emax f) /\ x = Inf true)%R \/
  ((- bpow (emax f) < r < bpow (emax f))%R /\ exists m e, x = Fin m e /\ F2R m e = r).

Definition within (B x : fp) : bool := fle (fneg B) x && fle x B.

Fixpoint sequence {A : Type} (l : list (option A)) : option (list A) :=
  match l with
  | [] => Some []
  | None :: _ => None
  | Some a :: t => option_map (cons a) (sequence t)
  end.

Section Samples.
  Context {T : Type} (A : arith T).
Fixpoint running_sum (kDelta sum : T) (fs : list T) : list T :=
    match fs with
    | [] => []
    | f_i :: t =>
        mul A kDelta (add A sum (div A f_i (of_Z A 2))) :: running_sum kDelta (add A sum f_i) t
    end.
Definition table_of_samples (kDelta : T) (fs : list T) : list T :=
    match fs with
    | [] => []
    | f_0 :: t => of_Z A 0 :: running_sum kDelta (div A f_0 (of_Z A 2)) t
    end.
Definition sample_points (n : nat) (kLower kDelta : T) : list T :=
    kLower :: map (fun i => add A kLower (mul A kDelta (of_Z A (Z.of_nat i)))) (seq 1 n).
End Samples.

Definition Metric_samples : list (option fp) :=
  map Metric.density (sample_points float_arith Metric.kPoints Limits.kLower Metric.kDelta).

Definition f_vals :=
  Eval vm_compute in match sequence Metric_samples with Some l => l | None => [] end.

Definition cdf_values :=
  Eval vm_compute in table_of_samples float_arith Metric.kDelta f_vals.

Definition confidence_of (c : fp) : fp :=
  (float_of_int 2 * std_min c (float_of_int 1 - c))%fp.

Definition g_values := Eval vm_compute in map confidence_of cdf_values.

Definition bucket (x : fp) : option Z :=
  to_int ((x - Limits.kLower) / Metric.kDelta)%fp.

Definition ffloor (x : fp) : option Z :=
  match x with
  | Fin m e => Some (if 0 <=? e then Z.shiftl m e else m / Z.shiftl 1 (- e))
  | _ => None
  end.

Fixpoint chain {A : Type} (R : A -> A -> bool) (l : list A) : bool :=
  match l with
  | a :: (b :: _) as t => R a b && chain R t
  | _ => true
  end.

Definition unit_interval (y : fp) : bool :=
  is_fin y && (float_of_int 0 <= y)%fp && (y <= float_of_int 1)%fp.

(** The standard cumulative trapezoidal sum, as the specification words it:
    cdf[i] = sum over j = 1..i of delta * (f_{j-1} + f_j) / 2. *)
Section Trapezoid.
  Context {T : Type} (A : arith T).
Fixpoint trapezoid_table (kDelta acc prev : T) (fs : list T) : list T :=
    match fs with
    | [] => []
    | f_j :: t =>
        let acc := add A acc (div A (mul A kDelta (add A prev f_j)) (of_Z A 2)) in
        acc :: trapezoid_table kDelta acc f_j t
    end.
Definition cumulative_trapezoid (kDelta : T) (fs : list T) : list T :=
    match fs with
    | [] => []
    | f_0 :: t => of_Z A 0 :: trapezoid_table kDelta (of_Z A 0) f_0 t
    end.
End Trapezoid.

Definition trapezoid_values :=
  Eval vm_compute in cumulative_trapezoid float_arith Metric.kDelta f_vals.

Definition exact_add (x y : fp) : fp :=
  match x, y with
  | Fin m1 e1, Fin m2 e2 =>
      if e1 <=? e2 then Fin (m1 + Z.shiftl m2 (e2 - e1)) e1
      else Fin (Z.shiftl m1 (e1 - e2) + m2) e2
  | _, _ => NaN
  end.

Definition close (tol y y' : fp) : bool :=
  fle y (exact_add y' tol) && fle y' (exact_add y tol).

Fixpoint forallb2 {A B : Type} (p : A -> B -> bool) (l : list A) (l' : list B) : bool :=
  match l, l' with
  | [], [] => true
  | a :: t, b :: t' => p a b && forallb2 p t t'
  | _, _ => false
  end.

Fixpoint tree_of_list (i : positive) (l : list fp) (t : PositiveMap.t fp) : PositiveMap.t fp :=
  match l with
  | [] => t
  | x :: l' => tree_of_list (Pos.succ i) l' (PositiveMap.add i x t)
  end.

Definition g_tree := Eval vm_compute in tree_of_list 1 g_values (PositiveMap.empty fp).

Definition g_at (i : Z) : option fp :=
  if i <? 0 then None else PositiveMap.find (Z.to_pos (i + 1)) g_tree.

Definition fmaxf (a b : fp) : fp := if (a < b)%fp then b else a.

Definition fminf (a b : fp) : fp := if (b < a)%fp then b else a.

Definition clamp (x : fp) : fp := fminf (fmaxf x Limits.kLower) Limits.kUpper.

Definition reflect (x : fp) : fp := (float_of_int 2 * NormalDistributionParams.kMean - x)%fp.

Definition idx_range (a b : Z) : list Z :=
  map (fun k => a + Z.of_nat k) (seq 0 (Z.to_nat (b - a + 1))).

Record info := Info { i_t : fp; i_bucket : option Z; i_refl : fp; i_rbucket : option Z }.

Definition mk_info (t : fp) : info :=
  Info t (bucket t) (reflect t) (bucket (clamp (reflect t))).

Definition thresholds :=
  Eval vm_compute in sample_points float_arith Metric.kPoints Limits.kLower Metric.kDelta.

Definition info_values := Eval vm_compute in map mk_info thresholds.

Definition check_pair (tol : fp) (p q : info) : bool :=
  is_fin (i_t p) && is_fin (i_t q) && is_fin (i_refl p) && is_fin (i_refl q) &&
  match i_bucket p, i_bucket q, i_rbucket q, i_rbucket p with
  | Some a, Some b, Some a', Some b' =>
      let ys := map g_at (idx_range a b) in
      let ys' :=
        (if (i_refl q <= Limits.kLower)%fp || (Limits.kUpper <= i_refl p)%fp
         then [Some (float_of_int 0)] else []) ++ map g_at (idx_range a' b') in
      forallb (fun oy => forallb (fun oy' =>
        match oy, oy' with
        | Some y, Some y' => close tol y y'
        | _, _ => false
        end) ys') ys
  | _, _, _, _ => false
  end.

Fixpoint pairs {A : Type} (l : list A) : list (A * A) :=
  match l with
  | a :: ((b :: _) as t) => (a, b) :: pairs t
  | _ => []
  end.

Definition tolerance : fp := Fin 1 (-9).

Import NormalProbabilityDensity.

Definition pow_cond : fp * fp * Z -> bool := fun '(p, x, n) => 0 <? n.

Definition pow_body : fp * fp * Z -> fp * fp * Z :=
  fun '(p, x, n) =>
    let p := if Z.land n 1 =? 0 then p else (p * x)%fp in
    let x := (x * x)%fp in
    let n := Z.shiftr n 1 in
    (p, x, n).

Definition taylor_cond : fp * fp * Z -> bool := fun '(sum, term, i) => (term > kAccuracy)%fp.

Definition taylor_body (x : fp) : fp * fp * Z -> fp * fp * Z :=
  fun '(sum, term, i) =>
    let sum := (sum + term)%fp in
    let term := (term * (x / float_of_int i))%fp in
    let i := i + 1 in
    (sum, term, i).

Fixpoint term_bound (k : nat) : fp :=
  match k with
  | O => float_of_int 1
  | S j => (term_bound j * (float_of_int 1 / float_of_int (Z.of_nat k)))%fp
  end.

Definition density_eval := eval NormalDistributionParams.kMean NormalDistributionParams.kStdev.

Definition power_of (x : fp) : fp :=
  to_float (- literal 5 10 * to_double (x - NormalDistributionParams.kMean)%fp
            * to_double (x - NormalDistributionParams.kMean)%fp
            / to_double NormalDistributionParams.kStdev
            / to_double NormalDistributionParams.kStdev)%double.

(** The density's domain: the smallest and the largest binary32 number at
    which the argument of the exponential still fits an int,
    -13958291 * 2^-13 = -1703.8929... and 13958995 * 2^-13 = 1703.9788...;
    the distance of both from the mean, after rounding; and the magnitude of
    the argument there, 16777214 * 2^7 = 2^31 - 256. *)
Definition density_lo : fp := Fin (-13958291) (-13).

Definition density_hi : fp := Fin 13958995 (-13).

Definition d_bound : fp := Fin 13958643 (-13).

Definition power_bound : fp :=
  Eval vm_compute in
  to_float (literal 5 10 * d_bound * d_bound
            / NormalDistributionParams.kStdev / NormalDistributionParams.kStdev)%double.

(** Fixed-point enclosure of the real number [exp 1], by repeated squaring of
    an enclosure of [exp (2^-20)]. *)
Definition scale : Z := 2 ^ 60.

Definition sq_down (a : Z) : Z := a * a / scale.

Definition sq_up (a : Z) : Z := (a * a + scale - 1) / scale.

Fixpoint iter_sq (sq : Z -> Z) (k : nat) (a : Z) : Z :=
  match k with O => a | S j => iter_sq sq j (sq a) end.

Definition e_lower := Eval vm_compute in iter_sq sq_down 20 (scale + 2 ^ 40).

Definition e_upper :=
  Eval vm_compute in iter_sq sq_up 20 ((scale * 2 ^ 20 + 2 ^ 20 - 2) / (2 ^ 20 - 1)).

Fixpoint sum_bound (k : nat) : fp :=
  match k with
  | O => float_of_int 0
  | S j => (sum_bound j + term_bound j)%fp
  end.

Definition base_of (positive : bool) : fp :=
  to_float (if positive then to_double NormalProbabilityDensity.e
            else (literal 1 1 / to_double NormalProbabilityDensity.e)%double).

Definition recip (sum : fp) : fp := to_float (literal 1 1 / to_double sum)%double.

(** Bounds of the Taylor terms and sums for a remainder of at most [r0]. *)
Fixpoint term_bound_at (r0 : fp) (k : nat) : fp :=
  match k with
  | O => float_of_int 1
  | S j => (term_bound_at r0 j * (r0 / float_of_int (Z.of_nat k)))%fp
  end.

Fixpoint sum_bound_at (r0 : fp) (k : nat) : fp :=
  match k with
  | O => float_of_int 0
  | S j => (sum_bound_at r0 j + term_bound_at r0 j)%fp
  end.

(** The largest binary32 number at which the exponential is finite,
    1453635 * 2^-14 = 88.72283935546875 (the next float, 11629081 * 2^-17,
    gives +infinity); its remainder after the integer part 88; the number of
    terms the Taylor loop adds for this remainder, and their sum. *)
Definition exp_cap : fp := Fin 1453635 (-14).

Definition r_cap : fp := Fin 11843 (-14).

Definition cap_steps : nat := 9.

Definition sum_cap := Eval vm_compute in sum_bound_at r_cap cap_steps.

Definition sum_cap_of (n : Z) : fp := if n <? 88 then Fin 3 0 else sum_cap.

(** What is computed of the n-th powers P and Q of the two bases e and
    1/e, for n = 0 .. 88: both are finite, 1 <= P <= 2^127,
    2^-127 <= Q <= 1, P * Q is within 2^-16 of 1, and P times the largest
    Taylor sum that can go with n is still finite. *)
Definition pow_check (n : Z) : bool :=
  match static_int_pow 32 (base_of true) n, static_int_pow 32 (base_of false) n,
        sum_cap_of n with
  | Some (Fin mp ep), Some (Fin mq eq), Fin mc ec =>
      fle (Fin 1 0) (Fin mp ep) && fle (Fin mp ep) (Fin 1 127) &&
      fle (Fin 1 (-127)) (Fin mq eq) && fle (Fin mq eq) (Fin 1 0) &&
      fle (Fin 65535 (-16)) (Fin (mp * mq) (ep + eq)) &&
      fle (Fin (mp * mq) (ep + eq)) (Fin 65537 (-16)) &&
      is_fin (Fin mp ep * Fin mc ec)%fp
  | _, _, _ => false
  end.

(** The loop of [static_int_pow] over an arbitrary arithmetic: the same
    statements, with the multiplication and the constant 1 of [A]. *)
Section IntPow.
  Context {T : Type} (A : arith T).
Definition static_int_pow_on (fuel : nat) (x : T) (n : Z) : option T :=
    let p := of_Z A 1 in
    match while fuel (fun '(p, x, n) => 0 <? n)
            (fun '(p, x, n) =>
               let p := if Z.land n 1 =? 0 then p else mul A p x in
               let x := mul A x x in
               let n := Z.shiftr n 1 in
               (p, x, n))
            (p, x, n) with
    | Some (p, _, _) => Some p
    | None => None
    end.
End IntPow.

Definition real_pow_cond : R * R * Z -> bool := fun '(p, x, n) => 0 <? n.

Definition real_pow_body : R * R * Z -> R * R * Z :=
  fun '(p, x, n) =>
    let p := if Z.land n 1 =? 0 then p else Rmult p x in
    let x := Rmult x x in
    let n := Z.shiftr n 1 in
    (p, x, n).

(** The factor 1 / (kStdev * kRootOf2Pi) of the density, as the source
    computes it in double precision. *)
Definition density_scale : fp :=
  (literal 1 1 / to_double (NormalDistributionParams.kStdev * kRootOf2Pi)%fp)%double.

(** The density at the mean, where the exponential is 1. *)
Definition density_top : fp :=
  to_float (density_scale * to_double (float_of_int 1))%double.

Definition unit01 (a : fp) : Prop :=
  fle (float_of_int 0) a = true /\ fle a (float_of_int 1) = true.

(** A float that is not negative (it may be +infinity) and is a binary32 value. *)
Definition good (a : fp) : Prop :=
  fle (Fin 0 0) a = true /\ representable binary32 a = true.


(** * Part II: lemmas and theorems *)

Lemma bpow_pos e : (0 < bpow e)%R.
Proof. apply powerRZ_lt; lra. Qed.

Lemma bpow_add a b : bpow (a + b) = (bpow a * bpow b)%R.
Proof. apply powerRZ_add; lra. Qed.

Lemma bpow_0 : bpow 0 = 1%R.
Proof. reflexivity. Qed.

Lemma bpow_1 : bpow 1 = 2%R.
Proof. unfold bpow; simpl; lra. Qed.

Lemma bpow_succ a : bpow (a + 1) = (2 * bpow a)%R.
Proof. rewrite bpow_add, bpow_1; lra. Qed.

Lemma bpow_opp a : bpow (- a) = (/ bpow a)%R.
Proof. apply powerRZ_neg'. Qed.

Lemma bpow_ge_1 k : 0 <= k -> (1 <= bpow k)%R.
Proof.
  intros Hk; pattern k; apply natlike_ind; auto.
  - rewrite bpow_0; lra.
  - intros x Hx IH. unfold Z.succ. rewrite bpow_succ. lra.
Qed.

Lemma bpow_le a b : a <= b -> (bpow a <= bpow b)%R.
Proof.
  intros H. replace b with (a + (b - a)) by lia. rewrite bpow_add.
  pose proof (bpow_ge_1 (b - a) ltac:(lia)). pose proof (bpow_pos a). nra.
Qed.

Lemma bpow_lt a b : a < b -> (bpow a < bpow b)%R.
Proof.
  intros H. replace b with (a + 1 + (b - a - 1)) by lia. rewrite bpow_add, bpow_succ.
  pose proof (bpow_ge_1 (b - a - 1) ltac:(lia)). pose proof (bpow_pos a). nra.
Qed.

Lemma bpow_lt_inv a b : (bpow a < bpow b)%R -> a < b.
Proof.
  intros H. destruct (Z_lt_le_dec a b); auto.
  pose proof (bpow_le b a ltac:(lia)). lra.
Qed.

Lemma bpow_le_inv a b : (bpow a <= bpow b)%R -> a <= b.
Proof.
  intros H. destruct (Z_le_gt_dec a b); auto.
  pose proof (bpow_lt b a ltac:(lia)). lra.
Qed.

Lemma bpow_IZR k : 0 <= k -> IZR (2 ^ k) = bpow k.
Proof.
  intros Hk; pattern k; apply natlike_ind; auto.
  intros x Hx IH. rewrite Z.pow_succ_r by auto. rewrite mult_IZR, IH.
  unfold Z.succ. rewrite bpow_succ. reflexivity.
Qed.

Lemma IZR_shiftl a k : 0 <= k -> IZR (Z.shiftl a k) = (IZR a * bpow k)%R.
Proof. intros. rewrite Z.shiftl_mul_pow2, mult_IZR, bpow_IZR; auto. Qed.

Lemma IZR_le_1 a b : (IZR a < IZR b + 1)%R -> a <= b.
Proof. intros H. apply Z.lt_succ_r. apply lt_IZR. unfold Z.succ. rewrite plus_IZR. lra. Qed.

Lemma nearest_even_mono y1 y2 M1 M2 :
  (y1 <= y2)%R -> nearest_even y1 M1 -> nearest_even y2 M2 -> M1 <= M2.
Proof.
  intros Hy [H1 E1] [H2 E2].
  destruct (Z_le_gt_dec M1 M2) as [|Hgt]; auto. exfalso.
  assert (Hd : (IZR M2 + 1 <= IZR M1)%R).
  { rewrite <- plus_IZR. apply IZR_le. lia. }
  assert (HM : M1 = M2 + 1).
  { apply Z.le_antisymm; [|lia]. apply IZR_le_1. rewrite plus_IZR. lra. }
  assert (Z.even M1 = true) by (apply E1; right; lra).
  assert (Z.even M2 = true) by (apply E2; left; lra).
  subst M1. rewrite Z.even_add in H. rewrite H0 in H. discriminate.
Qed.

Lemma nearest_even_int k M : nearest_even (IZR k) M -> M = k.
Proof.
  intros [H _]. 
  assert (-1 < M - k < 1); [|lia].
  split; apply lt_IZR; rewrite minus_IZR; lra.
Qed.

Lemma nearest_even_of_int k : nearest_even (IZR k) k.
Proof. split; [lra|]. intros [H|H]; lra. Qed.

Lemma tie_spec (a den q r : Z) :
  0 < den -> a = den * q + r -> 0 <= r < den ->
  nearest_even (IZR a / IZR den) (tie (2 * r ?= den) q).
Proof.
  intros Hden Ha Hr.
  assert (Hd : (0 < IZR den)%R) by (apply IZR_lt; auto).
  assert (Hy : (IZR a / IZR den = IZR q + IZR r / IZR den)%R).
  { subst a. rewrite plus_IZR, mult_IZR. field. lra. }
  set (t := (IZR r / IZR den)%R) in *.
  assert (Ht : (t * IZR den = IZR r)%R) by (unfold t; field; lra).
  assert (Hr0 : (0 <= t)%R).
  { apply Rmult_le_reg_r with (IZR den); auto. rewrite Ht, Rmult_0_l. apply IZR_le; lia. }
  assert (Hr1 : (t < 1)%R).
  { apply Rmult_lt_reg_r with (IZR den); auto. rewrite Ht, Rmult_1_l. apply IZR_lt; lia. }
  assert (Hcmp : match (2 * r ?= den) with
                 | Lt => (t < /2)%R | Eq => (t = /2)%R | Gt => (t > /2)%R end).
  { destruct (Z.compare_spec (2 * r) den) as [Hc|Hc|Hc].
    - apply (f_equal IZR) in Hc. rewrite mult_IZR in Hc. nra.
    - apply IZR_lt in Hc. rewrite mult_IZR in Hc. nra.
    - apply IZR_lt in Hc. rewrite mult_IZR in Hc. nra. }
  rewrite Hy.
  destruct (2 * r ?= den); simpl.
  - destruct (Z.even q) eqn:Ev.
    + split; [lra | auto].
    + split; [rewrite plus_IZR; lra|].
      intros _. rewrite Z.even_add, Ev. reflexivity.
  - split; [lra|]. intros [H|H]; lra.
  - split; rewrite plus_IZR; [lra|]. intros [H|H]; lra.
Qed.

Lemma rne_spec a den : 0 < den -> nearest_even (IZR a / IZR den) (rne a den).
Proof.
  intros Hden. unfold rne.
  pose proof (Z_div_mod a den ltac:(lia)) as H.
  destruct (Z.div_eucl a den) as [q r]. destruct H as [H1 H2].
  apply tie_spec; auto.
Qed.

Lemma rne_shr_spec a j : 0 < j -> nearest_even (IZR a / bpow j) (rne_shr a j).
Proof.
  intros Hj. unfold rne_shr.
  rewrite Z.shiftr_div_pow2, !Z.shiftl_mul_pow2 by lia. rewrite Z.mul_1_l.
  assert (Hp : 0 < 2 ^ j) by (apply Z.pow_pos_nonneg; lia).
  pose proof (Z.div_mod a (2 ^ j) ltac:(lia)) as Hdm.
  pose proof (Z.mod_pos_bound a (2 ^ j) Hp) as Hb.
  set (q := a / 2 ^ j) in *. set (r := a mod 2 ^ j) in *.
  replace (a - q * 2 ^ j) with r by lia.
  assert (E : (r ?= 2 ^ (j - 1)) = (2 * r ?= 2 ^ j)).
  { assert (E2 : 2 ^ j = 2 * 2 ^ (j - 1)).
    { rewrite <- Z.pow_succ_r by lia. f_equal. lia. }
    rewrite E2.
    destruct (Z.compare_spec r (2 ^ (j - 1))); symmetry;
      [apply Z.compare_eq_iff | apply Z.compare_lt_iff | apply Z.compare_gt_iff]; lia. }
  rewrite E. rewrite <- bpow_IZR by lia. apply tie_spec; auto.
Qed.

Lemma log2_bpow a : 0 < a -> (bpow (Z.log2 a) <= IZR a < bpow (Z.log2 a + 1))%R.
Proof.
  intros Ha. pose proof (Z.log2_spec a Ha) as [H1 H2].
  pose proof (Z.log2_nonneg a).
  rewrite <- !bpow_IZR by lia. split; [apply IZR_le | apply IZR_lt]; auto.
Qed.

Lemma ilog2_ratio_spec a d :
  0 < a -> 0 < d ->
  (bpow (ilog2_ratio a d) <= IZR a / IZR d < bpow (ilog2_ratio a d + 1))%R.
Proof.
  intros Ha Hd. unfold ilog2_ratio.
  pose proof (log2_bpow a Ha) as [A1 A2]. pose proof (log2_bpow d Hd) as [D1 D2].
  set (la := Z.log2 a) in *. set (ld := Z.log2 d) in *. set (l := la - ld).
  assert (Hdr : (0 < IZR d)%R) by (apply IZR_lt; auto).
  assert (Har : (0 < IZR a)%R) by (apply IZR_lt; auto).
  set (v := (IZR a / IZR d)%R).
  assert (Hv : (IZR a = v * IZR d)%R) by (unfold v; field; lra).
  assert (T : (if 0 <=? l then a <? Z.shiftl d l else Z.shiftl a (- l) <? d) = true
              <-> (IZR a < IZR d * bpow l)%R).
  { destruct (Z.leb_spec 0 l).
    - rewrite Z.ltb_lt. rewrite <- IZR_shiftl by auto. split; [apply IZR_lt | apply lt_IZR].
    - rewrite Z.ltb_lt. split; intros Hlt.
      + apply IZR_lt in Hlt. rewrite IZR_shiftl in Hlt by lia.
        rewrite bpow_opp in Hlt. pose proof (bpow_pos l).
        apply Rmult_lt_reg_r with (/ bpow l)%R; [apply Rinv_0_lt_compat; auto|].
        rewrite Rmult_assoc, Rinv_r by lra. lra.
      + apply lt_IZR. rewrite IZR_shiftl by lia. rewrite bpow_opp. pose proof (bpow_pos l).
        apply Rmult_lt_reg_r with (bpow l); auto.
        rewrite Rmult_assoc, Rinv_l by lra. lra. }
  assert (El : bpow la = (bpow l * bpow ld)%R) by (rewrite <- bpow_add; f_equal; unfold l; lia).
  assert (El1 : bpow (la + 1) = (2 * bpow l * bpow ld)%R).
  { rewrite bpow_succ, El. ring. }
  rewrite bpow_succ in D2.
  pose proof (bpow_pos l) as Pl. pose proof (bpow_pos ld) as Pld.
  destruct (if 0 <=? l then a <? Z.shiftl d l else Z.shiftl a (- l) <? d) eqn:Ht.
  - apply proj1 in T. specialize (T eq_refl).
    replace (l - 1 + 1) with l by lia.
    assert (bpow l = 2 * bpow (l - 1))%R by (rewrite <- bpow_succ; f_equal; lia).
    split.
    + apply Rmult_le_reg_r with (IZR d); auto. rewrite <- Hv. nra.
    + apply Rmult_lt_reg_r with (IZR d); auto. rewrite <- Hv. nra.
  - assert (~ (IZR a < IZR d * bpow l)%R) by (intros X; apply T in X; discriminate).
    rewrite bpow_succ. split.
    + apply Rmult_le_reg_r with (IZR d); auto. rewrite <- Hv. nra.
    + apply Rmult_lt_reg_r with (IZR d); auto. rewrite <- Hv. nra.
Qed.

Lemma binade_unique E1 E2 v1 v2 :
  (bpow E1 <= v1 < bpow (E1 + 1))%R -> (bpow E2 <= v2 < bpow (E2 + 1))%R ->
  (v1 <= v2)%R -> E1 <= E2.
Proof.
  intros [A1 A2] [B1 B2] Hv.
  assert (bpow E1 < bpow (E2 + 1))%R by lra.
  apply bpow_lt_inv in H. lia.
Qed.

Lemma rnd_pos_bounds f v M ex :
  1 <= prec f -> rnd_pos f v M ex -> 0 <= M <= 2 ^ prec f.
Proof.
  intros Hp [[E [[E1 E2] Hex]] HM].
  assert (P := bpow_pos ex).
  assert (Y0 : (0 <= v / bpow ex)%R).
  { apply Rmult_le_pos. pose proof (bpow_pos E). lra. left. apply Rinv_0_lt_compat; auto. }
  assert (Y1 : (v / bpow ex <= IZR (2 ^ prec f))%R).
  { rewrite bpow_IZR by lia. apply Rmult_le_reg_r with (bpow ex); auto.
    unfold Rdiv. rewrite Rmult_assoc, Rinv_l, Rmult_1_r by lra.
    rewrite <- bpow_add. left. eapply Rlt_le_trans; [apply E2|]. apply bpow_le. lia. }
  split.
  - apply (nearest_even_mono 0 (v / bpow ex) 0 M); auto. apply (nearest_even_of_int 0).
  - apply (nearest_even_mono (v / bpow ex) _ M (2 ^ prec f) Y1); auto. apply nearest_even_of_int.
Qed.

Lemma rnd_pos_normal f v M ex E :
  1 <= prec f -> rnd_pos f v M ex ->
  (bpow E <= v)%R -> ex <= E - prec f + 1 -> 2 ^ (prec f - 1) <= M.
Proof.
  intros Hp [_ HM] HE Hex.
  assert (P := bpow_pos ex).
  apply (nearest_even_mono (IZR (2 ^ (prec f - 1))) (v / bpow ex)); auto.
  - rewrite bpow_IZR by lia. apply Rmult_le_reg_r with (bpow ex); auto.
    unfold Rdiv. rewrite Rmult_assoc, Rinv_l, Rmult_1_r by lra.
    rewrite <- bpow_add. eapply Rle_trans; [|apply HE]. apply bpow_le. lia.
  - apply nearest_even_of_int.
Qed.

Lemma rnd_pos_mono f v1 v2 M1 ex1 M2 ex2 :
  1 <= prec f -> (v1 <= v2)%R ->
  rnd_pos f v1 M1 ex1 -> rnd_pos f v2 M2 ex2 -> (F2R M1 ex1 <= F2R M2 ex2)%R.
Proof.
  intros Hp Hv H1 H2.
  pose proof (rnd_pos_bounds _ _ _ _ Hp H1) as B1.
  pose proof (rnd_pos_bounds _ _ _ _ Hp H2) as B2.
  destruct H1 as [[E1 [HE1 Hex1]] HM1]. pose proof H2 as H2'.
  destruct H2 as [[E2 [HE2 Hex2]] HM2].
  pose proof (binade_unique _ _ _ _ HE1 HE2 Hv) as HE.
  assert (Hex : ex1 <= ex2) by lia.
  unfold F2R.
  destruct (Z.eq_dec ex1 ex2) as [->|Hne].
  - apply Rmult_le_compat_r; [left; apply bpow_pos|]. apply IZR_le.
    apply (nearest_even_mono (v1 / bpow ex2) (v2 / bpow ex2)); auto.
    apply Rmult_le_compat_r; auto. left. apply Rinv_0_lt_compat, bpow_pos.
  - assert (N2 : 2 ^ (prec f - 1) <= M2).
    { apply (rnd_pos_normal f v2 M2 ex2 E2); auto. tauto. lia. }
    apply IZR_le in N2. rewrite bpow_IZR in N2 by lia.
    destruct B1 as [_ B1]. apply IZR_le in B1. rewrite bpow_IZR in B1 by lia.
    pose proof (bpow_pos ex1). pose proof (bpow_pos ex2).
    apply Rle_trans with (bpow (prec f) * bpow ex1)%R.
    + apply Rmult_le_compat_r; lra.
    + apply Rle_trans with (bpow (prec f - 1) * bpow ex2)%R.
      * rewrite <- !bpow_add. apply bpow_le. lia.
      * apply Rmult_le_compat_r; lra.
Qed.

Lemma rnd_pos_nonneg f v M ex : 1 <= prec f -> rnd_pos f v M ex -> (0 <= F2R M ex)%R.
Proof.
  intros Hp H. apply rnd_pos_bounds in H; auto. unfold F2R.
  apply Rmult_le_pos; [apply IZR_le; lia | left; apply bpow_pos].
Qed.

Lemma rounded_mono f v1 v2 r1 r2 :
  1 <= prec f -> (v1 <= v2)%R -> rounded f v1 r1 -> rounded f v2 r2 -> (r1 <= r2)%R.
Proof.
  intros Hp Hv H1 H2.
  destruct H1 as [[A1 B1]|[[A1 (M1 & ex1 & R1 & B1)]|[A1 (M1 & ex1 & R1 & B1)]]];
  destruct H2 as [[A2 B2]|[[A2 (M2 & ex2 & R2 & B2)]|[A2 (M2 & ex2 & R2 & B2)]]];
  subst; try lra;
  try (pose proof (rnd_pos_nonneg _ _ _ _ Hp R1));
  try (pose proof (rnd_pos_nonneg _ _ _ _ Hp R2)); try lra.
  - apply (rnd_pos_mono f v1 v2); auto.
  - apply Ropp_le_contravar. apply (rnd_pos_mono f (- v2) (- v1)); auto. lra.
Qed.

Lemma F2R_0 e : F2R 0 e = 0%R.
Proof. unfold F2R. lra. Qed.

Lemma F2R_opp m e : F2R (- m) e = (- F2R m e)%R.
Proof. unfold F2R. rewrite opp_IZR. ring. Qed.

Lemma F2R_shift m e k : 0 <= k -> F2R (Z.shiftl m k) (e - k) = F2R m e.
Proof.
  intros. unfold F2R. rewrite IZR_shiftl by auto. rewrite Rmult_assoc, <- bpow_add.
  do 2 f_equal. lia.
Qed.

Lemma fcmp_Fin_spec m1 e1 m2 e2 :
  exists c, fcmp (Fin m1 e1) (Fin m2 e2) = Some c /\
    match c with
    | Lt => (F2R m1 e1 < F2R m2 e2)%R
    | Eq => (F2R m1 e1 = F2R m2 e2)%R
    | Gt => (F2R m1 e1 > F2R m2 e2)%R
    end.
Proof.
  unfold fcmp. destruct (Z.leb_spec e1 e2).
  - eexists; split; [reflexivity|].
    rewrite <- (F2R_shift m2 e2 (e2 - e1)) by lia.
    replace (e2 - (e2 - e1)) with e1 by lia. unfold F2R. pose proof (bpow_pos e1).
    destruct (Z.compare_spec m1 (Z.shiftl m2 (e2 - e1))) as [Hc|Hc|Hc].
    + rewrite Hc; auto.
    + apply IZR_lt in Hc. nra.
    + apply IZR_lt in Hc. nra.
  - eexists; split; [reflexivity|].
    rewrite <- (F2R_shift m1 e1 (e1 - e2)) by lia.
    replace (e1 - (e1 - e2)) with e2 by lia. unfold F2R. pose proof (bpow_pos e2).
    destruct (Z.compare_spec (Z.shiftl m1 (e1 - e2)) m2) as [Hc|Hc|Hc].
    + rewrite Hc; auto.
    + apply IZR_lt in Hc. nra.
    + apply IZR_lt in Hc. nra.
Qed.

Lemma fle_Fin m1 e1 m2 e2 :
  fle (Fin m1 e1) (Fin m2 e2) = true <-> (F2R m1 e1 <= F2R m2 e2)%R.
Proof.
  unfold fle. destruct (fcmp_Fin_spec m1 e1 m2 e2) as [c [-> Hc]].
  destruct c; split; intros; try lra; auto; discriminate.
Qed.

Lemma flt_Fin m1 e1 m2 e2 :
  flt (Fin m1 e1) (Fin m2 e2) = true <-> (F2R m1 e1 < F2R m2 e2)%R.
Proof.
  unfold flt. destruct (fcmp_Fin_spec m1 e1 m2 e2) as [c [-> Hc]].
  destruct c; split; intros; try lra; auto; discriminate.
Qed.

Lemma clamped_fle f r1 r2 x1 x2 :
  (r1 <= r2)%R -> clamped f r1 x1 -> clamped f r2 x2 -> fle x1 x2 = true.
Proof.
  intros Hr H1 H2. pose proof (bpow_pos (emax f)).
  destruct H1 as [[A1 ->]|[[A1 ->]|[A1 (m1 & e1 & -> & B1)]]];
  destruct H2 as [[A2 ->]|[[A2 ->]|[A2 (m2 & e2 & -> & B2)]]];
  try reflexivity; try lra.
  apply fle_Fin. lra.
Qed.

Lemma clamped_neg f r x : clamped f r x -> clamped f (- r) (fneg x).
Proof.
  intros [[A ->]|[[A ->]|[A (m & e & -> & B)]]]; simpl.
  - right; left. split; [lra | reflexivity].
  - left. split; [lra | reflexivity].
  - right; right. split; [lra|]. exists (- m), e. split; auto. rewrite F2R_opp. lra.
Qed.

Lemma round_neg f n d e : n < 0 -> round f n d e = fneg (round f (- n) d e).
Proof.
  intros Hn. unfold round.
  destruct (Z.eqb_spec n 0); [lia|]. destruct (Z.eqb_spec (- n) 0); [lia|].
  rewrite Z.abs_opp.
  destruct (Z.ltb_spec n 0); [|lia]. destruct (Z.ltb_spec (- n) 0); [lia|].
  set (ex := Z.max _ _).
  set (M := if d =? 1 then _ else _).
  destruct (M =? 0); [reflexivity|].
  destruct (emax f <=? ex + Z.log2 M); [reflexivity|].
  destruct (Z.log2 M =? prec f); reflexivity.
Qed.

Lemma round_pos_spec f n d e :
  1 <= prec f -> 0 < n -> 0 < d ->
  exists M ex, rnd_pos f (IZR n / IZR d * bpow e) M ex /\
               clamped f (F2R M ex) (round f n d e) /\
               representable f (round f n d e) = true.
Proof.
  intros Hp Hn Hd. unfold round.
  destruct (Z.eqb_spec n 0); [lia|]. rewrite (Z.abs_eq n) by lia.
  destruct (Z.ltb_spec n 0); [lia|].
  pose proof (ilog2_ratio_spec n d Hn Hd) as HL.
  set (L := ilog2_ratio n d) in *.
  set (ex := Z.max (L + e - prec f + 1) (emin f)).
  set (v := (IZR n / IZR d * bpow e)%R).
  assert (Hdr : (0 < IZR d)%R) by (apply IZR_lt; auto).
  assert (Pe := bpow_pos e). assert (Pex := bpow_pos ex).
  assert (HE : (bpow (L + e) <= v < bpow (L + e + 1))%R).
  { unfold v. replace (L + e + 1) with (L + 1 + e) by lia.
    rewrite (bpow_add L e), (bpow_add (L + 1) e).
    destruct HL. split; [apply Rmult_le_compat_r | apply Rmult_lt_compat_r]; lra. }
  set (M := if d =? 1 then _ else _).
  assert (Hy : (v / bpow ex = IZR n / IZR d * bpow (e - ex))%R).
  { unfold v, Z.sub. rewrite bpow_add, bpow_opp. field. lra. }
  assert (HM : nearest_even (v / bpow ex) M).
  { rewrite Hy. unfold M. destruct (Z.eqb_spec d 1) as [->|Hd1].
    - destruct (Z.leb_spec 0 (e - ex)).
      + replace (IZR n / 1 * bpow (e - ex))%R with (IZR (Z.shiftl n (e - ex))).
        apply nearest_even_of_int. rewrite IZR_shiftl by auto. field.
      + replace (IZR n / 1 * bpow (e - ex))%R with (IZR n / bpow (- (e - ex)))%R.
        apply rne_shr_spec; lia. rewrite bpow_opp. field. pose proof (bpow_pos (e - ex)). lra.
    - destruct (Z.leb_spec 0 (e - ex)).
      + replace (IZR n / IZR d * bpow (e - ex))%R with (IZR (Z.shiftl n (e - ex)) / IZR d)%R.
        apply rne_spec; auto. rewrite IZR_shiftl by auto. field. lra.
      + replace (IZR n / IZR d * bpow (e - ex))%R with (IZR n / IZR (Z.shiftl d (- (e - ex))))%R.
        apply rne_spec. rewrite Z.shiftl_mul_pow2 by lia. apply Z.mul_pos_pos; auto.
        apply Z.pow_pos_nonneg; lia.
        rewrite IZR_shiftl by lia. rewrite bpow_opp. field.
        pose proof (bpow_pos (e - ex)). lra. }
  clearbody M.
  assert (HR : rnd_pos f v M ex).
  { split; auto. exists (L + e). split; auto. }
  exists M, ex. split; auto.
  pose proof (rnd_pos_bounds f v M ex Hp HR) as [M0 M1].
  assert (Pm := bpow_pos (emax f)).
  destruct (Z.eqb_spec M 0) as [->|HM0].
  { split; [|reflexivity].
    right; right. rewrite F2R_0. split; [lra|]. exists 0, 0. split; auto. apply F2R_0. }
  assert (Mpos : 0 < M) by lia.
  pose proof (log2_bpow M Mpos) as [G1 G2].
  destruct (Z.leb_spec (emax f) (ex + Z.log2 M)).
  { split; [|reflexivity]. left. split; auto. unfold F2R.
    apply Rle_trans with (bpow (Z.log2 M) * bpow ex)%R.
    - rewrite <- bpow_add. apply bpow_le. lia.
    - apply Rmult_le_compat_r; lra. }
  assert (Hex : emin f <= ex) by (unfold ex; lia).
  assert (Hin : (- bpow (emax f) < F2R M ex < bpow (emax f))%R).
  { split.
    - apply Rlt_le_trans with 0%R; [lra|]. unfold F2R. apply Rmult_le_pos; [apply IZR_le; lia | lra].
    - unfold F2R. apply Rlt_le_trans with (bpow (Z.log2 M + 1) * bpow ex)%R.
      + apply Rmult_lt_compat_r; lra.
      + rewrite <- bpow_add. apply bpow_le. lia. }
  destruct (Z.eqb_spec (Z.log2 M) (prec f)) as [El|El].
  - assert (EM : M = 2 ^ prec f).
    { apply Z.le_antisymm; auto. rewrite <- El. apply Z.log2_spec; auto. }
    assert (ES : Z.shiftr M 1 = 2 ^ (prec f - 1)).
    { rewrite EM, Z.shiftr_div_pow2, Z.pow_1_r by lia.
      replace (2 ^ prec f) with (2 ^ (prec f - 1) * 2).
      - apply Z.div_mul. discriminate.
      - rewrite Z.mul_comm, <- Z.pow_succ_r by lia. f_equal. lia. }
    split.
    + right; right. split; auto. exists (Z.shiftr M 1), (ex + 1). split; auto.
      rewrite ES, EM. unfold F2R. rewrite bpow_succ, !bpow_IZR by lia.
      replace (prec f) with (prec f - 1 + 1) at 2 by lia. rewrite bpow_succ. ring.
    + unfold representable. rewrite ES.
      assert (0 < 2 ^ (prec f - 1)) by (apply Z.pow_pos_nonneg; lia).
      rewrite Z.abs_eq by lia. rewrite Z.log2_pow2 by lia.
      destruct (Z.eqb_spec (2 ^ (prec f - 1)) 0); [lia|].
      assert (2 ^ (prec f - 1) < 2 ^ prec f) by (apply Z.pow_lt_mono_r; lia).
      destruct (Z.ltb_spec (2 ^ (prec f - 1)) (2 ^ prec f)); [|lia].
      destruct (Z.leb_spec (emin f) (ex + 1)); [|lia].
      destruct (Z.ltb_spec (ex + 1 + (prec f - 1)) (emax f)); [reflexivity|lia].
  - split.
    + right; right. split; auto. exists M, ex. auto.
    + unfold representable. rewrite Z.abs_eq by lia.
      destruct (Z.eqb_spec M 0); [lia|].
      assert (M < 2 ^ prec f).
      { destruct (Z.eq_dec M (2 ^ prec f)) as [EM|]; [|lia].
        exfalso. apply El. rewrite EM. apply Z.log2_pow2. lia. }
      destruct (Z.ltb_spec M (2 ^ prec f)); [|lia].
      destruct (Z.leb_spec (emin f) ex); [|lia].
      destruct (Z.ltb_spec (ex + Z.log2 M) (emax f)); [reflexivity|lia].
Qed.

Lemma representable_neg f x : representable f (fneg x) = representable f x.
Proof.
  destruct x as [| |m e]; simpl; auto. rewrite Z.abs_opp.
  destruct (Z.eqb_spec m 0), (Z.eqb_spec (- m) 0); auto; lia.
Qed.

Lemma round_spec f n d e :
  1 <= prec f -> 0 < d ->
  exists r, rounded f (IZR n / IZR d * bpow e) r /\ clamped f r (round f n d e) /\
            representable f (round f n d e) = true.
Proof.
  intros Hp Hd.
  assert (Hdr : (0 < IZR d)%R) by (apply IZR_lt; auto).
  assert (Pe := bpow_pos e). assert (Pm := bpow_pos (emax f)).
  assert (Hinv : (0 < / IZR d)%R) by (apply Rinv_0_lt_compat; auto).
  destruct (Z.lt_trichotomy n 0) as [Hn|[->|Hn]].
  - destruct (round_pos_spec f (- n) d e Hp ltac:(lia) Hd) as (M & ex & HR & HC & HP).
    assert (Hv : (IZR (- n) / IZR d * bpow e = - (IZR n / IZR d * bpow e))%R).
    { rewrite opp_IZR. field. lra. }
    exists (- F2R M ex)%R. split.
    + right; right. split.
      * apply IZR_lt in Hn. unfold Rdiv.
        assert (IZR n * / IZR d < 0)%R by nra. nra.
      * exists M, ex. rewrite <- Hv. auto.
    + rewrite round_neg by auto. split; [apply clamped_neg; auto|].
      rewrite representable_neg. auto.
  - exists 0%R. split.
    + left. split; auto. unfold Rdiv. ring.
    + split; [|reflexivity].
      right; right. split; [lra|]. exists 0, 0. split; auto. apply F2R_0.
  - destruct (round_pos_spec f n d e Hp Hn Hd) as (M & ex & HR & HC & HP).
    exists (F2R M ex). split; [|split; auto].
    right; left. split.
    + apply IZR_lt in Hn. unfold Rdiv. apply Rmult_lt_0_compat; auto. apply Rmult_lt_0_compat; auto.
    + exists M, ex. auto.
Qed.

Theorem round_mono f n1 d1 e1 n2 d2 e2 :
  1 <= prec f -> 0 < d1 -> 0 < d2 ->
  (IZR n1 / IZR d1 * bpow e1 <= IZR n2 / IZR d2 * bpow e2)%R ->
  fle (round f n1 d1 e1) (round f n2 d2 e2) = true.
Proof.
  intros Hp H1 H2 Hv.
  destruct (round_spec f n1 d1 e1 Hp H1) as (r1 & R1 & C1 & _).
  destruct (round_spec f n2 d2 e2 Hp H2) as (r2 & R2 & C2 & _).
  apply (clamped_fle f r1 r2); auto.
  apply (rounded_mono f _ _ r1 r2 Hp Hv); auto.
Qed.

Lemma round_not_nan f n d e : 1 <= prec f -> 0 < d -> is_nan (round f n d e) = false.
Proof.
  intros Hp Hd. destruct (round_spec f n d e Hp Hd) as (r & _ & C & _).
  destruct C as [[_ ->]|[[_ ->]|[_ (m & e' & -> & _)]]]; reflexivity.
Qed.

Lemma fle_not_nan x y : fle x y = true -> is_nan x = false /\ is_nan y = false.
Proof. destruct x, y; simpl; auto; discriminate. Qed.

Lemma fle_refl x : is_nan x = false -> fle x x = true.
Proof.
  destruct x as [|[]|m e]; simpl; intros; try discriminate; auto.
  apply fle_Fin. lra.
Qed.

Lemma fle_trans x y z : fle x y = true -> fle y z = true -> fle x z = true.
Proof.
  destruct x as [|[]|m1 e1], y as [|[]|m2 e2], z as [|[]|m3 e3]; simpl; intros H1 H2;
    try discriminate; auto.
  apply fle_Fin in H1. apply fle_Fin in H2. apply fle_Fin. lra.
Qed.

Lemma fle_Inf_l x : is_nan x = false -> fle (Inf true) x = true.
Proof. destruct x as [|[]|]; simpl; auto. Qed.

Lemma fle_Inf_r x : is_nan x = false -> fle x (Inf false) = true.
Proof. destruct x as [|[]|]; simpl; auto. Qed.

Lemma fle_between_fin lo x hi :
  fle lo x = true -> fle x hi = true -> is_fin lo = true -> is_fin hi = true ->
  is_fin x = true.
Proof. destruct lo, hi; try discriminate. destruct x as [|[]|]; simpl; auto. Qed.

(** exact results of the finite cases *)
Lemma fadd_Fin f m1 e1 m2 e2 :
  exists n e, fadd f (Fin m1 e1) (Fin m2 e2) = round f n 1 e /\
    (IZR n / IZR 1 * bpow e = F2R m1 e1 + F2R m2 e2)%R.
Proof.
  unfold fadd. destruct (Z.leb_spec e1 e2).
  - eexists _, _. split; [reflexivity|].
    rewrite plus_IZR. rewrite <- (F2R_shift m2 e2 (e2 - e1)) by lia.
    replace (e2 - (e2 - e1)) with e1 by lia. unfold F2R. field.
  - eexists _, _. split; [reflexivity|].
    rewrite plus_IZR. rewrite <- (F2R_shift m1 e1 (e1 - e2)) by lia.
    replace (e1 - (e1 - e2)) with e2 by lia. unfold F2R. field.
Qed.

Lemma fmul_Fin f m1 e1 m2 e2 :
  fmul f (Fin m1 e1) (Fin m2 e2) = round f (m1 * m2) 1 (e1 + e2) /\
    (IZR (m1 * m2) / IZR 1 * bpow (e1 + e2) = F2R m1 e1 * F2R m2 e2)%R.
Proof.
  split; [reflexivity|]. rewrite mult_IZR, bpow_add. unfold F2R. field.
Qed.

Lemma fdiv_Fin f m1 e1 m2 e2 :
  m2 <> 0 ->
  exists n d e, fdiv f (Fin m1 e1) (Fin m2 e2) = round f n d e /\ 0 < d /\
    (IZR n / IZR d * bpow e = F2R m1 e1 / F2R m2 e2)%R.
Proof.
  intros Hm. unfold fdiv. destruct (Z.eqb_spec m2 0); [contradiction|].
  eexists _, _, _. split; [reflexivity|]. split; [lia|].
  assert (P1 := bpow_pos e1). assert (P2 := bpow_pos e2).
  assert (IZR m2 <> 0)%R by (apply not_0_IZR; auto).
  unfold Z.sub. rewrite bpow_add, bpow_opp. unfold F2R.
  destruct (Z.ltb_spec m2 0).
  - rewrite Z.abs_neq by lia. rewrite !opp_IZR. field. split; lra.
  - rewrite Z.abs_eq by lia. field. split; lra.
Qed.

Section Mono.
  Variable f : format.
  Hypothesis Hp : 1 <= prec f.

Lemma fadd_not_nan_Fin m1 e1 m2 e2 : is_nan (fadd f (Fin m1 e1) (Fin m2 e2)) = false.
  Proof.
    destruct (fadd_Fin f m1 e1 m2 e2) as (n & e & -> & _). apply round_not_nan; auto; lia.
  Qed.

Lemma fadd_mono a1 a2 b1 b2 :
    fle a1 a2 = true -> fle b1 b2 = true ->
    is_fin a1 = true -> is_fin a2 = true -> is_fin b1 = true -> is_fin b2 = true ->
    fle (fadd f a1 b1) (fadd f a2 b2) = true.
  Proof.
    destruct a1 as [| |m1 e1], a2 as [| |m2 e2], b1 as [| |m3 e3], b2 as [| |m4 e4];
      try discriminate. intros Ha Hb _ _ _ _.
    apply fle_Fin in Ha. apply fle_Fin in Hb.
    destruct (fadd_Fin f m1 e1 m3 e3) as (n & e & -> & V1).
    destruct (fadd_Fin f m2 e2 m4 e4) as (n' & e' & -> & V2).
    apply round_mono; auto; try lia. rewrite V1, V2. lra.
  Qed.

Lemma fneg_fle a b : fle a b = true -> fle (fneg b) (fneg a) = true.
  Proof.
    destruct a as [|[]|m1 e1], b as [|[]|m2 e2]; simpl; auto.
    intros H. apply fle_Fin in H. apply fle_Fin. rewrite !F2R_opp. lra.
  Qed.

Lemma fsub_mono a1 a2 b1 b2 :
    fle a1 a2 = true -> fle b2 b1 = true ->
    is_fin a1 = true -> is_fin a2 = true -> is_fin b1 = true -> is_fin b2 = true ->
    fle (fsub f a1 b1) (fsub f a2 b2) = true.
  Proof.
    intros. unfold fsub. apply fadd_mono; auto.
    - apply fneg_fle; auto.
    - destruct b1; auto.
    - destruct b2; auto.
  Qed.

Lemma fmul_mono a1 a2 b1 b2 :
    fle (Fin 0 0) a1 = true -> fle a1 a2 = true ->
    fle (Fin 0 0) b1 = true -> fle b1 b2 = true ->
    is_fin a2 = true -> is_fin b2 = true ->
    fle (fmul f a1 b1) (fmul f a2 b2) = true.
  Proof.
    destruct a1 as [|[]|m1 e1], a2 as [| |m2 e2], b1 as [|[]|m3 e3], b2 as [| |m4 e4];
      try discriminate. intros Ha0 Ha Hb0 Hb _ _.
    apply fle_Fin in Ha, Hb, Ha0, Hb0. rewrite F2R_0 in *.
    destruct (fmul_Fin f m1 e1 m3 e3) as (-> & V1).
    destruct (fmul_Fin f m2 e2 m4 e4) as (-> & V2).
    apply round_mono; auto; try lia. rewrite V1, V2. nra.
  Qed.

Lemma fdiv_mono a1 a2 m e :
    fle a1 a2 = true -> 0 < m ->
    is_fin a1 = true -> is_fin a2 = true ->
    fle (fdiv f a1 (Fin m e)) (fdiv f a2 (Fin m e)) = true.
  Proof.
    destruct a1 as [| |m1 e1], a2 as [| |m2 e2]; try discriminate. intros Ha Hm _ _.
    apply fle_Fin in Ha.
    destruct (fdiv_Fin f m1 e1 m e ltac:(lia)) as (n & d & e' & -> & Hd & V1).
    destruct (fdiv_Fin f m2 e2 m e ltac:(lia)) as (n' & d' & e'' & -> & Hd' & V2).
    apply round_mono; auto. rewrite V1, V2.
    assert (0 < F2R m e)%R.
    { unfold F2R. apply Rmult_lt_0_compat; [apply IZR_lt; auto | apply bpow_pos]. }
    apply Rmult_le_compat_r; auto. left. apply Rinv_0_lt_compat; auto.
  Qed.
End Mono.

Lemma trunc_spec m e :
  ((0 <= F2R m e -> IZR (trunc m e) <= F2R m e < IZR (trunc m e) + 1) /\
   (F2R m e <= 0 -> IZR (trunc m e) - 1 < F2R m e <= IZR (trunc m e)))%R.
Proof.
  unfold trunc. destruct (Z.leb_spec 0 e).
  - rewrite IZR_shiftl by auto. fold (F2R m e). split; intros; lra.
  - set (k := - e). assert (Hk : 0 < k) by (unfold k; lia).
    rewrite Z.shiftl_mul_pow2, Z.mul_1_l by lia.
    assert (Hp : 0 < 2 ^ k) by (apply Z.pow_pos_nonneg; lia).
    pose proof (Z.quot_rem' m (2 ^ k)) as Hqr.
    set (q := Z.quot m (2 ^ k)) in *. set (r := Z.rem m (2 ^ k)) in *.
    assert (Pk := bpow_pos k).
    assert (Hv : (F2R m e * bpow k = IZR m)%R).
    { unfold F2R. rewrite Rmult_assoc, <- bpow_add. replace (e + k) with 0 by (unfold k; lia).
      rewrite bpow_0. ring. }
    assert (Hm : (IZR m = bpow k * IZR q + IZR r)%R).
    { rewrite <- bpow_IZR, <- mult_IZR, <- plus_IZR by lia. f_equal. auto. }
    split; intros Hs.
    + assert (0 <= m). { apply le_IZR. rewrite <- Hv. apply Rmult_le_pos; lra. }
      pose proof (Z.rem_bound_pos m (2 ^ k) H0 Hp) as [R0 R1].
      apply IZR_le in R0. apply IZR_lt in R1. rewrite bpow_IZR in R1 by lia. fold r in R0, R1.
      split; [apply Rmult_le_reg_r with (bpow k) | apply Rmult_lt_reg_r with (bpow k)]; auto;
        rewrite Hv, Hm; nra.
    + assert (m <= 0). { apply le_IZR. rewrite <- Hv. 
        replace 0%R with (0 * bpow k)%R by ring. apply Rmult_le_compat_r; lra. }
      pose proof (Z.rem_bound_pos_neg m (2 ^ k) Hp H0) as [R0 R1]. fold r in R0, R1.
      apply IZR_lt in R0. apply IZR_le in R1. rewrite opp_IZR, bpow_IZR in R0 by lia.
      split; [apply Rmult_lt_reg_r with (bpow k) | apply Rmult_le_reg_r with (bpow k)]; auto;
        rewrite Hv, Hm; nra.
Qed.

Lemma trunc_mono m1 e1 m2 e2 :
  (F2R m1 e1 <= F2R m2 e2)%R -> trunc m1 e1 <= trunc m2 e2.
Proof.
  intros H. pose proof (trunc_spec m1 e1) as [A1 A2]. pose proof (trunc_spec m2 e2) as [B1 B2].
  destruct (Rle_dec 0 (F2R m1 e1)); destruct (Rle_dec (F2R m2 e2) 0).
  - specialize (A1 ltac:(lra)). specialize (B2 ltac:(lra)). apply IZR_le_1. lra.
  - specialize (A1 ltac:(lra)). specialize (B1 ltac:(lra)). apply IZR_le_1. lra.
  - specialize (A2 ltac:(lra)). specialize (B2 ltac:(lra)). apply IZR_le_1. lra.
  - specialize (A2 ltac:(lra)). specialize (B1 ltac:(lra)).
    assert (trunc m1 e1 < 1) by (apply lt_IZR; lra).
    assert (-1 < trunc m2 e2) by (apply lt_IZR; lra). lia.
Qed.

Lemma to_int_Fin m e :
  to_int (Fin m e) = if (- 2 ^ 31 <=? trunc m e) && (trunc m e <? 2 ^ 31) then Some (trunc m e) else None.
Proof. reflexivity. Qed.

Lemma to_int_between lo x hi a b :
  fle lo x = true -> fle x hi = true -> to_int lo = Some a -> to_int hi = Some b ->
  exists i, to_int x = Some i /\ a <= i <= b.
Proof.
  intros H1 H2 Ha Hb.
  destruct lo as [| |ml el]; try discriminate. destruct hi as [| |mh eh]; try discriminate.
  destruct x as [|[]|m e]; try discriminate.
  apply fle_Fin in H1, H2. apply trunc_mono in H1, H2.
  rewrite to_int_Fin in *.
  destruct (andb _ _) eqn:Ea in Ha; [|discriminate]. injection Ha as <-.
  destruct (andb _ _) eqn:Eb in Hb; [|discriminate]. injection Hb as <-.
  apply andb_prop in Ea, Eb. destruct Ea as [Ea _], Eb as [_ Eb].
  apply Z.leb_le in Ea. apply Z.ltb_lt in Eb.
  exists (trunc m e). split; [|lia].
  destruct (Z.leb_spec (- 2 ^ 31) (trunc m e)); [|lia].
  destruct (Z.ltb_spec (trunc m e) (2 ^ 31)); [|lia]. reflexivity.
Qed.

Lemma to_int_mono x y i j :
  fle x y = true -> to_int x = Some i -> to_int y = Some j -> i <= j.
Proof.
  intros H Hx Hy.
  destruct x as [| |m1 e1]; try discriminate. destruct y as [| |m2 e2]; try discriminate.
  apply fle_Fin in H. apply trunc_mono in H. rewrite to_int_Fin in *.
  destruct (andb _ _) in Hx; [|discriminate]. destruct (andb _ _) in Hy; [|discriminate].
  injection Hx as <-. injection Hy as <-. auto.
Qed.

(** ** order facts *)
Lemma flt_fle x y : flt x y = true -> fle x y = true.
Proof. unfold flt, fle. destruct (fcmp x y) as [[]|]; auto. Qed.

Lemma fle_false_flt x y :
  is_nan x = false -> is_nan y = false -> fle x y = false -> flt y x = true.
Proof.
  destruct x as [|[]|m1 e1], y as [|[]|m2 e2]; simpl; try discriminate; auto.
  intros _ _ H. apply flt_Fin.
  destruct (Rlt_dec (F2R m2 e2) (F2R m1 e1)); auto.
  assert (fle (Fin m1 e1) (Fin m2 e2) = true) by (apply fle_Fin; lra). congruence.
Qed.

Lemma flt_not_fle x y : flt x y = true -> fle y x = false.
Proof.
  destruct x as [|[]|m1 e1], y as [|[]|m2 e2]; simpl; try discriminate; auto.
  intros H. apply flt_Fin in H.
  destruct (fle (Fin m2 e2) (Fin m1 e1)) eqn:E; auto. apply fle_Fin in E. lra.
Qed.

Lemma fneg_involutive x : fneg (fneg x) = x.
Proof. destruct x as [|[]|m e]; simpl; auto. rewrite Z.opp_involutive. reflexivity. Qed.

Lemma round_opp f n d e : round f (- n) d e = fneg (round f n d e).
Proof.
  destruct (Z.lt_trichotomy n 0) as [H|[->|H]].
  - rewrite (round_neg f n) by auto. rewrite fneg_involutive. reflexivity.
  - reflexivity.
  - rewrite (round_neg f (- n)) by lia. rewrite Z.opp_involutive. reflexivity.
Qed.

Lemma rnd_pos_exact f v M ex m' e' :
  1 <= prec f -> rnd_pos f v M ex ->
  v = F2R m' e' -> 0 < m' < 2 ^ prec f -> emin f <= e' -> F2R M ex = v.
Proof.
  intros Hp [[E [[E1 E2] Hex]] HM] Hv Hm He.
  assert (Hlt : (v < bpow (prec f + e'))%R).
  { rewrite Hv. unfold F2R. rewrite bpow_add. apply Rmult_lt_compat_r; [apply bpow_pos|].
    rewrite <- bpow_IZR by lia. apply IZR_lt. lia. }
  assert (E < prec f + e') by (apply bpow_lt_inv; lra).
  assert (Hle : ex <= e') by lia.
  assert (Hy : (v / bpow ex = IZR (Z.shiftl m' (e' - ex)))%R).
  { rewrite IZR_shiftl by lia. rewrite Hv. unfold F2R, Z.sub. rewrite bpow_add, bpow_opp.
    field. pose proof (bpow_pos ex). lra. }
  rewrite Hy in HM. apply nearest_even_int in HM. subst M.
  rewrite Hv. replace ex with (e' - (e' - ex)) at 2 by lia. apply F2R_shift. lia.
Qed.

Lemma round_exact f n d e m' e' :
  1 <= prec f -> 0 < d ->
  (IZR n / IZR d * bpow e = F2R m' e')%R ->
  Z.abs m' < 2 ^ prec f -> emin f <= e' ->
  (- bpow (emax f) < F2R m' e' < bpow (emax f))%R ->
  exists m2 e2, round f n d e = Fin m2 e2 /\ F2R m2 e2 = F2R m' e'.
Proof.
  intros Hp Hd Hv Hm He Hb.
  destruct (round_spec f n d e Hp Hd) as (r & HR & HC & _).
  assert (Hr : r = F2R m' e').
  { rewrite Hv in HR. pose proof (bpow_pos e') as Pe.
    destruct HR as [[A B]|[[A (M & ex & R1 & B)]|[A (M & ex & R1 & B)]]].
    - lra.
    - rewrite B. apply (rnd_pos_exact f _ M ex m' e'); auto.
      split; [|lia]. apply lt_IZR. unfold F2R in A. nra.
    - assert (X : F2R M ex = (- F2R m' e')%R).
      { apply (rnd_pos_exact f (- F2R m' e')%R M ex (- m') e'); auto.
        + rewrite F2R_opp. reflexivity.
        + split; [|lia]. apply lt_IZR. rewrite opp_IZR. unfold F2R in A. nra. }
      rewrite B, X. lra. }
  subst r.
  destruct HC as [[A _]|[[A _]|[_ (m2 & e2 & E & V)]]]; try lra.
  exists m2, e2. auto.
Qed.

Lemma float_of_int_exact n :
  Z.abs n < 2 ^ 24 -> exists m e, float_of_int n = Fin m e /\ F2R m e = IZR n.
Proof.
  intros Hn. unfold float_of_int, of_int.
  destruct (round_exact binary32 n 1 0 n 0) as (m & e & E & V).
  - simpl; lia.
  - lia.
  - unfold F2R. rewrite bpow_0. field.
  - exact Hn.
  - simpl; lia.
  - unfold F2R. rewrite bpow_0, Rmult_1_r. simpl emax. rewrite <- (bpow_IZR 128) by lia.
    split.
    + apply Rlt_le_trans with (IZR (- 2 ^ 24)); [|apply IZR_le; lia].
      rewrite <- opp_IZR. apply IZR_lt. reflexivity.
    + apply Rlt_trans with (IZR (2 ^ 24)); apply IZR_lt; [lia | reflexivity].
  - exists m, e. split; auto. rewrite V. unfold F2R. rewrite bpow_0. ring.
Qed.

Lemma float_of_int_pos n :
  0 < n < 2 ^ 24 -> exists m e, float_of_int n = Fin m e /\ 0 < m.
Proof.
  intros Hn. destruct (float_of_int_exact n) as (m & e & E & V); [lia|].
  exists m, e. split; auto. apply lt_IZR. unfold F2R in V. pose proof (bpow_pos e).
  assert (0 < IZR n)%R by (apply IZR_lt; lia). nra.
Qed.

(** ** bounded loops *)
Section While.
  Context {S : Type} (c : S -> bool) (b : S -> S).

Lemma while_step fuel s :
    while (Datatypes.S fuel) c b s = if c s then while fuel c b (b s) else Some s.
  Proof. reflexivity. Qed.

Lemma while_invariant (Inv : nat -> S -> Prop) (K : nat) :
    (forall k s, Inv k s -> (k < K)%nat -> c s = true -> Inv (Datatypes.S k) (b s)) ->
    (forall s, Inv K s -> c s = false) ->
    forall j k s, (k + j = K)%nat -> Inv k s ->
    exists s', forall fuel, (j < fuel)%nat -> while fuel c b s = Some s'.
  Proof.
    intros Hstep Hend. induction j as [|j IH]; intros k s Hk HI.
    - assert (k = K) by lia. subst k. exists s. intros fuel Hf.
      destruct fuel; [lia|]. rewrite while_step, (Hend s HI). reflexivity.
    - destruct (c s) eqn:Ec.
      + destruct (IH (Datatypes.S k) (b s)) as (s' & Hs'); [lia | apply Hstep; auto; lia |].
        exists s'. intros fuel Hf. destruct fuel; [lia|]. rewrite while_step, Ec.
        apply Hs'. lia.
      + exists s. intros fuel Hf. destruct fuel; [lia|]. rewrite while_step, Ec. reflexivity.
  Qed.
End While.

(** ** symmetric bounds *)
Section Within.
  Variable f : format.
  Hypothesis Hp : 1 <= prec f.

Lemma within_Fin B x :
    within B x = true -> is_fin B = true ->
    exists mB eB m e, B = Fin mB eB /\ x = Fin m e /\
      (- F2R mB eB <= F2R m e <= F2R mB eB)%R.
  Proof.
    unfold within. intros H HB. apply andb_prop in H. destruct H as [H1 H2].
    destruct B as [| |mB eB]; try discriminate.
    destruct x as [|[]|m e]; try discriminate.
    simpl in H1. apply fle_Fin in H1, H2. rewrite F2R_opp in H1.
    exists mB, eB, m, e. repeat split; auto; lra.
  Qed.

Lemma within_intro mB eB m e :
    (- F2R mB eB <= F2R m e <= F2R mB eB)%R -> within (Fin mB eB) (Fin m e) = true.
  Proof.
    intros H. unfold within. simpl fneg. apply andb_true_intro. split; apply fle_Fin.
    - rewrite F2R_opp. lra.
    - lra.
  Qed.

Lemma round_within nA dA eA n d e :
    0 < dA -> 0 < d ->
    (- (IZR nA / IZR dA * bpow eA) <= IZR n / IZR d * bpow e <= IZR nA / IZR dA * bpow eA)%R ->
    within (round f nA dA eA) (round f n d e) = true.
  Proof.
    intros HdA Hd H. unfold within. apply andb_true_intro. split.
    - rewrite <- round_opp. apply round_mono; auto.
      rewrite opp_IZR. unfold Rdiv in *. lra.
    - apply round_mono; auto. lra.
  Qed.

Lemma fmul_within A B a b :
    within A a = true -> within B b = true -> is_fin A = true -> is_fin B = true ->
    within (fmul f A B) (fmul f a b) = true.
  Proof.
    intros Ha Hb FA FB.
    destruct (within_Fin A a Ha FA) as (mA & eA & m1 & e1 & -> & -> & H1).
    destruct (within_Fin B b Hb FB) as (mB & eB & m2 & e2 & -> & -> & H2).
    destruct (fmul_Fin f mA eA mB eB) as (-> & VA).
    destruct (fmul_Fin f m1 e1 m2 e2) as (-> & Va).
    apply round_within; try lia. rewrite VA, Va.
    assert (0 <= F2R mA eA)%R by lra. assert (0 <= F2R mB eB)%R by lra.
    split; nra.
  Qed.

Lemma fdiv_within A a m e :
    within A a = true -> is_fin A = true -> 0 < m ->
    within (fdiv f A (Fin m e)) (fdiv f a (Fin m e)) = true.
  Proof.
    intros Ha FA Hm.
    destruct (within_Fin A a Ha FA) as (mA & eA & m1 & e1 & -> & -> & H1).
    destruct (fdiv_Fin f mA eA m e ltac:(lia)) as (n & d & e' & -> & Hd & V1).
    destruct (fdiv_Fin f m1 e1 m e ltac:(lia)) as (n' & d' & e'' & -> & Hd' & V2).
    apply round_within; auto. rewrite V1, V2.
    assert (0 < / F2R m e)%R.
    { apply Rinv_0_lt_compat. unfold F2R. apply Rmult_lt_0_compat; [apply IZR_lt; auto | apply bpow_pos]. }
    unfold Rdiv. split; nra.
  Qed.

Lemma cvt_within A a :
    within A a = true -> is_fin A = true -> within (cvt f A) (cvt f a) = true.
  Proof.
    intros Ha FA.
    destruct (within_Fin A a Ha FA) as (mA & eA & m1 & e1 & -> & -> & H1).
    simpl. apply round_within; try lia. unfold F2R in H1. unfold Rdiv. rewrite Rinv_1, !Rmult_1_r. lra.
  Qed.
End Within.

Lemma flt_fle_trans x y z : flt x y = true -> fle y z = true -> flt x z = true.
Proof.
  destruct x as [|[]|m1 e1], y as [|[]|m2 e2], z as [|[]|m3 e3]; simpl; intros H1 H2;
    try discriminate; auto.
  apply flt_Fin in H1. apply fle_Fin in H2. apply flt_Fin. lra.
Qed.

Lemma fle_flt_trans x y z : fle x y = true -> flt y z = true -> flt x z = true.
Proof.
  destruct x as [|[]|m1 e1], y as [|[]|m2 e2], z as [|[]|m3 e3]; simpl; intros H1 H2;
    try discriminate; auto.
  apply fle_Fin in H1. apply flt_Fin in H2. apply flt_Fin. lra.
Qed.

Lemma cvt_representable f x :
  1 <= prec f -> is_fin x = true -> representable f (cvt f x) = true.
Proof.
  intros Hp Hx. destruct x as [| |m e]; try discriminate. simpl.
  destruct (round_spec f m 1 e Hp ltac:(lia)) as (r & _ & _ & R). exact R.
Qed.

Lemma Metric_samples_eq : sequence Metric_samples = Some f_vals.
Proof. vm_cast_no_check (eq_refl (Some f_vals)). Qed.

Lemma array_set_app {A : Type} (p : list A) z rest x :
  array_set (p ++ z :: rest) (length p) x = Some (p ++ x :: rest).
Proof. induction p as [|h p IH]; simpl; auto. rewrite IH. reflexivity. Qed.

Section Structure.
  Context {T : Type} (A : arith T).
  Variable kPoints : nat.
  Variables kLower kUpper : T.
  Variable density : T -> option T.

Let kDelta := Confidence.kDelta A kPoints kLower kUpper.
Let point (i : nat) := add A kLower (mul A kDelta (of_Z A (Z.of_nat i))).
Let step := Confidence.cdf_step A kPoints kLower kUpper density.

Lemma fold_cdf_step_None l : fold_left step l None = None.
  Proof. induction l; simpl; auto. Qed.

Lemma cdf_step_Some v sum i :
    step (Some (v, sum)) i =
    match density (point i) with
    | None => None
    | Some f_i =>
      match array_set v i (mul A kDelta (add A sum (div A f_i (of_Z A 2)))) with
      | None => None
      | Some v => Some (v, add A sum f_i)
      end
    end.
  Proof. reflexivity. Qed.

Lemma fold_cdf_step m : forall k p sum,
    length p = k ->
    fold_left step (seq k m) (Some (p ++ repeat (of_Z A 0) m, sum)) =
    match sequence (map (fun i => density (point i)) (seq k m)) with
    | None => None
    | Some fs => Some (p ++ running_sum A kDelta sum fs, fold_left (add A) fs sum)
    end.
  Proof.
    induction m as [|m IH]; intros k p sum Hk.
    - reflexivity.
    - change (seq k (S m)) with (k :: seq (S k) m).
      change (repeat (of_Z A 0) (S m)) with (of_Z A 0 :: repeat (of_Z A 0) m).
      cbn [fold_left map sequence]. rewrite cdf_step_Some.
      destruct (density (point k)) as [f_i|]; [|apply fold_cdf_step_None].
      rewrite <- Hk, array_set_app.
      replace (p ++ mul A kDelta (add A sum (div A f_i (of_Z A 2))) :: repeat (of_Z A 0) m)
        with ((p ++ [mul A kDelta (add A sum (div A f_i (of_Z A 2)))]) ++ repeat (of_Z A 0) m)
        by (rewrite <- app_assoc; reflexivity).
      rewrite IH by (rewrite length_app; simpl; lia).
      destruct (sequence (map (fun i => density (point i)) (seq (S (length p)) m))); simpl; auto.
      rewrite <- app_assoc. reflexivity.
  Qed.

Lemma cdf_of_samples :
    Confidence.cdf_ A kPoints kLower kUpper density =
    option_map (table_of_samples A kDelta)
      (sequence (map density (sample_points A kPoints kLower kDelta))).
  Proof.
    unfold Confidence.cdf_, sample_points.
    cbn [array_set repeat map sequence].
    destruct (density kLower) as [f_0|]; [|reflexivity].
    change (of_Z A 0 :: repeat (of_Z A 0) kPoints) with ([of_Z A 0] ++ repeat (of_Z A 0) kPoints).
    change (Confidence.cdf_step A kPoints kLower kUpper density) with step.
    change (Confidence.kDelta A kPoints kLower kUpper) with kDelta.
    rewrite fold_cdf_step by reflexivity. rewrite map_map.
    change (fun x : nat => density (add A kLower (mul A kDelta (of_Z A (Z.of_nat x)))))
      with (fun i : nat => density (point i)).
    destruct (sequence (map (fun i => density (point i)) (seq 1 kPoints))); reflexivity.
  Qed.
End Structure.

Lemma Metric_cdf_eq : Metric.cdf_ = Some cdf_values.
Proof.
  unfold Metric.cdf_. rewrite cdf_of_samples.
  change (sequence (map Metric.density _)) with (sequence Metric_samples).
  rewrite Metric_samples_eq. vm_compute. reflexivity.
Qed.

Global Opaque Metric.cdf_.

Section Chain.
  Context {A : Type} (R : A -> A -> bool).
  Hypothesis R_trans : forall a b c, R a b = true -> R b c = true -> R a c = true.

Lemma chain_head a l :
    chain R (a :: l) = true -> forall k b, nth_error l k = Some b -> R a b = true.
  Proof.
    revert a. induction l as [|h t IH]; intros a H k b Hk.
    - destruct k; discriminate.
    - simpl in H. apply andb_prop in H. destruct H as [H1 H2].
      destruct k; simpl in Hk.
      + injection Hk as <-. auto.
      + apply R_trans with h; auto. apply (IH h H2 k); auto.
  Qed.

Lemma chain_tail a l : chain R (a :: l) = true -> chain R l = true.
  Proof. destruct l; simpl; auto. intros H. apply andb_prop in H. tauto. Qed.

Lemma chain_nth l : chain R l = true ->
    forall i j a b, (i < j)%nat -> nth_error l i = Some a -> nth_error l j = Some b ->
    R a b = true.
  Proof.
    induction l as [|h t IH]; intros H i j a b Hij Hi Hj.
    - destruct i; discriminate.
    - destruct j; [lia|]. destruct i; simpl in Hi, Hj.
      + injection Hi as <-. apply (chain_head h t H j); auto.
      + apply (IH (chain_tail _ _ H) i j); auto. lia.
  Qed.
End Chain.

(** ** the bucket index *)
Lemma kDelta_value : Metric.kDelta = Fin 8576191 (-38).
Proof. vm_compute. reflexivity. Qed.

Lemma bucket_mono x1 x2 i1 i2 :
  is_fin x1 = true -> is_fin x2 = true -> fle x1 x2 = true ->
  bucket x1 = Some i1 -> bucket x2 = Some i2 -> i1 <= i2.
Proof.
  intros F1 F2 H B1 B2. unfold bucket in *.
  apply (to_int_mono ((x1 - Limits.kLower) / Metric.kDelta)%fp
                     ((x2 - Limits.kLower) / Metric.kDelta)%fp); auto.
  assert (S : fle (x1 - Limits.kLower)%fp (x2 - Limits.kLower)%fp = true).
  { apply fsub_mono; auto. vm_compute; discriminate. }
  rewrite kDelta_value in *.
  destruct (x1 - Limits.kLower)%fp as [| |ma ea] eqn:Ea; try discriminate.
  destruct (x2 - Limits.kLower)%fp as [| |mb eb] eqn:Eb; try discriminate.
  apply fdiv_mono; auto. vm_compute; discriminate. lia.
Qed.

Lemma bucket_between lo x hi a b :
  is_fin lo = true -> is_fin hi = true ->
  fle lo x = true -> fle x hi = true -> bucket lo = Some a -> bucket hi = Some b ->
  exists i, bucket x = Some i /\ a <= i <= b.
Proof.
  intros Flo Fhi H1 H2 Ba Bb. unfold bucket in *.
  assert (Fx : is_fin x = true) by (apply (fle_between_fin lo x hi); auto).
  assert (S1 : fle (lo - Limits.kLower)%fp (x - Limits.kLower)%fp = true).
  { apply fsub_mono; auto. vm_compute; discriminate. }
  assert (S2 : fle (x - Limits.kLower)%fp (hi - Limits.kLower)%fp = true).
  { apply fsub_mono; auto. vm_compute; discriminate. }
  rewrite kDelta_value in *.
  destruct (lo - Limits.kLower)%fp as [| |ma ea] eqn:Ea; try discriminate.
  destruct (hi - Limits.kLower)%fp as [| |mb eb] eqn:Eb; try discriminate.
  assert (Fs : is_fin (x - Limits.kLower)%fp = true).
  { apply (fle_between_fin (Fin ma ea) _ (Fin mb eb)); auto. }
  apply (to_int_between (Fin ma ea / Fin 8576191 (-38))%fp _ (Fin mb eb / Fin 8576191 (-38))%fp); auto.
  - apply fdiv_mono; auto. vm_compute; discriminate. lia.
  - apply fdiv_mono; auto. vm_compute; discriminate. lia.
Qed.

Lemma in_range_fin x :
  flt Limits.kLower x = true -> flt x Limits.kUpper = true -> is_fin x = true.
Proof.
  intros H1 H2. apply flt_fle in H1, H2.
  apply (fle_between_fin Limits.kLower x Limits.kUpper); auto.
Qed.

Lemma bucket_in_range x :
  flt Limits.kLower x = true -> flt x Limits.kUpper = true ->
  exists i, bucket x = Some i /\ 0 <= i <= 10000.
Proof.
  intros H1 H2. apply flt_fle in H1, H2.
  apply (bucket_between Limits.kLower x Limits.kUpper); auto.
Qed.

Lemma cdf_values_length : length cdf_values = Z.to_nat 10001.
Proof. vm_compute. reflexivity. Qed.

Lemma g_values_nth i c :
  nth_error cdf_values i = Some c -> nth_error g_values i = Some (confidence_of c).
Proof.
  intros H. change g_values with (map confidence_of cdf_values).
  rewrite nth_error_map, H. reflexivity.
Qed.

Ltac F2R_bound :=
  unfold F2R, bpow, powerRZ; simpl;
  first [ apply Rabs_def1; lra | lra ].

Lemma evaluate_eq x :
  Metric.evaluate x =
  Confidence.evaluate Metric.kPoints Limits.kLower Limits.kUpper (Some cdf_values) x.
Proof. unfold Metric.evaluate. rewrite Metric_cdf_eq. reflexivity. Qed.

Lemma evaluate_outside x :
  ((x <= Limits.kLower) || (x >= Limits.kUpper))%fp = true ->
  Metric.evaluate x = Some (float_of_int 0).
Proof. intros H. rewrite evaluate_eq. unfold Confidence.evaluate. rewrite H. reflexivity. Qed.

Lemma evaluate_inside x i c :
  ((x <= Limits.kLower) || (x >= Limits.kUpper))%fp = false ->
  bucket x = Some i -> 0 <= i -> nth_error cdf_values (Z.to_nat i) = Some c ->
  Metric.evaluate x = Some (confidence_of c).
Proof.
  intros H B Hi Hc. rewrite evaluate_eq. unfold Confidence.evaluate. rewrite H.
  change (to_int _) with (bucket x). rewrite B.
  destruct (Z.ltb_spec i 0); [lia|]. rewrite Hc. reflexivity.
Qed.

Lemma inside_range x :
  is_nan x = false ->
  ((x <= Limits.kLower) || (x >= Limits.kUpper))%fp = false ->
  flt Limits.kLower x = true /\ flt x Limits.kUpper = true.
Proof.
  intros Hn H. apply orb_false_elim in H. destruct H as [H1 H2]. unfold fge in H2.
  split; apply fle_false_flt; auto.
Qed.

Lemma range_inside x :
  flt Limits.kLower x = true -> flt x Limits.kUpper = true ->
  ((x <= Limits.kLower) || (x >= Limits.kUpper))%fp = false.
Proof.
  intros H1 H2. apply flt_not_fle in H1, H2. unfold fge. rewrite H1, H2. reflexivity.
Qed.

Lemma cdf_values_nth i :
  0 <= i <= 10000 -> exists c, nth_error cdf_values (Z.to_nat i) = Some c.
Proof.
  intros Hi. destruct (nth_error cdf_values (Z.to_nat i)) eqn:E; eauto.
  apply nth_error_None in E. rewrite cdf_values_length in E. lia.
Qed.

Lemma evaluate_in_range x :
  flt Limits.kLower x = true -> flt x Limits.kUpper = true ->
  exists i c, bucket x = Some i /\ 0 <= i <= 10000 /\
    nth_error cdf_values (Z.to_nat i) = Some c /\
    Metric.evaluate x = Some (confidence_of c).
Proof.
  intros H1 H2. destruct (bucket_in_range x H1 H2) as (i & B & Hi).
  destruct (cdf_values_nth i Hi) as (c & Hc).
  exists i, c. repeat split; auto; try lia.
  apply (evaluate_inside x i c); auto; try lia. apply range_inside; auto.
Qed.

(** C10.  For every x strictly between kLower and kUpper the conversion
    int((x - kLower) / kDelta) is defined, the index i it yields satisfies
    0 <= i <= kPoints, and the table, of kPoints + 1 entries, has an entry
    at i: evaluate never reads out of bounds. *)
Theorem bucket_index_in_bounds x :
  (Limits.kLower < x)%fp = true -> (x < Limits.kUpper)%fp = true ->
  exists i v c,
    to_int ((x - Limits.kLower) / Metric.kDelta)%fp = Some i /\
    0 <= i <= Z.of_nat Metric.kPoints /\
    Metric.cdf_ = Some v /\ length v = S Metric.kPoints /\
    nth_error v (Z.to_nat i) = Some c.
Proof.
  intros H1 H2. destruct (evaluate_in_range x H1 H2) as (i & c & B & Hi & Hc & _).
  exists i, cdf_values, c.
  split; [exact B|]. split; [unfold Metric.kPoints; lia|].
  split; [exact Metric_cdf_eq|]. split; [exact cdf_values_length | exact Hc].
Qed.

Lemma bucket_index_in_bounds_witness :
  (Limits.kLower < NormalDistributionParams.kMean)%fp = true /\
  (NormalDistributionParams.kMean < Limits.kUpper)%fp = true /\
  exists i v c,
    to_int ((NormalDistributionParams.kMean - Limits.kLower) / Metric.kDelta)%fp = Some i /\
    0 <= i <= Z.of_nat Metric.kPoints /\
    Metric.cdf_ = Some v /\ length v = S Metric.kPoints /\
    nth_error v (Z.to_nat i) = Some c.
Proof.
  split; [reflexivity|]. split; [reflexivity|].
  apply (bucket_index_in_bounds NormalDistributionParams.kMean); reflexivity.
Defined.

Lemma ffloor_to_int q i :
  fle (float_of_int 0) q = true -> to_int q = Some i -> ffloor q = Some i.
Proof.
  destruct q as [| |m e]; try discriminate. intros H0 H.
  change (float_of_int 0) with (Fin 0 0) in H0. apply fle_Fin in H0. rewrite F2R_0 in H0.
  assert (Hm : 0 <= m).
  { apply le_IZR. unfold F2R in H0. pose proof (bpow_pos e). nra. }
  rewrite to_int_Fin in H. destruct (andb _ _) in H; [|discriminate]. injection H as <-.
  unfold ffloor, trunc. destruct (Z.leb_spec 0 e); auto.
  rewrite Z.quot_div_nonneg; auto.
  rewrite Z.shiftl_mul_pow2, Z.mul_1_l by lia. apply Z.pow_pos_nonneg; lia.
Qed.

Lemma quotient_nonneg x :
  flt Limits.kLower x = true -> flt x Limits.kUpper = true ->
  fle (float_of_int 0) ((x - Limits.kLower) / Metric.kDelta)%fp = true.
Proof.
  intros H1 H2. pose proof (in_range_fin x H1 H2) as Fx. apply flt_fle in H1, H2.
  assert (P : 1 <= prec binary32) by (vm_compute; discriminate).
  assert (S1 : fle (Limits.kLower - Limits.kLower)%fp (x - Limits.kLower)%fp = true)
    by (apply fsub_mono; auto).
  assert (S2 : fle (x - Limits.kLower)%fp (Limits.kUpper - Limits.kLower)%fp = true)
    by (apply fsub_mono; auto).
  assert (Fs : is_fin (x - Limits.kLower)%fp = true)
    by (apply (fle_between_fin _ _ _ S1 S2); reflexivity).
  rewrite kDelta_value.
  change (float_of_int 0) with ((Limits.kLower - Limits.kLower) / Fin 8576191 (-38))%fp.
  apply fdiv_mono; auto. lia.
Qed.

(** C1.  For every float x that is a number (the core is handed a valid
    float; a NaN is not one): when x <= kLower or x >= kUpper, evaluate
    returns 0, and so it does at kLower and at kUpper.  Otherwise the
    quotient q = (x - kLower) / kDelta is non-negative, its conversion to int
    is its floor i, the table has an entry c at i, and evaluate returns
    2 * min (c, 1 - c). *)
Theorem evaluate_spec x :
  is_nan x = false ->
  (((x <= Limits.kLower) || (x >= Limits.kUpper))%fp = true ->
     Metric.evaluate x = Some (float_of_int 0)) /\
  (((x <= Limits.kLower) || (x >= Limits.kUpper))%fp = false ->
     exists q i v c,
       q = ((x - Limits.kLower) / Metric.kDelta)%fp /\
       fle (float_of_int 0) q = true /\ ffloor q = Some i /\
       Metric.cdf_ = Some v /\ nth_error v (Z.to_nat i) = Some c /\
       Metric.evaluate x =
         Some (float_of_int 2 * std_min c (float_of_int 1 - c))%fp) /\
  Metric.evaluate Limits.kLower = Some (float_of_int 0) /\
  Metric.evaluate Limits.kUpper = Some (float_of_int 0).
Proof.
  intros Hn. split; [apply evaluate_outside|]. split.
  - intros H. destruct (inside_range x Hn H) as [H1 H2].
    destruct (evaluate_in_range x H1 H2) as (i & c & B & Hi & Hc & E).
    exists ((x - Limits.kLower) / Metric.kDelta)%fp, i, cdf_values, c.
    pose proof (quotient_nonneg x H1 H2) as Q.
    split; [reflexivity|]. split; [exact Q|].
    split; [apply ffloor_to_int; [exact Q | exact B]|].
    split; [exact Metric_cdf_eq|]. split; [exact Hc | exact E].
  - split; apply evaluate_outside; reflexivity.
Qed.

Lemma evaluate_spec_witness :
  ((NormalDistributionParams.kMean <= Limits.kLower)
   || (NormalDistributionParams.kMean >= Limits.kUpper))%fp = false /\
  exists q i v c,
    q = ((NormalDistributionParams.kMean - Limits.kLower) / Metric.kDelta)%fp /\
    fle (float_of_int 0) q = true /\ ffloor q = Some i /\
    Metric.cdf_ = Some v /\ nth_error v (Z.to_nat i) = Some c /\
    Metric.evaluate NormalDistributionParams.kMean =
      Some (float_of_int 2 * std_min c (float_of_int 1 - c))%fp.
Proof.
  split; [reflexivity|].
  exact (proj1 (proj2 (evaluate_spec NormalDistributionParams.kMean eq_refl)) eq_refl).
Defined.

(** A NaN is outside this contract: both range tests fail for it, and the
    conversion of the NaN quotient to int is undefined, so there is no value
    to speak of. *)
Lemma evaluate_NaN : Metric.evaluate NaN = None.
Proof. rewrite evaluate_eq. reflexivity. Qed.

Lemma g_values_unit : forallb unit_interval g_values = true.
Proof. vm_compute. reflexivity. Qed.

Lemma confidence_unit i c :
  nth_error cdf_values i = Some c -> unit_interval (confidence_of c) = true.
Proof.
  intros H. apply g_values_nth in H. apply nth_error_In in H.
  pose proof g_values_unit as G. rewrite forallb_forall in G. auto.
Qed.

(** C5.  For every float x that is a number (the core is handed a valid
    float; a NaN is not one), evaluate returns a finite float y with
    0 <= y <= 1, with no overshoot. *)
Theorem evaluate_unit_interval x :
  is_nan x = false ->
  exists y, Metric.evaluate x = Some y /\ is_fin y = true /\
            (float_of_int 0 <= y)%fp = true /\ (y <= float_of_int 1)%fp = true.
Proof.
  intros Hn.
  destruct (((x <= Limits.kLower) || (x >= Limits.kUpper))%fp) eqn:E.
  - exists (float_of_int 0). split; [apply evaluate_outside; auto|]. repeat split.
  - destruct (inside_range x Hn E) as [H1 H2].
    destruct (evaluate_in_range x H1 H2) as (i & c & B & Hi & Hc & Ev).
    exists (confidence_of c). split; auto.
    pose proof (confidence_unit _ _ Hc) as U. unfold unit_interval in U.
    apply andb_prop in U. destruct U as [U U3]. apply andb_prop in U. destruct U as [U1 U2].
    auto.
Qed.

Lemma evaluate_unit_interval_witness :
  (Limits.kLower < Fin 1 (-4))%fp = true /\ (Fin 1 (-4) < Limits.kUpper)%fp = true /\
  exists y, Metric.evaluate (Fin 1 (-4)) = Some y /\ is_fin y = true /\
            (float_of_int 0 <= y)%fp = true /\ (y <= float_of_int 1)%fp = true.
Proof.
  split; [reflexivity|]. split; [reflexivity|].
  exact (evaluate_unit_interval (Fin 1 (-4)) eq_refl).
Defined.

(** ** monotonicity on each side of the mean *)
Lemma bucket_mean : bucket NormalDistributionParams.kMean = Some 5000.
Proof. vm_compute. reflexivity. Qed.

Lemma g_values_rising : chain fle (firstn (Z.to_nat 5001) g_values) = true.
Proof. vm_compute. reflexivity. Qed.

Lemma g_values_falling : chain fge (skipn (Z.to_nat 5000) g_values) = true.
Proof. vm_compute. reflexivity. Qed.

Lemma fge_trans a b c : fge a b = true -> fge b c = true -> fge a c = true.
Proof. unfold fge. intros. eapply fle_trans; eauto. Qed.

Lemma unit_not_nan c : unit_interval c = true -> is_nan c = false.
Proof. destruct c; simpl; auto; discriminate. Qed.

Lemma confidence_falling i j ci cj :
  5000 <= i <= j ->
  nth_error cdf_values (Z.to_nat i) = Some ci -> nth_error cdf_values (Z.to_nat j) = Some cj ->
  fle (confidence_of cj) (confidence_of ci) = true.
Proof.
  intros Hij Hi Hj.
  destruct (Z.eq_dec i j) as [->|Hne].
  - rewrite Hi in Hj. injection Hj as <-. apply fle_refl.
    apply unit_not_nan. apply (confidence_unit _ _ Hi).
  - apply g_values_nth in Hi, Hj.
    change (fge (confidence_of ci) (confidence_of cj) = true).
    apply (chain_nth fge fge_trans _ g_values_falling
             (Z.to_nat (i - 5000)) (Z.to_nat (j - 5000))); try lia.
    + rewrite nth_error_skipn. replace (Z.to_nat 5000 + Z.to_nat (i - 5000))%nat with (Z.to_nat i) by lia. auto.
    + rewrite nth_error_skipn. replace (Z.to_nat 5000 + Z.to_nat (j - 5000))%nat with (Z.to_nat j) by lia. auto.
Qed.

Lemma confidence_rising i j ci cj :
  0 <= i <= j -> j <= 5000 ->
  nth_error cdf_values (Z.to_nat i) = Some ci -> nth_error cdf_values (Z.to_nat j) = Some cj ->
  fle (confidence_of ci) (confidence_of cj) = true.
Proof.
  intros Hij Hj5 Hi Hj.
  destruct (Z.eq_dec i j) as [->|Hne].
  - rewrite Hi in Hj. injection Hj as <-. apply fle_refl.
    apply unit_not_nan. apply (confidence_unit _ _ Hi).
  - apply g_values_nth in Hi, Hj.
    apply (chain_nth fle fle_trans _ g_values_rising (Z.to_nat i) (Z.to_nat j)); try lia.
    + rewrite nth_error_firstn. destruct (Nat.ltb_spec (Z.to_nat i) (Z.to_nat 5001)); auto. lia.
    + rewrite nth_error_firstn. destruct (Nat.ltb_spec (Z.to_nat j) (Z.to_nat 5001)); auto. lia.
Qed.

(** C6.  For x1 < x2, both strictly between kLower and kUpper: when
    x1 >= kMean, evaluate x1 >= evaluate x2; when x2 <= kMean,
    evaluate x1 <= evaluate x2. *)
Theorem evaluate_monotone x1 x2 :
  (Limits.kLower < x1)%fp = true -> (x1 < Limits.kUpper)%fp = true ->
  (Limits.kLower < x2)%fp = true -> (x2 < Limits.kUpper)%fp = true ->
  (x1 < x2)%fp = true ->
  exists y1 y2, Metric.evaluate x1 = Some y1 /\ Metric.evaluate x2 = Some y2 /\
    ((x1 >= NormalDistributionParams.kMean)%fp = true -> (y1 >= y2)%fp = true) /\
    ((x2 <= NormalDistributionParams.kMean)%fp = true -> (y1 <= y2)%fp = true).
Proof.
  intros L1 U1 L2 U2 H12.
  destruct (evaluate_in_range x1 L1 U1) as (i1 & c1 & B1 & Hi1 & Hc1 & E1).
  destruct (evaluate_in_range x2 L2 U2) as (i2 & c2 & B2 & Hi2 & Hc2 & E2).
  pose proof (in_range_fin x1 L1 U1) as F1. pose proof (in_range_fin x2 L2 U2) as F2.
  assert (H : i1 <= i2) by (apply (bucket_mono x1 x2); auto; apply flt_fle; auto).
  exists (confidence_of c1), (confidence_of c2). repeat split; auto.
  - intros Hm. unfold fge in *.
    assert (5000 <= i1).
    { exact (bucket_mono NormalDistributionParams.kMean x1 5000 i1 eq_refl F1 Hm bucket_mean B1). }
    apply (confidence_falling i1 i2); auto; lia.
  - intros Hm.
    assert (i2 <= 5000).
    { exact (bucket_mono x2 NormalDistributionParams.kMean i2 5000 F2 eq_refl Hm B2 bucket_mean). }
    apply (confidence_rising i1 i2); auto; lia.
Qed.

Lemma evaluate_monotone_witness :
  exists y1 y2,
    Metric.evaluate (Fin 1 (-4)) = Some y1 /\ Metric.evaluate (Fin 1 (-3)) = Some y2 /\
    ((Fin 1 (-4) >= NormalDistributionParams.kMean)%fp = true -> (y1 >= y2)%fp = true) /\
    ((Fin 1 (-3) <= NormalDistributionParams.kMean)%fp = true -> (y1 <= y2)%fp = true).
Proof.
  apply (evaluate_monotone (Fin 1 (-4)) (Fin 1 (-3))); reflexivity.
Defined.

(** C2.  In the reference configuration evaluate kMean is a finite float
    that differs from 1 by strictly less than 0.001, and the static
    assertion of the source, test_equal (evaluate kMean, 1.0), holds. *)
Theorem evaluate_mean :
  exists m e, Metric.evaluate NormalDistributionParams.kMean = Some (Fin m e) /\
    (Rabs (F2R m e - 1) < 1 / 1000)%R /\
    tests.static_assert_1 = Some true.
Proof.
  exists 16777204, (-24). split; [|split].
  - rewrite evaluate_eq. vm_compute. reflexivity.
  - F2R_bound.
  - unfold tests.static_assert_1. rewrite evaluate_eq. vm_compute. reflexivity.
Qed.

Lemma cdf_values_sorted : chain fle cdf_values = true.
Proof. vm_compute. reflexivity. Qed.

(** C4.  The table of the reference configuration has kPoints + 1 entries;
    its entry 0 is 0; each entry is at most the next one; and its last
    entry is within 0.01 of 1. *)

Theorem cdf_invariants :
  exists v, Metric.cdf_ = Some v /\ length v = S Metric.kPoints /\
    nth_error v 0 = Some (float_of_int 0) /\
    (forall i a b, (i < Metric.kPoints)%nat ->
       nth_error v i = Some a -> nth_error v (S i) = Some b -> (a <= b)%fp = true) /\
    exists m e, nth_error v Metric.kPoints = Some (Fin m e) /\
                (Rabs (F2R m e - 1) < 1 / 100)%R.
Proof.
  exists cdf_values. split; [exact Metric_cdf_eq|]. split; [exact cdf_values_length|].
  split; [reflexivity|]. split.
  - intros i a b Hi Ha Hb.
    apply (chain_nth fle fle_trans _ cdf_values_sorted i (S i)); auto.
  - exists 16777146, (-24). split; [vm_compute; reflexivity | F2R_bound].
Qed.

Lemma sequence_Some {A B : Type} (f : A -> B) (l : list A) :
  sequence (map (fun x => Some (f x)) l) = Some (map f l).
Proof. induction l as [|a l IH]; simpl; auto. rewrite IH. reflexivity. Qed.

Lemma running_is_trapezoid (kDelta : R) (fs : list R) : forall sum acc prev,
  (kDelta * sum = acc + kDelta * prev / 2)%R ->
  running_sum real_arith kDelta sum fs = trapezoid_table real_arith kDelta acc prev fs.
Proof.
  induction fs as [|f t IH]; intros sum acc prev H; simpl; auto.
  f_equal.
  - replace (kDelta * (sum + f / 2))%R with (kDelta * sum + kDelta * f / 2)%R by field.
    rewrite H. field.
  - apply IH.
    replace (kDelta * (sum + f))%R with (kDelta * sum + kDelta * f)%R by ring.
    rewrite H. field.
Qed.

(** C3 (amended to exact real arithmetic).  For every resolution, every
    pair of limits and every density, the table built by the running-sum
    recurrence over the real numbers is, entry for entry, the cumulative
    trapezoidal sum: entry 0 is 0 and entry i is the sum over j = 1..i of
    delta * (f (j-1) + f j) / 2. *)
Theorem recurrence_is_cumulative_trapezoid
  (kPoints : nat) (kLower kUpper : R) (density : R -> R) :
  Confidence.cdf_ real_arith kPoints kLower kUpper (fun x => Some (density x)) =
  Some (cumulative_trapezoid real_arith
          (Confidence.kDelta real_arith kPoints kLower kUpper)
          (map density
             (sample_points real_arith kPoints kLower
                (Confidence.kDelta real_arith kPoints kLower kUpper)))).
Proof.
  rewrite cdf_of_samples.
  generalize (Confidence.kDelta real_arith kPoints kLower kUpper). intros delta.
  rewrite (sequence_Some density). unfold option_map. f_equal.
  unfold sample_points. simpl map. unfold table_of_samples, cumulative_trapezoid.
  f_equal. apply running_is_trapezoid. simpl. field.
Qed.

(** Counterexample to C3 as stated: in binary32, with the reference
    configuration, entry 7 of the table of the source differs in its last
    bit from entry 7 of the cumulative trapezoidal sum. *)
Lemma recurrence_differs_in_binary32 :
  Metric.cdf_ = Some cdf_values /\
  trapezoid_values = cumulative_trapezoid float_arith Metric.kDelta f_vals /\
  sequence (map Metric.density
              (sample_points float_arith Metric.kPoints Limits.kLower Metric.kDelta)) = Some f_vals /\
  nth_error cdf_values 7 = Some (Fin 15087441 (-58)) /\
  nth_error trapezoid_values 7 = Some (Fin 15087440 (-58)).
Proof.
  split; [exact Metric_cdf_eq|]. split; [vm_compute; reflexivity|].
  split; [exact Metric_samples_eq|]. split; reflexivity.
Qed.

Lemma trapezoid_close :
  forallb2 (close (Fin 1 (-19))) cdf_values trapezoid_values = true.
Proof. vm_compute. reflexivity. Qed.

(** ** the lookup tree *)
Lemma tree_of_list_below l : forall i t k,
  (k < i)%positive ->
  PositiveMap.find k (tree_of_list i l t) = PositiveMap.find k t.
Proof.
  induction l as [|x l IH]; intros i t k Hk; simpl; auto.
  rewrite IH by lia. apply PositiveMap.gso. lia.
Qed.

Lemma tree_of_list_nth l : forall i t n x,
  nth_error l n = Some x ->
  PositiveMap.find (Z.to_pos (Z.pos i + Z.of_nat n)) (tree_of_list i l t) = Some x.
Proof.
  induction l as [|a l IH]; intros i t n x Hn.
  - destruct n; discriminate.
  - destruct n as [|n]; simpl in Hn.
    + injection Hn as <-. simpl tree_of_list.
      replace (Z.to_pos (Z.pos i + Z.of_nat 0)) with i by lia.
      rewrite tree_of_list_below by lia. apply PositiveMap.gss.
    + simpl tree_of_list.
      replace (Z.to_pos (Z.pos i + Z.of_nat (S n)))
        with (Z.to_pos (Z.pos (Pos.succ i) + Z.of_nat n)) by lia.
      apply IH. exact Hn.
Qed.

Lemma g_at_nth i y :
  0 <= i -> nth_error g_values (Z.to_nat i) = Some y -> g_at i = Some y.
Proof.
  intros Hi H. unfold g_at. destruct (Z.ltb_spec i 0); [lia|].
  change g_tree with (tree_of_list 1 g_values (PositiveMap.empty fp)).
  replace (i + 1) with (Z.pos 1 + Z.of_nat (Z.to_nat i)) by lia.
  apply tree_of_list_nth. exact H.
Qed.

Lemma idx_range_In a b i : a <= i <= b -> In i (idx_range a b).
Proof.
  intros H. unfold idx_range. apply in_map_iff. exists (Z.to_nat (i - a)).
  split; [lia|]. apply in_seq. lia.
Qed.

(** ** min, max and clamping *)
Lemma flt_false_fle a b :
  is_nan a = false -> is_nan b = false -> flt a b = false -> fle b a = true.
Proof.
  intros Ha Hb H. destruct (fle b a) eqn:E; auto.
  rewrite (fle_false_flt b a Hb Ha E) in H. discriminate.
Qed.

Lemma fmaxf_lub a b x : fle a x = true -> fle b x = true -> fle (fmaxf a b) x = true.
Proof. unfold fmaxf. destruct (flt a b); auto. Qed.

Lemma fminf_glb a b x : fle x a = true -> fle x b = true -> fle x (fminf a b) = true.
Proof. unfold fminf. destruct (flt b a); auto. Qed.

Lemma fle_fmaxf_l a b : is_nan a = false -> fle a (fmaxf a b) = true.
Proof.
  intros Ha. unfold fmaxf. destruct (flt a b) eqn:E; [apply flt_fle; auto | apply fle_refl; auto].
Qed.

Lemma fle_fmaxf_r a b : is_nan a = false -> is_nan b = false -> fle b (fmaxf a b) = true.
Proof.
  intros Ha Hb. unfold fmaxf. destruct (flt a b) eqn:E; [apply fle_refl; auto|].
  apply flt_false_fle; auto.
Qed.

Lemma fminf_le_l a b : is_nan a = false -> is_nan b = false -> fle (fminf a b) a = true.
Proof.
  intros Ha Hb. unfold fminf. destruct (flt b a) eqn:E; [apply flt_fle; auto | apply fle_refl; auto].
Qed.

Lemma fminf_le_r a b : is_nan a = false -> is_nan b = false -> fle (fminf a b) b = true.
Proof.
  intros Ha Hb. unfold fminf. destruct (flt b a) eqn:E; [apply fle_refl; auto|].
  apply flt_false_fle; auto.
Qed.

Lemma fmaxf_not_nan a b : is_nan a = false -> is_nan b = false -> is_nan (fmaxf a b) = false.
Proof. unfold fmaxf. destruct (flt a b); auto. Qed.

Lemma fin_not_nan x : is_fin x = true -> is_nan x = false.
Proof. destruct x; simpl; auto; discriminate. Qed.

Lemma clamp_fin r : is_nan r = false -> is_fin (clamp r) = true.
Proof.
  intros Hr. unfold clamp.
  assert (N : is_nan (fmaxf r Limits.kLower) = false) by (apply fmaxf_not_nan; auto).
  apply (fle_between_fin Limits.kLower _ Limits.kUpper); auto.
  - apply fminf_glb; [apply fle_fmaxf_r; auto | reflexivity].
  - apply fminf_le_r; auto.
Qed.

Lemma clamp_below r x :
  is_nan r = false -> fle r x = true -> fle Limits.kLower x = true -> fle (clamp r) x = true.
Proof.
  intros Hr H1 H2. unfold clamp.
  apply fle_trans with (fmaxf r Limits.kLower).
  - apply fminf_le_l; auto. apply fmaxf_not_nan; auto.
  - apply fmaxf_lub; auto.
Qed.

Lemma clamp_above r x :
  is_nan r = false -> fle x r = true -> fle x Limits.kUpper = true -> fle x (clamp r) = true.
Proof.
  intros Hr H1 H2. unfold clamp. apply fminf_glb; auto.
  apply fle_trans with r; auto. apply fle_fmaxf_l; auto.
Qed.

(** ** closeness *)
Lemma exact_add_Fin m1 e1 m2 e2 :
  exists m e, exact_add (Fin m1 e1) (Fin m2 e2) = Fin m e /\
              F2R m e = (F2R m1 e1 + F2R m2 e2)%R.
Proof.
  unfold exact_add. destruct (Z.leb_spec e1 e2).
  - eexists _, _. split; [reflexivity|].
    rewrite <- (F2R_shift m2 e2 (e2 - e1)) by lia.
    replace (e2 - (e2 - e1)) with e1 by lia. unfold F2R. rewrite plus_IZR. ring.
  - eexists _, _. split; [reflexivity|].
    rewrite <- (F2R_shift m1 e1 (e1 - e2)) by lia.
    replace (e1 - (e1 - e2)) with e2 by lia. unfold F2R. rewrite plus_IZR. ring.
Qed.

Lemma close_sound mt et y y' :
  close (Fin mt et) y y' = true ->
  exists m e m' e', y = Fin m e /\ y' = Fin m' e' /\
    (Rabs (F2R m e - F2R m' e') <= F2R mt et)%R.
Proof.
  unfold close. intros H. apply andb_prop in H. destruct H as [H1 H2].
  destruct y as [| |m e]; [discriminate | destruct y'; discriminate |].
  destruct y' as [| |m' e']; try discriminate.
  destruct (exact_add_Fin m' e' mt et) as (a & ea & Ea & Va). rewrite Ea in H1.
  destruct (exact_add_Fin m e mt et) as (b & eb & Eb & Vb). rewrite Eb in H2.
  apply fle_Fin in H1, H2. rewrite Va in H1. rewrite Vb in H2.
  exists m, e, m', e'. repeat split; auto. apply Rabs_le. lra.
Qed.

(** ** one threshold interval *)
Lemma reflect_antitone a b :
  is_fin a = true -> is_fin b = true -> fle a b = true -> fle (reflect b) (reflect a) = true.
Proof. intros Fa Fb H. unfold reflect. apply fsub_mono; auto. simpl; lia. Qed.

Lemma check_pair_inv tol p q :
  check_pair tol p q = true ->
  is_fin (i_t p) = true /\ is_fin (i_t q) = true /\
  is_fin (i_refl p) = true /\ is_fin (i_refl q) = true /\
  exists a b a' b',
    i_bucket p = Some a /\ i_bucket q = Some b /\
    i_rbucket q = Some a' /\ i_rbucket p = Some b' /\
    forall y y',
      In (Some y) (map g_at (idx_range a b)) ->
      In (Some y')
         ((if (i_refl q <= Limits.kLower)%fp || (Limits.kUpper <= i_refl p)%fp
           then [Some (float_of_int 0)] else []) ++ map g_at (idx_range a' b')) ->
      close tol y y' = true.
Proof.
  unfold check_pair. intros H.
  apply andb_prop in H. destruct H as [H Hall].
  apply andb_prop in H. destruct H as [H Frhi].
  apply andb_prop in H. destruct H as [H Frlo].
  apply andb_prop in H. destruct H as [Flo Fhi].
  destruct (i_bucket p) as [a|]; [|discriminate].
  destruct (i_bucket q) as [b|]; [|discriminate].
  destruct (i_rbucket q) as [a'|]; [|discriminate].
  destruct (i_rbucket p) as [b'|]; [|discriminate].
  repeat (split; [assumption|]).
  exists a, b, a', b'. repeat (split; [reflexivity|]).
  intros y y' Hy Hy'. rewrite forallb_forall in Hall.
  specialize (Hall _ Hy). rewrite forallb_forall in Hall. exact (Hall _ Hy').
Qed.

Lemma interval_sound tol lo hi a b a' b' x :
  is_fin lo = true -> is_fin hi = true ->
  is_fin (reflect lo) = true -> is_fin (reflect hi) = true ->
  bucket lo = Some a -> bucket hi = Some b ->
  bucket (clamp (reflect hi)) = Some a' -> bucket (clamp (reflect lo)) = Some b' ->
  (forall y y',
      In (Some y) (map g_at (idx_range a b)) ->
      In (Some y')
         ((if (reflect hi <= Limits.kLower)%fp || (Limits.kUpper <= reflect lo)%fp
           then [Some (float_of_int 0)] else []) ++ map g_at (idx_range a' b')) ->
      close tol y y' = true) ->
  fle lo x = true -> fle x hi = true ->
  flt Limits.kLower x = true -> flt x Limits.kUpper = true ->
  exists y y', Metric.evaluate x = Some y /\ Metric.evaluate (reflect x) = Some y' /\
               close tol y y' = true.
Proof.
  intros Flo Fhi Frlo Frhi Ba Bb Ba' Bb' Hall Lx Hx Rl Ru.
  pose proof (in_range_fin x Rl Ru) as Fx.
  destruct (evaluate_in_range x Rl Ru) as (i & c & Bi & Hi & Hc & Ev).
  destruct (bucket_between lo x hi a b Flo Fhi Lx Hx Ba Bb) as (i0 & Bi0 & Hi0).
  assert (i0 = i) by congruence. subst i0.
  assert (Gi : g_at i = Some (confidence_of c)).
  { apply g_at_nth; [lia|]. apply g_values_nth. exact Hc. }
  assert (In1 : In (Some (confidence_of c)) (map g_at (idx_range a b))).
  { apply in_map_iff. exists i. split; auto. apply idx_range_In. lia. }
  assert (R1 : fle (reflect hi) (reflect x) = true) by (apply reflect_antitone; auto).
  assert (R2 : fle (reflect x) (reflect lo) = true) by (apply reflect_antitone; auto).
  assert (Fr : is_fin (reflect x) = true) by (apply (fle_between_fin _ _ _ R1 R2); auto).
  pose proof (fin_not_nan _ Fr) as Nr.
  destruct (((reflect x <= Limits.kLower) || (reflect x >= Limits.kUpper))%fp) eqn:Out.
  - exists (confidence_of c), (float_of_int 0).
    split; [exact Ev|]. split; [apply evaluate_outside; exact Out|].
    apply Hall; [exact In1|]. apply in_or_app. left.
    assert (Flag : ((reflect hi <= Limits.kLower)%fp || (Limits.kUpper <= reflect lo)%fp) = true).
    { apply orb_true_iff in Out. apply orb_true_iff. destruct Out as [O|O].
      - left. apply fle_trans with (reflect x); auto.
      - right. unfold fge in O. apply fle_trans with (reflect x); auto. }
    rewrite Flag. left. reflexivity.
  - destruct (inside_range _ Nr Out) as [Il Iu].
    destruct (evaluate_in_range _ Il Iu) as (i' & c' & Bi' & Hi' & Hc' & Ev').
    assert (C1 : is_fin (clamp (reflect hi)) = true) by (apply clamp_fin, fin_not_nan; auto).
    assert (C2 : is_fin (clamp (reflect lo)) = true) by (apply clamp_fin, fin_not_nan; auto).
    assert (C3 : fle (clamp (reflect hi)) (reflect x) = true).
    { apply clamp_below; auto. apply fin_not_nan; auto. apply flt_fle; auto. }
    assert (C4 : fle (reflect x) (clamp (reflect lo)) = true).
    { apply clamp_above; auto. apply fin_not_nan; auto. apply flt_fle; auto. }
    destruct (bucket_between _ _ _ a' b' C1 C2 C3 C4 Ba' Bb') as (i0 & Bi0' & Hi0').
    assert (i0 = i') by congruence. subst i0.
    exists (confidence_of c), (confidence_of c').
    split; [exact Ev|]. split; [exact Ev'|].
    apply Hall; [exact In1|]. apply in_or_app. right.
    apply in_map_iff. exists i'. split; [|apply idx_range_In; lia].
    apply g_at_nth; [lia|]. apply g_values_nth. exact Hc'.
Qed.

Lemma check_pair_sound tol lo hi x :
  check_pair tol (mk_info lo) (mk_info hi) = true ->
  fle lo x = true -> fle x hi = true ->
  flt Limits.kLower x = true -> flt x Limits.kUpper = true ->
  exists y y', Metric.evaluate x = Some y /\ Metric.evaluate (reflect x) = Some y' /\
               close tol y y' = true.
Proof.
  intros H. apply check_pair_inv in H.
  destruct H as (Flo & Fhi & Frlo & Frhi & a & b & a' & b' & Ba & Bb & Ba' & Bb' & Hall).
  exact (interval_sound tol lo hi a b a' b' x Flo Fhi Frlo Frhi Ba Bb Ba' Bb' Hall).
Qed.

(** ** covering the open interval by consecutive thresholds *)
Lemma pairs_cover x l : forall a,
  l <> [] -> is_nan x = false ->
  chain fle (a :: l) = true -> fle a x = true -> fle x (last l a) = true ->
  exists lo hi, In (lo, hi) (pairs (a :: l)) /\ fle lo x = true /\ fle x hi = true.
Proof.
  induction l as [|b rest IH]; intros a Hne Nx Hc Ha Hl; [congruence|].
  destruct (fle x b) eqn:E.
  - exists a, b. split; [left; reflexivity | auto].
  - assert (Nb : is_nan b = false).
    { simpl in Hc. apply andb_prop in Hc. destruct Hc as [Hc _].
      apply fle_not_nan in Hc. tauto. }
    assert (Hb : fle b x = true) by (apply flt_fle, fle_false_flt; auto).
    destruct rest as [|c rest'].
    + simpl in Hl. congruence.
    + assert (Hc' : chain fle (b :: c :: rest') = true) by (apply (chain_tail fle a); exact Hc).
      change (last (b :: c :: rest') a) with (last (c :: rest') a) in Hl.
      assert (Hl' : fle x (last (c :: rest') b) = true).
      { clear -Hl. revert Hl. generalize c. induction rest' as [|d t IHt]; intros c0 Hl; [exact Hl|].
        change (last (c0 :: d :: t) b) with (last (d :: t) b).
        change (last (c0 :: d :: t) a) with (last (d :: t) a) in Hl. apply IHt. exact Hl. }
      destruct (IH b ltac:(discriminate) Nx Hc' Hb Hl') as (lo & hi & Hin & H1 & H2).
      exists lo, hi. split; [right; exact Hin | auto].
Qed.

Lemma pairs_map {A B : Type} (f : A -> B) (l : list A) a b :
  In (a, b) (pairs l) -> In (f a, f b) (pairs (map f l)).
Proof.
  induction l as [|x [|y t] IH]; simpl; try tauto.
  intros [H|H].
  - injection H as <- <-. left. reflexivity.
  - right. apply IH. exact H.
Qed.

Lemma info_values_eq : info_values = map mk_info thresholds.
Proof. vm_compute. reflexivity. Qed.

Lemma all_pairs_checked :
  forallb (fun pq => check_pair tolerance (fst pq) (snd pq)) (pairs info_values) = true.
Proof. vm_compute. reflexivity. Qed.

Lemma thresholds_sorted : chain fle thresholds = true.
Proof. vm_compute. reflexivity. Qed.

Lemma thresholds_ends :
  exists l, l <> [] /\ thresholds = Limits.kLower :: l /\ last l Limits.kLower = Limits.kUpper.
Proof.
  exists (tl thresholds). split; [discriminate|]. split; vm_compute; reflexivity.
Qed.

(** C7.  For every x strictly between kLower and kUpper, evaluate x and
    evaluate (2 * kMean - x) are finite floats that differ by at most
    0.002. *)
Theorem evaluate_symmetric x :
  (Limits.kLower < x)%fp = true -> (x < Limits.kUpper)%fp = true ->
  exists m e m' e',
    Metric.evaluate x = Some (Fin m e) /\
    Metric.evaluate (float_of_int 2 * NormalDistributionParams.kMean - x)%fp = Some (Fin m' e') /\
    (Rabs (F2R m e - F2R m' e') <= 2 / 1000)%R.
Proof.
  intros Rl Ru.
  destruct thresholds_ends as (l & Hne & El & Hlast).
  pose proof thresholds_sorted as Hs. rewrite El in Hs.
  pose proof (in_range_fin x Rl Ru) as Fx.
  destruct (pairs_cover x l Limits.kLower Hne (fin_not_nan _ Fx) Hs) as (lo & hi & Hin & H1 & H2).
  - apply flt_fle; auto.
  - rewrite Hlast. apply flt_fle; auto.
  - rewrite <- El in Hin. apply (pairs_map mk_info) in Hin. rewrite <- info_values_eq in Hin.
    pose proof all_pairs_checked as Hall. rewrite forallb_forall in Hall.
    specialize (Hall _ Hin). cbn [fst snd] in Hall.
    destruct (check_pair_sound tolerance lo hi x Hall H1 H2 Rl Ru) as (y & y' & E1 & E2 & Hc).
    destruct (close_sound _ _ _ _ Hc) as (m & e & m' & e' & -> & -> & Hb).
    exists m, e, m', e'. split; [exact E1|]. split; [exact E2|].
    eapply Rle_trans; [exact Hb|]. unfold F2R, bpow, powerRZ. simpl. lra.
Qed.

Lemma evaluate_symmetric_witness :
  exists m e m' e',
    Metric.evaluate (Fin 1 (-4)) = Some (Fin m e) /\
    Metric.evaluate (float_of_int 2 * NormalDistributionParams.kMean - Fin 1 (-4))%fp
      = Some (Fin m' e') /\
    (Rabs (F2R m e - F2R m' e') <= 2 / 1000)%R.
Proof. apply (evaluate_symmetric (Fin 1 (-4))); reflexivity. Defined.

Lemma P32 : 1 <= prec binary32.
Proof. simpl; lia. Qed.

Lemma P64 : 1 <= prec binary64.
Proof. simpl; lia. Qed.

(** ** exponentiation by squaring *)
Lemma pow_loop_terminates k : forall p x n,
  n < 2 ^ Z.of_nat k ->
  exists s, forall fuel, (k < fuel)%nat -> while fuel pow_cond pow_body (p, x, n) = Some s.
Proof.
  induction k as [|k IH]; intros p x n Hn.
  - exists (p, x, n). intros fuel Hf. destruct fuel; [lia|].
    rewrite while_step. simpl pow_cond. destruct (Z.ltb_spec 0 n); [simpl in Hn; lia | reflexivity].
  - destruct (Z.ltb_spec 0 n) as [Hpos|Hneg].
    + destruct (IH (if Z.land n 1 =? 0 then p else (p * x)%fp) (x * x)%fp (Z.shiftr n 1))
        as (s & Hs).
      { rewrite Z.shiftr_div_pow2, Z.pow_1_r by lia.
        apply Z.div_lt_upper_bound; [lia|]. rewrite <- Z.pow_succ_r by lia.
        rewrite <- Nat2Z.inj_succ. exact Hn. }
      exists s. intros fuel Hf. destruct fuel; [lia|]. rewrite while_step.
      simpl pow_cond. destruct (Z.ltb_spec 0 n); [|lia]. apply Hs. lia.
    + exists (p, x, n). intros fuel Hf. destruct fuel; [lia|].
      rewrite while_step. simpl pow_cond. destruct (Z.ltb_spec 0 n); [lia | reflexivity].
Qed.

Lemma static_int_pow_total x n :
  n < 2 ^ 31 ->
  exists p, forall fuel, (32 <= fuel)%nat -> static_int_pow fuel x n = Some p.
Proof.
  intros Hn. destruct (pow_loop_terminates 31 (float_of_int 1) x n Hn) as ([[p x'] n'] & Hs).
  exists p. intros fuel Hf. unfold static_int_pow.
  change (while fuel _ _ _) with (while fuel pow_cond pow_body (float_of_int 1, x, n)).
  rewrite Hs by lia. reflexivity.
Qed.

(** ** the Taylor loop *)
Lemma term_bound_fin k :
  (k <= 10)%nat -> is_fin (term_bound k) = true /\
                   is_fin (float_of_int 1 / float_of_int (Z.of_nat (S k)))%fp = true.
Proof.
  intros Hk. do 11 (destruct k as [|k]; [split; vm_compute; reflexivity|]). lia.
Qed.

Lemma term_bound_small : fle (term_bound 10) kAccuracy = true.
Proof. vm_compute. reflexivity. Qed.

Lemma fdiv_zero f m e : 0 < m -> fdiv f (Fin 0 0) (Fin m e) = Fin 0 0.
Proof.
  intros Hm. unfold fdiv. destruct (Z.eqb_spec m 0); [lia|].
  destruct (Z.ltb_spec m 0); reflexivity.
Qed.

Lemma taylor_terminates r :
  is_fin r = true -> fle (float_of_int 0) r = true -> fle r (float_of_int 1) = true ->
  exists s, forall fuel, (10 < fuel)%nat ->
    while fuel taylor_cond (taylor_body r) (float_of_int 0, float_of_int 1, 1) = Some s.
Proof.
  intros Fr R0 R1.
  set (Inv := fun (k : nat) (s : fp * fp * Z) =>
    let '(sum, term, i) := s in
    i = Z.of_nat k + 1 /\ fle (float_of_int 0) term = true /\ fle term (term_bound k) = true).
  apply (while_invariant taylor_cond (taylor_body r) Inv 10) with (k := 0%nat).
  - intros k [[sum term] i] HI Hk _. unfold Inv in HI. cbv beta iota zeta in HI.
    destruct HI as (Hi & T0 & T1).
    unfold Inv, taylor_body. cbv beta iota zeta.
    destruct (term_bound_fin k ltac:(lia)) as [FT FQ].
    destruct (float_of_int_pos i) as (mi & ei & Ei & Hmi); [simpl; lia|].
    assert (Fterm : is_fin term = true).
    { apply (fle_between_fin (float_of_int 0) term (term_bound k)); auto. }
    assert (Q0 : fle (float_of_int 0) (r / float_of_int i)%fp = true).
    { rewrite Ei. rewrite <- (fdiv_zero binary32 mi ei Hmi) at 1.
      apply fdiv_mono; auto. apply P32. }
    assert (Q1 : fle (r / float_of_int i)%fp (float_of_int 1 / float_of_int i)%fp = true).
    { rewrite Ei. apply fdiv_mono; auto. apply P32. }
    assert (Ek : Z.of_nat (S k) = i) by lia.
    rewrite Ek in FQ.
    assert (FQr : is_fin (r / float_of_int i)%fp = true).
    { apply (fle_between_fin _ _ _ Q0 Q1); auto. }
    split; [lia|]. split.
    + change (float_of_int 0) with (float_of_int 0 * float_of_int 0)%fp.
      apply fmul_mono; auto. apply P32.
    + change (term_bound (S k))
        with (term_bound k * (float_of_int 1 / float_of_int (Z.of_nat (S k))))%fp.
      rewrite Ek. apply fmul_mono; auto. apply P32.
  - intros [[sum term] i] HI. unfold Inv in HI. cbv beta iota zeta in HI.
    destruct HI as (Hi & T0 & T1). unfold taylor_cond. cbv beta iota zeta. unfold fgt.
    destruct (flt kAccuracy term) eqn:E; auto.
    apply flt_not_fle in E.
    rewrite (fle_trans _ _ _ T1 term_bound_small) in E. discriminate.
  - reflexivity.
  - unfold Inv. cbv beta iota zeta. repeat split; reflexivity.
Qed.

(** ** the exponential *)
Lemma F2R_pow31 : F2R 8388608 8 = IZR (2 ^ 31).
Proof. unfold F2R. rewrite <- (bpow_IZR 8), <- mult_IZR by lia. reflexivity. Qed.

Lemma abs_value m e :
  (if (Fin m e < float_of_int 0)%fp then (- Fin m e)%fp else Fin m e) = Fin (Z.abs m) e.
Proof.
  assert (P := bpow_pos e).
  destruct (flt (Fin m e) (float_of_int 0)) eqn:E.
  - change (float_of_int 0) with (Fin 0 0) in E. apply flt_Fin in E. rewrite F2R_0 in E.
    assert (m < 0). { apply lt_IZR. unfold F2R in E. nra. }
    simpl. rewrite Z.abs_neq by lia. reflexivity.
  - assert (0 <= m).
    { destruct (Z_lt_le_dec m 0) as [Hm|]; auto. exfalso.
      assert (flt (Fin m e) (float_of_int 0) = true); [|congruence].
      change (float_of_int 0) with (Fin 0 0). apply flt_Fin. rewrite F2R_0.
      apply IZR_lt in Hm. unfold F2R. nra. }
    rewrite Z.abs_eq by lia. reflexivity.
Qed.

Lemma representable_abs m e :
  representable binary32 (Fin m e) = true -> m = 0 \/ (Z.abs m < 2 ^ 24 /\ -149 <= e).
Proof.
  unfold representable. simpl prec. simpl emin.
  destruct (Z.eqb_spec m 0); auto. simpl. intros H.
  apply andb_prop in H. destruct H as [H _]. apply andb_prop in H. destruct H as [H1 H2].
  apply Z.ltb_lt in H1. apply Z.leb_le in H2. right. split; auto.
Qed.

Lemma trunc_exact m e :
  representable binary32 (Fin m e) = true -> 0 <= m ->
  (F2R m e < IZR (2 ^ 31))%R ->
  let n := trunc m e in
  0 <= n < 2 ^ 31 /\ (IZR n <= F2R m e < IZR n + 1)%R /\
  exists m2 e2, float_of_int n = Fin m2 e2 /\ F2R m2 e2 = IZR n.
Proof.
  intros Hr Hm Hv n. assert (P := bpow_pos e).
  assert (V0 : (0 <= F2R m e)%R).
  { unfold F2R. apply Rmult_le_pos; [apply IZR_le; auto | lra]. }
  destruct (trunc_spec m e) as [T _]. specialize (T V0). fold n in T.
  assert (N0 : 0 <= n). { apply IZR_le_1. lra. }
  assert (N1 : n < 2 ^ 31). { apply lt_IZR. lra. }
  split; [lia|]. split; [exact T|].
  unfold float_of_int, of_int.
  assert (Hrep : exists m' e', F2R m' e' = IZR n /\ Z.abs m' < 2 ^ 24 /\ -149 <= e').
  { destruct (representable_abs m e Hr) as [->|[A B]].
    - exists 0, 0. rewrite F2R_0.
      assert (n = 0); [|subst n; split; [congruence | simpl; lia]].
      unfold n, trunc. destruct (Z.leb_spec 0 e); [apply Z.shiftl_0_l|].
      apply Z.quot_0_l. rewrite Z.shiftl_mul_pow2, Z.mul_1_l by lia.
      apply Z.pow_nonzero; lia.
    - destruct (Z.leb_spec 0 e) as [He|He].
      + exists m, e. split; [|split; auto].
        unfold n, trunc. destruct (Z.leb_spec 0 e); [|lia]. rewrite IZR_shiftl by auto. reflexivity.
      + exists n, 0. split; [unfold F2R; rewrite bpow_0; ring|]. split; [|lia].
        assert (n <= m); [|lia].
        apply IZR_le_1. 
        assert (F2R m e <= IZR m)%R; [|lra].
        unfold F2R. replace (IZR m) with (IZR m * 1)%R at 2 by ring.
        apply Rmult_le_compat_l; [apply IZR_le; auto|].
        rewrite <- bpow_0. apply bpow_le. lia. }
  destruct Hrep as (m' & e' & V & A & B).
  destruct (round_exact binary32 n 1 0 m' e' P32 ltac:(lia)) as (m2 & e2 & E2 & V2); auto.
  - rewrite V. rewrite bpow_0. field.
  - rewrite V. simpl emax. rewrite <- (bpow_IZR 128) by lia. split.
    + apply Rlt_le_trans with 0%R; [|apply IZR_le; auto].
      rewrite <- opp_IZR. apply IZR_lt. reflexivity.
    + apply Rlt_trans with (IZR (2 ^ 31)); apply IZR_lt; [auto | reflexivity].
  - exists m2, e2. split; auto. rewrite V2. auto.
Qed.

Theorem static_exp_total x :
  is_fin x = true -> representable binary32 x = true ->
  (float_of_int (- 2147483648) < x)%fp = true -> (x < float_of_int 2147483648)%fp = true ->
  exists y, forall fuel, (32 <= fuel)%nat -> static_exp fuel x = Some y.
Proof.
  intros Fx Rx Lo Hi. destruct x as [| |m e]; try discriminate.
  change (float_of_int 2147483648) with (Fin 8388608 8) in Hi.
  change (float_of_int (- 2147483648)) with (Fin (- 8388608) 8) in Lo.
  apply flt_Fin in Hi, Lo.
  replace (F2R (-8388608) 8) with (- F2R 8388608 8)%R in Lo by (rewrite <- F2R_opp; reflexivity).
  rewrite F2R_pow31 in Lo, Hi.
  assert (Ra : representable binary32 (Fin (Z.abs m) e) = true).
  { destruct (Z.abs_spec m) as [[_ ->]|[_ ->]]; auto.
    change (Fin (- m) e) with (fneg (Fin m e)). rewrite representable_neg. auto. }
  assert (Va : (F2R (Z.abs m) e < IZR (2 ^ 31))%R).
  { destruct (Z.abs_spec m) as [[_ ->]|[_ ->]]; auto. rewrite F2R_opp. lra. }
  destruct (trunc_exact (Z.abs m) e Ra (Z.abs_nonneg m) Va) as (N & T & m2 & e2 & En & Vn).
  set (n := trunc (Z.abs m) e) in *.
  set (r := (Fin (Z.abs m) e - float_of_int n)%fp).
  assert (Hr : fle (float_of_int 0) r = true /\ fle r (float_of_int 1) = true).
  { unfold r. rewrite En. unfold fsub. simpl fneg.
    destruct (fadd_Fin binary32 (Z.abs m) e (- m2) e2) as (a & ea & -> & Va').
    rewrite F2R_opp, Vn in Va'.
    split; apply round_mono; try apply P32; try lia; rewrite Va'; rewrite bpow_0; lra. }
  destruct Hr as [R0 R1].
  assert (Fr : is_fin r = true) by (apply (fle_between_fin _ _ _ R0 R1); reflexivity).
  destruct (taylor_terminates r Fr R0 R1) as ([[sum term] i] & Hloop).
  set (positive := (Fin m e >= float_of_int 0)%fp).
  set (sum' := if negb positive then to_float (literal 1 1 / to_double sum)%double else sum).
  destruct (static_int_pow_total
              (to_float (if positive then to_double NormalProbabilityDensity.e
                         else (literal 1 1 / to_double NormalProbabilityDensity.e)%double))
              n ltac:(lia)) as (p & Hp).
  exists (p * sum')%fp. intros fuel Hf.
  unfold static_exp. rewrite abs_value.
  assert (Ti : to_int (Fin (Z.abs m) e) = Some n).
  { rewrite to_int_Fin. fold n.
    destruct (Z.leb_spec (- 2 ^ 31) n); [|lia]. destruct (Z.ltb_spec n (2 ^ 31)); [|lia]. reflexivity. }
  rewrite Ti.
  change (while fuel _ _ _) with
    (while fuel taylor_cond (taylor_body r) (float_of_int 0, float_of_int 1, 1)).
  rewrite Hloop by lia. rewrite Hp by lia. reflexivity.
Qed.

Lemma density_eval_unfold fuel x :
  density_eval fuel x =
  match static_exp fuel (power_of x) with
  | None => None
  | Some ex =>
      Some (to_float (literal 1 1 / to_double (NormalDistributionParams.kStdev * kRootOf2Pi)%fp
                      * to_double ex)%double)
  end.
Proof. reflexivity. Qed.

Lemma static_exp_overflow fuel x :
  to_int (if (x < float_of_int 0)%fp then (- x)%fp else x) = None ->
  static_exp fuel x = None.
Proof. intros H. unfold static_exp. rewrite H. reflexivity. Qed.

Lemma power_within x :
  is_fin x = true ->
  fle density_lo x = true -> fle x density_hi = true ->
  within power_bound (power_of x) = true /\ is_fin (power_of x) = true /\
  representable binary32 (power_of x) = true.
Proof.
  intros Fx Lo Hi.
  set (d := (x - NormalDistributionParams.kMean)%fp).
  assert (Wd : within d_bound d = true).
  { unfold within. apply andb_true_intro. split.
    - apply fle_trans with (density_lo - NormalDistributionParams.kMean)%fp;
        [reflexivity|]. apply fsub_mono; auto. apply P32.
    - apply fle_trans with (density_hi - NormalDistributionParams.kMean)%fp;
        [|reflexivity]. apply fsub_mono; auto. apply P32. }
  assert (W1 : within (literal 5 10 * d_bound)%double (- literal 5 10 * d)%double = true).
  { apply fmul_within; auto. apply P64. }
  assert (W2 : within (literal 5 10 * d_bound * d_bound)%double
                      (- literal 5 10 * d * d)%double = true).
  { apply fmul_within; auto. apply P64. }
  assert (W3 : within (literal 5 10 * d_bound * d_bound / Fin 13958644 (-29))%double
                      (- literal 5 10 * d * d / Fin 13958644 (-29))%double = true).
  { apply fdiv_within; auto. apply P64. lia. }
  assert (W4 : within (literal 5 10 * d_bound * d_bound
                       / Fin 13958644 (-29) / Fin 13958644 (-29))%double
                      (- literal 5 10 * d * d / Fin 13958644 (-29) / Fin 13958644 (-29))%double = true).
  { apply fdiv_within; auto. apply P64. lia. }
  assert (F4 : is_fin (- literal 5 10 * d * d / Fin 13958644 (-29) / Fin 13958644 (-29))%double = true).
  { destruct (within_Fin _ _ W4 eq_refl) as (? & ? & ? & ? & _ & -> & _). reflexivity. }
  assert (W5 : within power_bound (power_of x) = true).
  { apply (cvt_within binary32 P32 _ _ W4). reflexivity. }
  split; [exact W5|]. split.
  - destruct (within_Fin _ _ W5 eq_refl) as (? & ? & ? & ? & _ & -> & _). reflexivity.
  - apply cvt_representable; [apply P32 | exact F4].
Qed.

Lemma power_in_int_range x :
  is_fin x = true ->
  fle density_lo x = true -> fle x density_hi = true ->
  is_fin (power_of x) = true /\ representable binary32 (power_of x) = true /\
  (float_of_int (- 2147483648) < power_of x)%fp = true /\
  (power_of x < float_of_int 2147483648)%fp = true.
Proof.
  intros Fx Lo Hi. destruct (power_within x Fx Lo Hi) as (W & Fp & Rp).
  unfold within in W. apply andb_prop in W. destruct W as [W1 W2].
  split; [exact Fp|]. split; [exact Rp|]. split.
  - apply flt_fle_trans with (fneg power_bound); [reflexivity | exact W1].
  - apply fle_flt_trans with power_bound; [exact W2 | reflexivity].
Qed.

(** The conversion of a float of magnitude 2^31 or more to int is undefined
    behaviour in C++; the model has no value there.  This is the case for
    the exponential at 2^31, and for the density at the binary32 numbers
    next to its domain on either side, where the argument of the exponential
    is -2^31. *)
Lemma static_exp_undefined_at_2p31 fuel :
  static_exp fuel (float_of_int 2147483648) = None.
Proof. apply static_exp_overflow. vm_compute. reflexivity. Qed.

Lemma density_undefined_beyond fuel :
  density_eval fuel (Fin 13958996 (-13)) = None /\
  density_eval fuel (Fin (-13958292) (-13)) = None.
Proof.
  split; rewrite density_eval_unfold; (rewrite static_exp_overflow; [reflexivity|]);
    vm_compute; reflexivity.
Qed.

Lemma scale_pos : (0 < IZR scale)%R.
Proof. apply IZR_lt. reflexivity. Qed.

Lemma sq_down_sound a y :
  0 <= a -> (IZR a / IZR scale <= exp y)%R ->
  0 <= sq_down a /\ (IZR (sq_down a) / IZR scale <= exp (y + y))%R.
Proof.
  intros Ha H. assert (S := scale_pos). unfold sq_down.
  assert (A0 : (0 <= IZR a)%R) by (apply IZR_le; auto).
  split; [apply Z.div_pos; [nia | reflexivity]|].
  assert (D : (IZR (a * a / scale) * IZR scale <= IZR a * IZR a)%R).
  { rewrite <- !mult_IZR. apply IZR_le. rewrite Z.mul_comm.
    apply Z.mul_div_le. reflexivity. }
  rewrite exp_plus.
  assert (Q0 : (0 <= IZR a / IZR scale)%R).
  { apply Rmult_le_pos; auto. left. apply Rinv_0_lt_compat; auto. }
  apply Rle_trans with (IZR a / IZR scale * (IZR a / IZR scale))%R.
  - apply Rmult_le_reg_r with (IZR scale * IZR scale)%R; [nra|].
    replace (IZR (a * a / scale) / IZR scale * (IZR scale * IZR scale))%R
      with (IZR (a * a / scale) * IZR scale * 1)%R by (field; lra).
    replace (IZR a / IZR scale * (IZR a / IZR scale) * (IZR scale * IZR scale))%R
      with (IZR a * IZR a)%R by (field; lra).
    lra.
  - apply Rmult_le_compat; auto.
Qed.

Lemma sq_up_sound a y :
  0 <= a -> (exp y <= IZR a / IZR scale)%R ->
  0 <= sq_up a /\ (exp (y + y) <= IZR (sq_up a) / IZR scale)%R.
Proof.
  intros Ha H. assert (S := scale_pos). unfold sq_up.
  assert (E := exp_pos y).
  split; [apply Z.div_pos; [unfold scale; nia | reflexivity]|].
  assert (D : (IZR a * IZR a <= IZR ((a * a + scale - 1) / scale) * IZR scale)%R).
  { rewrite <- !mult_IZR. apply IZR_le.
    assert (Hs : 0 < scale) by reflexivity.
    pose proof (Z.div_mod (a * a + scale - 1) scale ltac:(lia)) as DM.
    pose proof (Z.mod_pos_bound (a * a + scale - 1) scale Hs). lia. }
  rewrite exp_plus.
  apply Rle_trans with (IZR a / IZR scale * (IZR a / IZR scale))%R.
  - apply Rmult_le_compat; lra.
  - apply Rmult_le_reg_r with (IZR scale * IZR scale)%R; [nra|].
    replace (IZR ((a * a + scale - 1) / scale) / IZR scale * (IZR scale * IZR scale))%R
      with (IZR ((a * a + scale - 1) / scale) * IZR scale * 1)%R by (field; lra).
    replace (IZR a / IZR scale * (IZR a / IZR scale) * (IZR scale * IZR scale))%R
      with (IZR a * IZR a)%R by (field; lra).
    lra.
Qed.

Lemma iter_sq_down_sound k : forall a y,
  0 <= a -> (IZR a / IZR scale <= exp y)%R ->
  (IZR (iter_sq sq_down k a) / IZR scale <= exp (y * 2 ^ k))%R.
Proof.
  induction k as [|k IH]; intros a y Ha H.
  - simpl. rewrite Rmult_1_r. exact H.
  - destruct (sq_down_sound a y Ha H) as [H0 H1].
    simpl iter_sq. replace (y * 2 ^ S k)%R with ((y + y) * 2 ^ k)%R by (simpl; ring).
    apply IH; auto.
Qed.

Lemma iter_sq_up_sound k : forall a y,
  0 <= a -> (exp y <= IZR a / IZR scale)%R ->
  (exp (y * 2 ^ k) <= IZR (iter_sq sq_up k a) / IZR scale)%R.
Proof.
  induction k as [|k IH]; intros a y Ha H.
  - simpl. rewrite Rmult_1_r. exact H.
  - destruct (sq_up_sound a y Ha H) as [H0 H1].
    simpl iter_sq. replace (y * 2 ^ S k)%R with ((y + y) * 2 ^ k)%R by (simpl; ring).
    apply IH; auto.
Qed.

Lemma exp_1_enclosure : (IZR e_lower / IZR scale <= exp 1 <= IZR e_upper / IZR scale)%R.
Proof.
  assert (S := scale_pos).
  assert (T : (/ IZR (2 ^ 20) * 2 ^ 20 = 1)%R).
  { rewrite (pow_IZR 2 20). change (Z.of_nat 20) with 20%Z.
    apply Rinv_l. apply not_0_IZR. discriminate. }
  assert (P : (0 < / IZR (2 ^ 20))%R) by (apply Rinv_0_lt_compat, IZR_lt; reflexivity).
  split.
  - rewrite <- T.
    change e_lower with (iter_sq sq_down 20 (scale + 2 ^ 40)).
    apply iter_sq_down_sound; [discriminate|].
    left. eapply Rle_lt_trans; [|apply exp_ineq1; lra].
    right. rewrite plus_IZR. unfold scale.
    change (2 ^ 60) with (2 ^ 40 * 2 ^ 20). rewrite mult_IZR. field.
    split; apply not_0_IZR; discriminate.
  - rewrite <- T.
    change e_upper with (iter_sq sq_up 20 ((scale * 2 ^ 20 + 2 ^ 20 - 2) / (2 ^ 20 - 1))).
    apply iter_sq_up_sound; [discriminate|].
    set (b := (scale * 2 ^ 20 + 2 ^ 20 - 2) / (2 ^ 20 - 1)).
    assert (B : (IZR scale * IZR (2 ^ 20) <= IZR b * IZR (2 ^ 20 - 1))%R).
    { rewrite <- !mult_IZR. apply IZR_le. vm_compute. discriminate. }
    assert (N : (1 - / IZR (2 ^ 20) < exp (- / IZR (2 ^ 20)))%R).
    { replace (1 - / IZR (2 ^ 20))%R with (1 + - / IZR (2 ^ 20))%R by ring.
      apply exp_ineq1. lra. }
    rewrite exp_Ropp in N.
    assert (E := exp_pos (/ IZR (2 ^ 20))).
    assert (I : (/ IZR (2 ^ 20) < 1)%R).
    { assert (1 < IZR (2 ^ 20))%R by (apply IZR_lt; reflexivity).
      apply Rmult_lt_reg_r with (IZR (2 ^ 20)); [lra|].
      rewrite Rinv_l by lra. lra. }
    assert (U : (exp (/ IZR (2 ^ 20)) * (1 - / IZR (2 ^ 20)) <= 1)%R).
    { set (x := exp (/ IZR (2 ^ 20))) in *.
      assert (x * / x = 1)%R by (apply Rinv_r; lra).
      assert (0 < 1 - / IZR (2 ^ 20))%R by lra. nra. }
    set (x := exp (/ IZR (2 ^ 20))) in *.
    apply Rmult_le_reg_r with (IZR scale); auto.
    unfold Rdiv. rewrite Rmult_assoc, Rinv_l, Rmult_1_r by lra.
    rewrite minus_IZR in B.
    assert (T' : (IZR (2 ^ 20) * / IZR (2 ^ 20) = 1)%R).
    { apply Rinv_r. apply not_0_IZR. discriminate. }
    set (t := IZR (2 ^ 20)) in *. set (it := (/ t)%R) in *.
    assert (Ht : (0 < t)%R) by (apply IZR_lt; reflexivity).
    (* x * (t - 1) <= t, and scale * t <= b * (t - 1) *)
    assert (X : (x * (t - 1) <= t)%R).
    { replace (x * (t - 1))%R with (x * (1 - it) * t)%R
        by (replace (t - 1)%R with ((1 - it) * t)%R; [ring | unfold it; field; lra]).
      nra. }
    assert (T1 : (0 < t - 1)%R). { unfold t. rewrite <- minus_IZR. apply IZR_lt. reflexivity. }
    apply Rmult_le_reg_r with (t - 1)%R; auto.
    apply Rle_trans with (IZR scale * t)%R; [|lra].
    replace (x * IZR scale * (t - 1))%R with (IZR scale * (x * (t - 1)))%R by ring.
    apply Rmult_le_compat_l; lra.
Qed.

Lemma exp_1_close : (Rabs (F2R 11401300 (-22) - exp 1) < 1 / 100000)%R.
Proof.
  destruct exp_1_enclosure as [L U]. assert (S := scale_pos).
  assert (A : ((F2R 11401300 (-22) - 1 / 100000) * IZR scale < IZR e_lower)%R).
  { unfold F2R, bpow, powerRZ, scale, e_lower. simpl. lra. }
  assert (B : (IZR e_upper < (F2R 11401300 (-22) + 1 / 100000) * IZR scale)%R).
  { unfold F2R, bpow, powerRZ, scale, e_upper. simpl. lra. }
  apply Rabs_def1.
  - apply Rmult_lt_reg_r with (IZR scale); auto.
    apply Rmult_le_compat_r with (r := IZR scale) in L; [|lra].
    unfold Rdiv in L. rewrite Rmult_assoc, Rinv_l, Rmult_1_r in L by lra. lra.
  - apply Rmult_lt_reg_r with (IZR scale); auto.
    apply Rmult_le_compat_r with (r := IZR scale) in U; [|lra].
    unfold Rdiv in U. rewrite Rmult_assoc, Rinv_l, Rmult_1_r in U by lra. lra.
Qed.

(** * Error of one rounding *)
Lemma Rabs_bounds x a : (Rabs x <= a)%R -> (- a <= x <= a)%R.
Proof. unfold Rabs. destruct (Rcase_abs x); lra. Qed.

Lemma rnd_pos_error f v M ex :
  rnd_pos f v M ex -> (Rabs (F2R M ex - v) <= bpow ex / 2)%R.
Proof.
  intros [_ [[H1 H2] _]]. assert (P := bpow_pos ex). unfold F2R.
  set (y := (v / bpow ex)%R) in *.
  replace v with (y * bpow ex)%R by (unfold y; field; lra).
  assert (A : ((IZR M - y) * bpow ex <= / 2 * bpow ex)%R)
    by (apply Rmult_le_compat_r; lra).
  assert (B : (- / 2 * bpow ex <= (IZR M - y) * bpow ex)%R)
    by (apply Rmult_le_compat_r; lra).
  apply Rabs_le. lra.
Qed.

Lemma rnd_pos_ex_le f v M ex k :
  rnd_pos f v M ex -> (v < bpow k)%R -> emin f <= k - prec f -> ex <= k - prec f.
Proof.
  intros [(E & [E1 E2] & ->) _] Hv Hk.
  assert (E < k) by (apply bpow_lt_inv; lra). lia.
Qed.

Lemma rnd_pos_ex_normal f v M ex E0 :
  rnd_pos f v M ex -> (bpow E0 <= v)%R -> emin f <= E0 - prec f + 1 ->
  (bpow ex <= bpow (1 - prec f) * v)%R.
Proof.
  intros [(E & [E1 E2] & ->) _] Hv Hk.
  assert (E0 < E + 1) by (apply bpow_lt_inv; lra).
  rewrite Z.max_l by lia.
  replace (E - prec f + 1) with ((1 - prec f) + E) by lia. rewrite bpow_add.
  apply Rmult_le_compat_l; [left; apply bpow_pos | exact E1].
Qed.

Lemma rounded_abs_error f v r k :
  rounded f v r -> (Rabs v < bpow k)%R -> emin f <= k - prec f ->
  (Rabs (r - v) <= bpow (k - prec f - 1))%R.
Proof.
  intros HR Hv Hk.
  assert (Pk := bpow_pos (k - prec f - 1)).
  assert (Half : forall ex, ex <= k - prec f -> (bpow ex / 2 <= bpow (k - prec f - 1))%R).
  { intros ex Hex. apply bpow_le in Hex.
    replace (k - prec f) with (k - prec f - 1 + 1) in Hex by lia.
    rewrite bpow_succ in Hex. lra. }
  destruct HR as [[-> ->]|[(Hpos & M & ex & HM & ->)|(Hneg & M & ex & HM & ->)]].
  - rewrite Rminus_0_r, Rabs_R0. lra.
  - rewrite Rabs_pos_eq in Hv by lra.
    eapply Rle_trans; [apply (rnd_pos_error f v M ex HM)|].
    apply Half. apply (rnd_pos_ex_le f v M ex k); auto.
  - rewrite Rabs_left in Hv by lra.
    replace (- F2R M ex - v)%R with (- (F2R M ex - - v))%R by ring. rewrite Rabs_Ropp.
    eapply Rle_trans; [apply (rnd_pos_error f (- v) M ex HM)|].
    apply Half. apply (rnd_pos_ex_le f (- v) M ex k); auto.
Qed.

Lemma rounded_rel_error f v r E0 :
  rounded f v r -> (bpow E0 <= Rabs v)%R -> emin f <= E0 - prec f + 1 ->
  (Rabs (r - v) <= bpow (- prec f) * Rabs v)%R.
Proof.
  intros HR Hv Hk.
  assert (Half : forall ex w, (0 <= w)%R -> (bpow ex <= bpow (1 - prec f) * w)%R ->
                               (bpow ex / 2 <= bpow (- prec f) * w)%R).
  { intros ex w Hw H. replace (1 - prec f) with (- prec f + 1) in H by lia.
    rewrite bpow_succ in H. lra. }
  assert (P0 := bpow_pos E0).
  destruct HR as [[-> ->]|[(Hpos & M & ex & HM & ->)|(Hneg & M & ex & HM & ->)]].
  - rewrite Rabs_R0 in Hv. lra.
  - rewrite (Rabs_pos_eq v) in Hv by lra. rewrite (Rabs_pos_eq v) by lra.
    eapply Rle_trans; [apply (rnd_pos_error f v M ex HM)|].
    apply Half; [lra|]. apply (rnd_pos_ex_normal f v M ex E0); auto.
  - rewrite (Rabs_left v) in Hv by lra. rewrite (Rabs_left v) by lra.
    replace (- F2R M ex - v)%R with (- (F2R M ex - - v))%R by ring. rewrite Rabs_Ropp.
    eapply Rle_trans; [apply (rnd_pos_error f (- v) M ex HM)|].
    apply Half; [lra|]. apply (rnd_pos_ex_normal f (- v) M ex E0); auto.
Qed.

Lemma clamped_Fin f r x :
  clamped f r x -> (Rabs r < bpow (emax f))%R -> exists m e, x = Fin m e /\ F2R m e = r.
Proof.
  intros [[H _]|[[H _]|[_ H]]] Hr; auto.
  - rewrite Rabs_pos_eq in Hr; [lra|]. pose proof (bpow_pos (emax f)). lra.
  - rewrite Rabs_left in Hr; [lra|]. pose proof (bpow_pos (emax f)). lra.
Qed.

Lemma round_abs_error f n d e k :
  1 <= prec f -> 0 < d ->
  (Rabs (IZR n / IZR d * bpow e) < bpow k)%R -> emin f <= k - prec f -> k < emax f ->
  exists m' e', round f n d e = Fin m' e' /\ representable f (Fin m' e') = true /\
    (Rabs (F2R m' e' - IZR n / IZR d * bpow e) <= bpow (k - prec f - 1))%R.
Proof.
  intros Hp Hd Hv Hk Hmax.
  destruct (round_spec f n d e Hp Hd) as (r & HR & HC & HP).
  pose proof (rounded_abs_error f _ r k HR Hv Hk) as Herr.
  set (v := (IZR n / IZR d * bpow e)%R) in *.
  assert (Hr : (Rabs r < bpow (emax f))%R).
  { replace r with ((r - v) + v)%R by ring.
    eapply Rle_lt_trans; [apply Rabs_triang|].
    assert (bpow (k - prec f - 1) <= bpow k)%R by (apply bpow_le; lia).
    assert (bpow (k + 1) <= bpow (emax f))%R by (apply bpow_le; lia).
    rewrite bpow_succ in *. lra. }
  destruct (clamped_Fin f r _ HC Hr) as (m' & e' & E & V).
  exists m', e'. rewrite <- E, V. auto.
Qed.

Lemma round_rel_error f n d e E0 k :
  1 <= prec f -> 0 < d ->
  (bpow E0 <= Rabs (IZR n / IZR d * bpow e) < bpow k)%R ->
  emin f <= E0 - prec f + 1 -> k < emax f ->
  exists m' e', round f n d e = Fin m' e' /\ representable f (Fin m' e') = true /\
    (Rabs (F2R m' e' - IZR n / IZR d * bpow e)
       <= bpow (- prec f) * Rabs (IZR n / IZR d * bpow e))%R.
Proof.
  intros Hp Hd [Hlo Hhi] Hk Hmax.
  destruct (round_spec f n d e Hp Hd) as (r & HR & HC & HP).
  pose proof (rounded_rel_error f _ r E0 HR Hlo Hk) as Herr.
  set (v := (IZR n / IZR d * bpow e)%R) in *.
  assert (Hr : (Rabs r < bpow (emax f))%R).
  { replace r with ((r - v) + v)%R by ring.
    eapply Rle_lt_trans; [apply Rabs_triang|].
    assert (bpow (- prec f) <= bpow 0)%R by (apply bpow_le; lia).
    assert (bpow (k + 1) <= bpow (emax f))%R by (apply bpow_le; lia).
    rewrite bpow_succ in *. rewrite bpow_0 in *.
    pose proof (Rabs_pos v). nra. }
  destruct (clamped_Fin f r _ HC Hr) as (m' & e' & E & V).
  exists m', e'. rewrite <- E, V. auto.
Qed.

Lemma rounded_error_any v r :
  rounded binary32 v r -> (Rabs (r - v) <= bpow (-24) * Rabs v + bpow (-150))%R.
Proof.
  intros HR. assert (P1 := bpow_pos (-150)). assert (P2 := bpow_pos (-24)).
  pose proof (Rabs_pos v) as Pv.
  destruct (Rle_lt_dec (bpow (-126)) (Rabs v)) as [H|H].
  - pose proof (rounded_rel_error binary32 v r (-126) HR H ltac:(simpl; lia)) as E.
    change (- prec binary32) with (-24) in E. lra.
  - assert (H' : (Rabs v < bpow (-125))%R).
    { eapply Rlt_le_trans; [exact H|]. apply bpow_le. lia. }
    pose proof (rounded_abs_error binary32 v r (-125) HR H' ltac:(simpl; lia)) as E.
    change (-125 - prec binary32 - 1) with (-150) in E.
    assert (0 <= bpow (-24) * Rabs v)%R by (apply Rmult_le_pos; lra). lra.
Qed.

Lemma round_error_fin n d e m' e' :
  0 < d -> round binary32 n d e = Fin m' e' ->
  (Rabs (F2R m' e' - IZR n / IZR d * bpow e)
   <= bpow (-24) * Rabs (IZR n / IZR d * bpow e) + bpow (-150))%R.
Proof.
  intros Hd E.
  destruct (round_spec binary32 n d e P32 Hd) as (r & HR & HC & _).
  rewrite E in HC.
  destruct HC as [[_ C]|[[_ C]|[_ (m2 & e2 & C & <-)]]]; try discriminate.
  injection C as <- <-. apply rounded_error_any. exact HR.
Qed.

Section WhilePost.
  Context {St : Type} (c : St -> bool) (b : St -> St).

Lemma while_invariant_post (Inv : nat -> St -> Prop) (K : nat) :
    (forall k s, Inv k s -> (k < K)%nat -> c s = true -> Inv (S k) (b s)) ->
    (forall s, Inv K s -> c s = false) ->
    forall j k s, (k + j = K)%nat -> Inv k s ->
    exists k' s', (k' <= K)%nat /\ Inv k' s' /\ c s' = false /\
      forall fuel, (j < fuel)%nat -> while fuel c b s = Some s'.
  Proof.
    intros Hstep Hend. induction j as [|j IH]; intros k s Hk HI.
    - assert (k = K) by lia. subst k. exists K, s. 
      split; [lia|]. split; [exact HI|]. split; [apply Hend; exact HI|].
      intros fuel Hf. destruct fuel; [lia|]. rewrite while_step, (Hend s HI). reflexivity.
    - destruct (c s) eqn:Ec.
      + destruct (IH (S k) (b s)) as (k' & s' & Hk' & HI' & Hc' & Hs');
          [lia | apply Hstep; auto; lia |].
        exists k', s'. repeat (split; [assumption|]).
        intros fuel Hf. destruct fuel; [lia|]. rewrite while_step, Ec. apply Hs'. lia.
      + exists k, s. split; [lia|]. split; [exact HI|]. split; [exact Ec|].
        intros fuel Hf. destruct fuel; [lia|]. rewrite while_step, Ec. reflexivity.
  Qed.
End WhilePost.

Lemma sum_bound_fin k :
  (k <= 10)%nat -> is_fin (sum_bound k) = true /\ fle (sum_bound k) (float_of_int 3) = true.
Proof.
  intros Hk. do 11 (destruct k as [|k]; [split; vm_compute; reflexivity|]). lia.
Qed.

Lemma taylor_result r :
  is_fin r = true -> fle (float_of_int 0) r = true -> fle r (float_of_int 1) = true ->
  exists sum term i,
    fle (float_of_int 1) sum = true /\ fle sum (float_of_int 3) = true /\
    forall fuel, (10 < fuel)%nat ->
      while fuel taylor_cond (taylor_body r) (float_of_int 0, float_of_int 1, 1)
      = Some (sum, term, i).
Proof.
  intros Fr R0 R1.
  set (Inv := fun (k : nat) (s : fp * fp * Z) =>
    let '(sum, term, i) := s in
    i = Z.of_nat k + 1 /\ fle (float_of_int 0) term = true /\ fle term (term_bound k) = true /\
    (k = O -> sum = float_of_int 0 /\ term = float_of_int 1) /\
    ((1 <= k)%nat -> fle (float_of_int 1) sum = true) /\
    fle sum (sum_bound k) = true).
  destruct (while_invariant_post taylor_cond (taylor_body r) Inv 10) with (j := 10%nat) (k := 0%nat)
      (s := (float_of_int 0, float_of_int 1, 1))
    as (k' & [[sum term] i] & Hk' & HI & Hc & Hw).
  - intros k [[sum term] i] HI Hk _. unfold Inv in HI. cbv beta iota zeta in HI.
    destruct HI as (Hi & T0 & T1 & Z0 & S1 & S2).
    unfold Inv, taylor_body. cbv beta iota zeta.
    destruct (term_bound_fin k ltac:(lia)) as [FT FQ].
    destruct (sum_bound_fin k ltac:(lia)) as [FS _].
    destruct (float_of_int_pos i) as (mi & ei & Ei & Hmi); [simpl; lia|].
    assert (Fterm : is_fin term = true).
    { apply (fle_between_fin (float_of_int 0) term (term_bound k)); auto. }
    assert (Q0 : fle (float_of_int 0) (r / float_of_int i)%fp = true).
    { rewrite Ei. rewrite <- (fdiv_zero binary32 mi ei Hmi) at 1.
      apply fdiv_mono; auto. apply P32. }
    assert (Q1 : fle (r / float_of_int i)%fp (float_of_int 1 / float_of_int i)%fp = true).
    { rewrite Ei. apply fdiv_mono; auto. apply P32. }
    assert (Ek : Z.of_nat (S k) = i) by lia.
    rewrite Ek in FQ.
    assert (FQr : is_fin (r / float_of_int i)%fp = true).
    { apply (fle_between_fin _ _ _ Q0 Q1); auto. }
    assert (S0 : fle (float_of_int 0) sum = true).
    { destruct k as [|k].
      - destruct Z0 as [-> _]; reflexivity.
      - apply fle_trans with (float_of_int 1); [reflexivity | apply S1; lia]. }
    assert (Fsum : is_fin sum = true).
    { apply (fle_between_fin _ _ _ S0 S2); auto. }
    split; [lia|]. split; [|split; [|split; [|split]]].
    + change (float_of_int 0) with (float_of_int 0 * float_of_int 0)%fp.
      apply fmul_mono; auto. apply P32.
    + change (term_bound (S k))
        with (term_bound k * (float_of_int 1 / float_of_int (Z.of_nat (S k))))%fp.
      rewrite Ek. apply fmul_mono; auto. apply P32.
    + intros; discriminate.
    + intros _. destruct k as [|k].
      * destruct Z0 as [-> ->]; reflexivity.
      * change (float_of_int 1) with (float_of_int 1 + float_of_int 0)%fp at 1.
        apply fadd_mono; auto. apply P32. apply S1; lia.
    + change (sum_bound (S k)) with (sum_bound k + term_bound k)%fp.
      apply fadd_mono; auto. apply P32.
  - intros [[sum term] i] HI. unfold Inv in HI. cbv beta iota zeta in HI.
    destruct HI as (Hi & T0 & T1 & _). unfold taylor_cond. cbv beta iota zeta. unfold fgt.
    destruct (flt kAccuracy term) eqn:E; auto.
    apply flt_not_fle in E.
    rewrite (fle_trans _ _ _ T1 term_bound_small) in E. discriminate.
  - reflexivity.
  - unfold Inv. cbv beta iota zeta. repeat split; try reflexivity. intros; lia.
  - unfold Inv in HI. cbv beta iota zeta in HI.
    destruct HI as (Hi & T0 & T1 & Z0 & S1 & S2).
    exists sum, term, i.
    assert (K1 : (1 <= k')%nat).
    { destruct k' as [|k']; [|lia]. destruct Z0 as [_ ->]; auto. discriminate Hc. }
    split; [apply S1; exact K1|]. split; [|exact Hw].
    apply fle_trans with (sum_bound k'); auto. apply sum_bound_fin; auto.
Qed.

Lemma cap_bounds k :
  (k <= cap_steps)%nat ->
  is_fin (term_bound_at r_cap k) = true /\
  is_fin (r_cap / float_of_int (Z.of_nat (S k)))%fp = true /\
  is_fin (sum_bound_at r_cap k) = true /\
  fle (sum_bound_at r_cap k) sum_cap = true.
Proof.
  unfold cap_steps. intros Hk.
  do 10 (destruct k as [|k]; [repeat split; vm_compute; reflexivity|]). lia.
Qed.

Lemma cap_term_small : fle (term_bound_at r_cap cap_steps) kAccuracy = true.
Proof. vm_compute. reflexivity. Qed.

Lemma taylor_capped r :
  is_fin r = true -> fle (float_of_int 0) r = true -> fle r r_cap = true ->
  exists sum term i,
    fle sum sum_cap = true /\
    forall fuel, (10 < fuel)%nat ->
      while fuel taylor_cond (taylor_body r) (float_of_int 0, float_of_int 1, 1)
      = Some (sum, term, i).
Proof.
  intros Fr R0 R1.
  set (Inv := fun (k : nat) (s : fp * fp * Z) =>
    let '(sum, term, i) := s in
    i = Z.of_nat k + 1 /\ fle (float_of_int 0) term = true /\
    fle term (term_bound_at r_cap k) = true /\
    fle (float_of_int 0) sum = true /\ fle sum (sum_bound_at r_cap k) = true).
  destruct (while_invariant_post taylor_cond (taylor_body r) Inv cap_steps)
    with (j := cap_steps) (k := 0%nat) (s := (float_of_int 0, float_of_int 1, 1))
    as (k' & [[sum term] i] & Hk' & HI & Hc & Hw).
  - intros k [[sum term] i] HI Hk _. unfold Inv in HI. cbv beta iota zeta in HI.
    destruct HI as (Hi & T0 & T1 & S0 & S2).
    unfold Inv, taylor_body. cbv beta iota zeta.
    destruct (cap_bounds k (Nat.lt_le_incl _ _ Hk)) as (FT & FQ & FS & _).
    unfold cap_steps in Hk.
    destruct (float_of_int_pos i) as (mi & ei & Ei & Hmi); [simpl; lia|].
    assert (Fterm : is_fin term = true).
    { apply (fle_between_fin (float_of_int 0) term (term_bound_at r_cap k)); auto. }
    assert (Fsum : is_fin sum = true).
    { apply (fle_between_fin _ _ _ S0 S2); auto. }
    assert (Q0 : fle (float_of_int 0) (r / float_of_int i)%fp = true).
    { rewrite Ei. rewrite <- (fdiv_zero binary32 mi ei Hmi) at 1.
      apply fdiv_mono; auto. apply P32. }
    assert (Q1 : fle (r / float_of_int i)%fp (r_cap / float_of_int i)%fp = true).
    { rewrite Ei. apply fdiv_mono; auto. apply P32. }
    assert (Ek : Z.of_nat (S k) = i) by lia.
    rewrite Ek in FQ.
    assert (FQr : is_fin (r / float_of_int i)%fp = true).
    { apply (fle_between_fin _ _ _ Q0 Q1); auto. }
    split; [lia|]. split; [|split; [|split]].
    + change (float_of_int 0) with (float_of_int 0 * float_of_int 0)%fp.
      apply fmul_mono; auto. apply P32.
    + change (term_bound_at r_cap (S k))
        with (term_bound_at r_cap k * (r_cap / float_of_int (Z.of_nat (S k))))%fp.
      rewrite Ek. apply fmul_mono; auto. apply P32.
    + change (float_of_int 0) with (float_of_int 0 + float_of_int 0)%fp at 1.
      apply fadd_mono; auto. apply P32.
    + change (sum_bound_at r_cap (S k)) with (sum_bound_at r_cap k + term_bound_at r_cap k)%fp.
      apply fadd_mono; auto. apply P32.
  - intros [[sum term] i] HI. unfold Inv in HI. cbv beta iota zeta in HI.
    destruct HI as (Hi & T0 & T1 & _). unfold taylor_cond. cbv beta iota zeta. unfold fgt.
    destruct (flt kAccuracy term) eqn:E; auto.
    apply flt_not_fle in E.
    rewrite (fle_trans _ _ _ T1 cap_term_small) in E. discriminate.
  - reflexivity.
  - unfold Inv. cbv beta iota zeta. repeat split; reflexivity.
  - unfold Inv in HI. cbv beta iota zeta in HI.
    destruct HI as (Hi & T0 & T1 & S0 & S2).
    exists sum, term, i. split; [|intros fuel Hf; apply Hw; unfold cap_steps; lia].
    apply fle_trans with (sum_bound_at r_cap k'); auto. apply cap_bounds; auto.
Qed.

(** ** the two branches of the exponential *)
Lemma nonneg_flags m e :
  0 <= m -> (Fin m e >= float_of_int 0)%fp = true.
Proof.
  intros Hm. unfold fge. change (float_of_int 0) with (Fin 0 0). apply fle_Fin.
  rewrite F2R_0. unfold F2R. apply Rmult_le_pos; [apply IZR_le; auto | left; apply bpow_pos].
Qed.

Lemma neg_flags m e :
  0 < m -> (Fin (- m) e >= float_of_int 0)%fp = false.
Proof.
  intros Hm. unfold fge. apply flt_not_fle. change (float_of_int 0) with (Fin 0 0).
  apply flt_Fin. rewrite F2R_0, F2R_opp. unfold F2R.
  assert (0 < IZR m * bpow e)%R; [|lra].
  apply Rmult_lt_0_compat; [apply IZR_lt; auto | apply bpow_pos].
Qed.

Lemma some_pair_eq (a b : fp) (t t' : fp) (i i' : Z) :
  Some (a, t, i) = Some (b, t', i') -> b = a.
Proof. intros H. injection H. auto. Qed.

Lemma static_exp_shape_gen m e :
  representable binary32 (Fin m e) = true -> 0 <= m -> (F2R m e < IZR (2 ^ 31))%R ->
  exists n sum,
    0 <= n < 2 ^ 31 /\ (IZR n <= F2R m e < IZR n + 1)%R /\
    fle (float_of_int 1) sum = true /\ fle sum (float_of_int 3) = true /\
    ((F2R m e <= F2R 1453635 (-14))%R -> n <= 88 /\ (n = 88 -> fle sum sum_cap = true)) /\
    forall fuel, (32 <= fuel)%nat ->
      static_exp fuel (Fin m e) =
        match static_int_pow fuel (base_of true) n with
        | Some p => Some (p * sum)%fp
        | None => None
        end /\
      (0 < m ->
       static_exp fuel (Fin (- m) e) =
        match static_int_pow fuel (base_of false) n with
        | Some p => Some (p * recip sum)%fp
        | None => None
        end).
Proof.
  intros Ra Hm Va.
  destruct (trunc_exact m e Ra Hm Va) as (N & T & m2 & e2 & En & Vn).
  set (n := trunc m e) in *.
  set (r := (Fin m e - float_of_int n)%fp).
  assert (Hr : fle (float_of_int 0) r = true /\ fle r (float_of_int 1) = true).
  { unfold r. rewrite En. unfold fsub. simpl fneg.
    destruct (fadd_Fin binary32 m e (- m2) e2) as (a & ea & -> & Va').
    rewrite F2R_opp, Vn in Va'.
    split; apply round_mono; try apply P32; try lia; rewrite Va'; rewrite bpow_0; lra. }
  destruct Hr as [R0 R1].
  assert (Fr : is_fin r = true) by (apply (fle_between_fin _ _ _ R0 R1); reflexivity).
  destruct (taylor_result r Fr R0 R1) as (sum & term & i & S1 & S3 & Hloop).
  exists n, sum. split; [exact N|]. split; [exact T|]. split; [exact S1|]. split; [exact S3|].
  split.
  { intros Hcap.
    assert (V88 : F2R 1453635 (-14) = (88 + 11843 / 16384)%R)
      by (unfold F2R, bpow, powerRZ; simpl; lra).
    assert (N88 : n <= 88).
    { assert (n < 89); [|lia]. apply lt_IZR. lra. }
    split; [exact N88|]. intros E88.
    assert (Rc : fle r r_cap = true).
    { apply fle_trans with (round binary32 11843 1 (-14)); [|reflexivity].
      unfold r. rewrite En. unfold fsub. simpl fneg.
      destruct (fadd_Fin binary32 m e (- m2) e2) as (a & ea & -> & Va').
      rewrite F2R_opp, Vn in Va'.
      apply round_mono; try apply P32; try lia. rewrite Va', E88.
      unfold Rdiv. rewrite Rinv_1, Rmult_1_r. fold (F2R 11843 (-14)).
      assert (F2R 11843 (-14) = (11843 / 16384)%R) by (unfold F2R, bpow, powerRZ; simpl; lra).
      lra. }
    destruct (taylor_capped r Fr R0 Rc) as (sum' & term' & i' & Sc & Hloop').
    pose proof (Hloop 11%nat ltac:(lia)) as A. pose proof (Hloop' 11%nat ltac:(lia)) as B.
    rewrite A in B. apply some_pair_eq in B. subst sum'. exact Sc. }
  assert (Ti : to_int (Fin m e) = Some n).
  { rewrite to_int_Fin. fold n.
    destruct (Z.leb_spec (- 2 ^ 31) n); [|lia]. destruct (Z.ltb_spec n (2 ^ 31)); [|lia]. reflexivity. }
  intros fuel Hf. split.
  - unfold static_exp. rewrite abs_value, (Z.abs_eq m) by auto.
    rewrite (nonneg_flags m e Hm). rewrite Ti.
    change (while fuel _ _ _) with
      (while fuel taylor_cond (taylor_body r) (float_of_int 0, float_of_int 1, 1)).
    rewrite Hloop by lia. reflexivity.
  - intros Hpos. unfold static_exp. rewrite abs_value, Z.abs_opp, (Z.abs_eq m) by auto.
    rewrite (neg_flags m e Hpos). rewrite Ti.
    change (while fuel _ _ _) with
      (while fuel taylor_cond (taylor_body r) (float_of_int 0, float_of_int 1, 1)).
    rewrite Hloop by lia. reflexivity.
Qed.

Lemma static_exp_shape m e :
  representable binary32 (Fin m e) = true -> 0 <= m -> (F2R m e < IZR (2 ^ 31))%R ->
  exists n sum,
    0 <= n < 2 ^ 31 /\ (IZR n <= F2R m e < IZR n + 1)%R /\
    fle (float_of_int 1) sum = true /\ fle sum (float_of_int 3) = true /\
    forall fuel, (32 <= fuel)%nat ->
      static_exp fuel (Fin m e) =
        match static_int_pow fuel (base_of true) n with
        | Some p => Some (p * sum)%fp
        | None => None
        end /\
      (0 < m ->
       static_exp fuel (Fin (- m) e) =
        match static_int_pow fuel (base_of false) n with
        | Some p => Some (p * recip sum)%fp
        | None => None
        end).
Proof.
  intros Ra Hm Va.
  destruct (static_exp_shape_gen m e Ra Hm Va) as (n & sum & N & T & S1 & S3 & _ & H).
  exists n, sum. auto.
Qed.

Lemma F2R_int k : F2R k 0 = IZR k.
Proof. unfold F2R. rewrite bpow_0. ring. Qed.

Lemma float_of_int_small k :
  Z.abs k < 2 ^ 24 -> forall m e, (fle (float_of_int k) (Fin m e) = true <-> (IZR k <= F2R m e)%R) /\
                                  (fle (Fin m e) (float_of_int k) = true <-> (F2R m e <= IZR k)%R).
Proof.
  intros Hk m e. destruct (float_of_int_exact k Hk) as (mk & ek & -> & <-).
  split; apply fle_Fin.
Qed.

Lemma recip_error ms es :
  (1 <= F2R ms es <= 3)%R ->
  exists m' e', recip (Fin ms es) = Fin m' e' /\
    (Rabs (F2R m' e' - / F2R ms es) <= bpow (-24) + bpow (-53))%R.
Proof.
  intros HS. unfold recip, to_double, to_float.
  assert (L : exists mo eo, literal 1 1 = Fin mo eo /\ F2R mo eo = 1%R).
  { exists 4503599627370496, (-52). split; [reflexivity|].
    unfold F2R, bpow, powerRZ. simpl. lra. }
  destruct L as (mo & eo & -> & Vo).
  assert (Hms : ms <> 0).
  { intros ->. rewrite F2R_0 in HS. lra. }
  destruct (fdiv_Fin binary64 mo eo ms es Hms) as (n & d & e' & -> & Hd & V).
  rewrite Vo in V.
  assert (I : (/ 3 <= / F2R ms es <= 1)%R).
  { split.
    - apply Rinv_le_contravar; lra.
    - rewrite <- Rinv_1. apply Rinv_le_contravar; lra. }
  unfold Rdiv in V at 2. rewrite Rmult_1_l in V.
  destruct (round_abs_error binary64 n d e' 1 P64 Hd) as (my & ey & -> & _ & Ey).
  { rewrite V, bpow_1. rewrite Rabs_pos_eq; lra. }
  { simpl; lia. }
  { simpl; lia. }
  rewrite V in Ey. simpl prec in Ey. change (1 - 53 - 1) with (-53) in Ey.
  assert (B53 : (bpow (-53) <= / 4)%R).
  { change (/ 4)%R with (/ (2 * 2))%R. 
    replace (/ (2 * 2))%R with (bpow (-2)) by (unfold bpow, powerRZ; simpl; lra).
    apply bpow_le. lia. }
  apply Rabs_bounds in Ey.
  change (cvt binary32 (Fin my ey)) with (round binary32 my 1 ey).
  destruct (round_abs_error binary32 my 1 ey 1 P32 ltac:(lia)) as (m' & e'' & -> & _ & E32).
  { unfold Rdiv. rewrite Rinv_1, Rmult_1_r. fold (F2R my ey). rewrite bpow_1.
    apply Rabs_def1; lra. }
  { simpl; lia. }
  { simpl; lia. }
  exists m', e''. split; [reflexivity|].
  unfold Rdiv in E32. rewrite Rinv_1, Rmult_1_r in E32. fold (F2R my ey) in E32.
  simpl prec in E32. change (1 - 24 - 1) with (-24) in E32.
  apply Rabs_bounds in E32. apply Rabs_le. lra.
Qed.

(** ** the integer powers of the two bases *)
Lemma pow_checked : forallb pow_check (map Z.of_nat (seq 0 89)) = true.
Proof. vm_compute. reflexivity. Qed.

Lemma pow_bounds mp ep mq eq :
  fle (Fin 1 0) (Fin mp ep) && fle (Fin mp ep) (Fin 1 127) &&
  fle (Fin 1 (-127)) (Fin mq eq) && fle (Fin mq eq) (Fin 1 0) &&
  fle (Fin 65535 (-16)) (Fin (mp * mq) (ep + eq)) &&
  fle (Fin (mp * mq) (ep + eq)) (Fin 65537 (-16)) = true ->
  (1 <= F2R mp ep <= bpow 127)%R /\ (bpow (-127) <= F2R mq eq <= 1)%R /\
  (Rabs (F2R mp ep * F2R mq eq - 1) <= bpow (-16))%R.
Proof.
  intros H.
  apply andb_prop in H. destruct H as [H H6].
  apply andb_prop in H. destruct H as [H H5].
  apply andb_prop in H. destruct H as [H H4].
  apply andb_prop in H. destruct H as [H H3].
  apply andb_prop in H. destruct H as [H1 H2].
  apply fle_Fin in H1, H2, H3, H4, H5, H6.
  assert (One : forall k, F2R 1 k = bpow k) by (intros; unfold F2R; ring).
  rewrite One in H1, H2, H3, H4. rewrite bpow_0 in H1, H4.
  assert (Pm : F2R (mp * mq) (ep + eq) = (F2R mp ep * F2R mq eq)%R).
  { unfold F2R. rewrite mult_IZR, bpow_add. ring. }
  rewrite Pm in H5, H6.
  assert (A : F2R 65535 (-16) = (1 - bpow (-16))%R).
  { unfold F2R, bpow, powerRZ. simpl. lra. }
  assert (B : F2R 65537 (-16) = (1 + bpow (-16))%R).
  { unfold F2R, bpow, powerRZ. simpl. lra. }
  rewrite A in H5. rewrite B in H6.
  split; [lra|]. split; [lra|]. apply Rabs_le. lra.
Qed.

Lemma pow_check_inv n :
  pow_check n = true ->
  exists mp ep mq eq,
    static_int_pow 32 (base_of true) n = Some (Fin mp ep) /\
    static_int_pow 32 (base_of false) n = Some (Fin mq eq) /\
    fle (Fin 1 0) (Fin mp ep) && fle (Fin mp ep) (Fin 1 127) &&
    fle (Fin 1 (-127)) (Fin mq eq) && fle (Fin mq eq) (Fin 1 0) &&
    fle (Fin 65535 (-16)) (Fin (mp * mq) (ep + eq)) &&
    fle (Fin (mp * mq) (ep + eq)) (Fin 65537 (-16)) = true /\
    is_fin (Fin mp ep * sum_cap_of n)%fp = true.
Proof.
  unfold pow_check.
  generalize (static_int_pow 32 (base_of true) n) (static_int_pow 32 (base_of false) n).
  intros [[| |mp ep]|] [[| |mq eq]|] H; try discriminate H.
  destruct (sum_cap_of n) as [| |mc ec]; try discriminate H.
  apply andb_prop in H. destruct H as [H1 H2].
  exists mp, ep, mq, eq. auto.
Qed.

Lemma pow_values n :
  0 <= n < 89 ->
  exists mp ep mq eq,
    (forall fuel, (32 <= fuel)%nat ->
       static_int_pow fuel (base_of true) n = Some (Fin mp ep) /\
       static_int_pow fuel (base_of false) n = Some (Fin mq eq)) /\
    (1 <= F2R mp ep <= bpow 127)%R /\ (bpow (-127) <= F2R mq eq <= 1)%R /\
    (Rabs (F2R mp ep * F2R mq eq - 1) <= bpow (-16))%R /\
    is_fin (Fin mp ep * sum_cap_of n)%fp = true.
Proof.
  intros Hn.
  assert (Hin : In n (map Z.of_nat (seq 0 89))).
  { apply in_map_iff. exists (Z.to_nat n). split; [lia|]. apply in_seq. lia. }
  pose proof (proj1 (forallb_forall pow_check _) pow_checked n Hin) as Hall.
  destruct (pow_check_inv n Hall) as (mp & ep & mq & eq & Ep & Eq & Hb & Hc).
  destruct (static_int_pow_total (base_of true) n ltac:(lia)) as (p & Hp).
  destruct (static_int_pow_total (base_of false) n ltac:(lia)) as (q & Hq).
  assert (p = Fin mp ep) by (pose proof (Hp 32%nat (le_n _)); congruence).
  assert (q = Fin mq eq) by (pose proof (Hq 32%nat (le_n _)); congruence).
  subst p q.
  exists mp, ep, mq, eq. split; [intros fuel Hf; split; auto|].
  destruct (pow_bounds mp ep mq eq Hb) as (A & B & C). auto.
Qed.

Lemma near_one_mul a b ea eb :
  (Rabs (a - 1) <= ea)%R -> (Rabs (b - 1) <= eb)%R ->
  (Rabs (a * b - 1) <= ea + eb + ea * eb)%R.
Proof.
  intros Ha Hb.
  replace (a * b - 1)%R with ((a - 1) + (b - 1) + (a - 1) * (b - 1))%R by ring.
  eapply Rle_trans; [apply Rabs_triang|].
  assert (Rabs ((a - 1) + (b - 1)) <= ea + eb)%R.
  { eapply Rle_trans; [apply Rabs_triang|]. lra. }
  assert (Rabs ((a - 1) * (b - 1)) <= ea * eb)%R.
  { rewrite Rabs_mult. apply Rmult_le_compat; auto; apply Rabs_pos. }
  lra.
Qed.

Lemma static_exp_fuel x y :
  is_fin x = true -> representable binary32 x = true ->
  (float_of_int (- 2147483648) < x)%fp = true -> (x < float_of_int 2147483648)%fp = true ->
  static_exp 32 x = Some y ->
  forall fuel, (32 <= fuel)%nat -> static_exp fuel x = Some y.
Proof.
  intros Fx Rx Lo Hi H32.
  destruct (static_exp_total x Fx Rx Lo Hi) as (y' & Hy).
  assert (y' = y). { pose proof (Hy 32%nat (le_n _)) as E. rewrite H32 in E. congruence. }
  subst y'. exact Hy.
Qed.

Lemma rel_error_ratio y v u :
  (0 < v)%R -> (0 <= u < 1)%R -> (Rabs (y - v) <= u * Rabs v)%R ->
  (0 < y)%R /\ (Rabs (y / v - 1) <= u)%R.
Proof.
  intros Hv Hu H. rewrite (Rabs_pos_eq v) in H by lra.
  apply Rabs_bounds in H.
  assert (I : (0 < / v)%R) by (apply Rinv_0_lt_compat; auto).
  split; [nra|].
  replace (y / v - 1)%R with ((y - v) * / v)%R by (field; lra).
  apply Rabs_le. split.
  - apply Rmult_le_reg_r with v; auto. rewrite Rmult_assoc, Rinv_l by lra. lra.
  - apply Rmult_le_reg_r with v; auto. rewrite Rmult_assoc, Rinv_l by lra. lra.
Qed.

Lemma rel_error_floor y v u a w :
  (0 < w <= v)%R -> (0 <= u)%R -> (0 <= a)%R -> (Rabs (y - v) <= u * Rabs v + a)%R ->
  (Rabs (y - v) <= (u + a / w) * Rabs v)%R.
Proof.
  intros Hw Hu Ha H. rewrite (Rabs_pos_eq v) in * by lra.
  eapply Rle_trans; [exact H|].
  assert (a <= a / w * v)%R; [|lra].
  unfold Rdiv. rewrite Rmult_assoc.
  rewrite <- (Rmult_1_r a) at 1. apply Rmult_le_compat_l; auto.
  apply Rmult_le_reg_l with w; [lra|]. rewrite <- Rmult_assoc, Rinv_r by lra. lra.
Qed.

Lemma sum_below_cap n sum :
  fle sum (float_of_int 3) = true -> (n = 88 -> fle sum sum_cap = true) -> n <= 88 ->
  fle sum (sum_cap_of n) = true.
Proof.
  intros S3 Hc Hn. unfold sum_cap_of. destruct (Z.ltb_spec n 88).
  - apply fle_trans with (float_of_int 3); [exact S3 | reflexivity].
  - apply Hc. lia.
Qed.

Lemma exp_product m e :
  representable binary32 (Fin m e) = true -> 0 < m -> (F2R m e <= F2R 1453635 (-14))%R ->
  exists my ey my' ey',
    (forall fuel, (32 <= fuel)%nat ->
       static_exp fuel (Fin m e) = Some (Fin my ey) /\
       static_exp fuel (Fin (- m) e) = Some (Fin my' ey')) /\
    (0 < F2R my ey)%R /\ (0 < F2R my' ey')%R /\
    (Rabs (F2R my ey * F2R my' ey' - 1) <= 1 / 50000)%R.
Proof.
  intros Rm Hm Hv.
  assert (V89 : (F2R 1453635 (-14) < 89)%R) by (unfold F2R, bpow, powerRZ; simpl; lra).
  assert (V31 : (F2R m e < IZR (2 ^ 31))%R).
  { apply Rlt_trans with 89%R; [lra|]. apply IZR_lt. reflexivity. }
  destruct (static_exp_shape_gen m e Rm ltac:(lia) V31)
    as (n & sum & Hn & Hfrac & S1 & S3 & Hcap & Hexp).
  destruct (Hcap Hv) as [N88 Scap].
  assert (N89 : 0 <= n < 89) by lia.
  pose proof (sum_below_cap n sum S3 Scap N88) as Sc.
  assert (Fsum : is_fin sum = true).
  { apply (fle_between_fin _ _ _ S1 S3); reflexivity. }
  destruct sum as [| |ms es]; try discriminate.
  assert (S0 : fle (Fin 0 0) (Fin ms es) = true).
  { apply fle_trans with (float_of_int 1); [reflexivity | exact S1]. }
  apply (float_of_int_small 1 ltac:(simpl; lia)) in S1.
  apply (float_of_int_small 3 ltac:(simpl; lia)) in S3.
  destruct (pow_values n N89) as (mp & ep & mq & eq & Hpow & HP & HQ & HPQ & Hfin).
  destruct (recip_error ms es (conj S1 S3)) as (mr & er & Er & Herr).
  set (P := F2R mp ep) in *. set (Q := F2R mq eq) in *.
  set (S := F2R ms es) in *. set (S' := F2R mr er) in *.
  assert (B24 : bpow (-24) = (/ 16777216)%R).
  { unfold bpow, powerRZ. simpl. apply f_equal. lra. }
  assert (B21 : bpow (-21) = (/ 2097152)%R).
  { unfold bpow, powerRZ. simpl. apply f_equal. lra. }
  assert (B53 : (0 < bpow (-53) <= / 16777216)%R).
  { split; [apply bpow_pos|]. rewrite <- B24. apply bpow_le. lia. }
  assert (B16 : bpow (-16) = (/ 65536)%R).
  { unfold bpow, powerRZ. simpl. apply f_equal. lra. }
  assert (B53' : (bpow (-53) <= / 1000000000000)%R).
  { apply Rle_trans with (bpow (-40)); [apply bpow_le; lia|].
    unfold bpow, powerRZ. simpl. apply Rinv_le_contravar; lra. }
  assert (B150 : (0 < bpow (-150) <= / 1000000000000)%R).
  { split; [apply bpow_pos|]. apply Rle_trans with (bpow (-40)); [apply bpow_le; lia|].
    unfold bpow, powerRZ. simpl. apply Rinv_le_contravar; lra. }
  assert (IS : (/ 3 <= / S <= 1)%R).
  { split.
    - apply Rinv_le_contravar; lra.
    - rewrite <- Rinv_1. apply Rinv_le_contravar; lra. }
  apply Rabs_bounds in Herr.
  assert (HS' : (/ 4 <= S' <= 2)%R) by lra.
  assert (HB : (Rabs (S * S' - 1) <= 3 * (bpow (-24) + bpow (-53)))%R).
  { replace (S * S' - 1)%R with (S * (S' - / S))%R by (field; lra).
    rewrite Rabs_mult, (Rabs_pos_eq S) by lra.
    apply Rmult_le_compat; try lra; try apply Rabs_pos. apply Rabs_le. lra. }
  assert (Q129 : bpow (-127) = (4 * bpow (-129))%R).
  { change (-127) with (-129 + 1 + 1). rewrite !bpow_succ. ring. }
  assert (D21 : (bpow (-150) / bpow (-129) = bpow (-21))%R).
  { change (-150) with (-21 + -129). rewrite bpow_add. field.
    apply Rgt_not_eq, bpow_pos. }
  assert (Pq := bpow_pos (-129)).
  (* the two final multiplications *)
  assert (P0 : fle (Fin 0 0) (Fin mp ep) = true).
  { apply fle_Fin. rewrite F2R_0. fold P. lra. }
  assert (Fcap : is_fin (sum_cap_of n) = true).
  { unfold sum_cap_of. destruct (n <? 88); reflexivity. }
  assert (F1 : is_fin (Fin mp ep * Fin ms es)%fp = true).
  { apply fle_between_fin with (lo := (Fin 0 0 * Fin 0 0)%fp)
                               (hi := (Fin mp ep * sum_cap_of n)%fp);
      [| |reflexivity | exact Hfin].
    - apply fmul_mono; auto; try reflexivity. apply P32.
    - apply fmul_mono; auto; try reflexivity; try apply P32.
      apply fle_Fin. lra. }
  destruct (fmul_Fin binary32 mp ep ms es) as [E1 V1].
  fold P S in V1. rewrite E1 in F1.
  destruct (round binary32 (mp * ms) 1 (ep + es)) as [| |my ey] eqn:Ey; try discriminate F1.
  pose proof (round_error_fin (mp * ms) 1 (ep + es) my ey ltac:(lia) Ey) as Hy.
  destruct (fmul_Fin binary32 mq eq mr er) as [E2 V2].
  fold Q S' in V2.
  destruct (round_abs_error binary32 (mq * mr) 1 (eq + er) 2 P32 ltac:(lia))
    as (my' & ey' & Ey' & _ & _).
  { rewrite V2. rewrite Rabs_pos_eq by nra.
    change 2 with (0 + 1 + 1). rewrite !bpow_succ, bpow_0. nra. }
  { simpl; lia. }
  { simpl; lia. }
  pose proof (round_error_fin (mq * mr) 1 (eq + er) my' ey' ltac:(lia) Ey') as Hy'.
  rewrite V1 in Hy. rewrite V2 in Hy'.
  set (Y := F2R my ey) in *. set (Y' := F2R my' ey') in *.
  assert (PS : (0 < 1 <= P * S)%R) by nra.
  assert (QS : (0 < bpow (-129) <= Q * S')%R) by nra.
  apply (rel_error_floor _ _ _ _ 1) in Hy; [|exact PS | rewrite B24; lra | lra].
  apply (rel_error_floor _ _ _ _ (bpow (-129))) in Hy'; [|exact QS | rewrite B24; lra | lra].
  rewrite D21 in Hy'. unfold Rdiv in Hy. rewrite Rinv_1, Rmult_1_r in Hy.
  assert (U1 : (0 <= bpow (-24) + bpow (-150) < 1)%R) by (rewrite B24; lra).
  assert (U2 : (0 <= bpow (-24) + bpow (-21) < 1)%R) by (rewrite B24, B21; lra).
  destruct (rel_error_ratio Y (P * S) _ ltac:(lra) U1 Hy) as [Y0 HC].
  destruct (rel_error_ratio Y' (Q * S') _ ltac:(lra) U2 Hy') as [Y0' HD].
  exists my, ey, my', ey'. split; [|split; [exact Y0|split; [exact Y0'|]]].
  - intros fuel Hf. destruct (Hexp fuel Hf) as [X1 X2]. specialize (X2 Hm).
    destruct (Hpow fuel Hf) as [P1 P2].
    rewrite X1, X2, P1, P2, Er. rewrite E1, E2, Ey'. split; reflexivity.
  - fold Y Y'.
    pose proof (near_one_mul _ _ _ _ HPQ HB) as AB.
    pose proof (near_one_mul _ _ _ _ HC HD) as CD.
    pose proof (near_one_mul _ _ _ _ AB CD) as ABCD.
    replace (P * Q * (S * S') * (Y / (P * S) * (Y' / (Q * S'))))%R with (Y * Y')%R in ABCD
      by (field; lra).
    eapply Rle_trans; [exact ABCD|].
    rewrite B16, B24, B21.
    set (t := bpow (-53)) in *. set (w := bpow (-150)) in *. clearbody t w.
    assert (T2 : (0 < t <= / 1000000000000)%R) by lra.
    assert (W2 : (0 < w <= / 1000000000000)%R) by lra.
    clear - T2 W2. nra.
Qed.

Lemma trunc_zero e : trunc 0 e = 0.
Proof.
  unfold trunc. destruct (Z.leb_spec 0 e); [apply Z.shiftl_0_l|].
  apply Z.quot_0_l. rewrite Z.shiftl_mul_pow2, Z.mul_1_l by lia.
  apply Z.pow_nonzero; lia.
Qed.

Lemma static_exp_zero e fuel :
  (32 <= fuel)%nat -> static_exp fuel (Fin 0 e) = Some (float_of_int 1).
Proof.
  intros Hf.
  destruct (taylor_result (Fin 0 0) eq_refl eq_refl eq_refl) as (sum & term & i & _ & _ & Hloop).
  assert (Es : (sum, term, i) = (float_of_int 1, Fin 0 0, 2)).
  { pose proof (Hloop 11%nat ltac:(lia)) as E. vm_compute in E.
    injection E as <- <- <-. reflexivity. }
  destruct (static_int_pow_total (base_of true) 0 ltac:(lia)) as (p & Hp).
  assert (Ep : p = float_of_int 1).
  { pose proof (Hp 32%nat (le_n _)) as E. vm_compute in E.
    injection E as <-. reflexivity. }
  subst p. injection Es as -> -> ->.
  unfold static_exp. rewrite abs_value. change (Z.abs 0) with 0.
  rewrite (nonneg_flags 0 e (Z.le_refl 0)).
  rewrite to_int_Fin, trunc_zero. cbv beta iota.
  change ((- 2 ^ 31 <=? 0) && (0 <? 2 ^ 31)) with true. cbv iota.
  assert (Er : (Fin 0 e - float_of_int 0)%fp = Fin 0 0).
  { change (float_of_int 0) with (Fin 0 0). unfold fsub, fadd, fneg. cbv beta iota.
    change (- 0) with 0. rewrite ?Z.shiftl_0_l. destruct (e <=? 0); reflexivity. }
  rewrite Er.
  change (while fuel _ _ _) with
    (while fuel taylor_cond (taylor_body (Fin 0 0)) (float_of_int 0, float_of_int 1, 1)).
  rewrite Hloop by lia. cbv beta iota zeta.
  change (to_float (if true then to_double NormalProbabilityDensity.e
                    else (literal 1 1 / to_double NormalProbabilityDensity.e)%double))
    with (base_of true).
  rewrite Hp by lia. reflexivity.
Qed.

Lemma reciprocal_close Y Y' t :
  (0 < Y)%R -> (Rabs (Y * Y' - 1) <= t)%R -> (Rabs (Y' - / Y) <= / Y * t)%R.
Proof.
  intros HY H. assert (I : (0 < / Y)%R) by (apply Rinv_0_lt_compat; auto).
  replace (Y' - / Y)%R with (/ Y * (Y * Y' - 1))%R by (field; lra).
  rewrite Rabs_mult, (Rabs_pos_eq (/ Y)) by lra.
  apply Rmult_le_compat_l; lra.
Qed.

(** C8 (amended).  The exponential returns exactly 1 at 0; at 1 it returns a
    float within 1e-5 of the real number e; and for every binary32 number x
    with |x| <= 1453635 * 2^-14 = 88.72283935546875, the largest float whose
    exponential is finite, both values are finite and the value at -x is
    within a relative 1/50000 of the reciprocal of the value at x. *)
Theorem static_exp_properties :
  (forall fuel, (32 <= fuel)%nat ->
     static_exp fuel (float_of_int 0) = Some (float_of_int 1)) /\
  (exists m e,
     (forall fuel, (32 <= fuel)%nat -> static_exp fuel (float_of_int 1) = Some (Fin m e)) /\
     (Rabs (F2R m e - exp 1) < 1 / 100000)%R) /\
  (forall x,
     representable binary32 x = true ->
     (- exp_cap <= x)%fp = true -> (x <= exp_cap)%fp = true ->
     exists m e m' e',
       (forall fuel, (32 <= fuel)%nat ->
          static_exp fuel x = Some (Fin m e) /\ static_exp fuel (- x)%fp = Some (Fin m' e')) /\
       (0 < F2R m e)%R /\
       (Rabs (F2R m' e' - / F2R m e) <= / F2R m e * (1 / 50000))%R).
Proof.
  split; [|split].
  - intros fuel Hf. exact (static_exp_zero 0 fuel Hf).
  - exists 11401300, (-22). split; [|exact exp_1_close].
    apply static_exp_fuel; vm_compute; reflexivity.
  - intros x Rx Lo Hi.
    destruct x as [|s|m e]; [discriminate Hi | destruct s; [discriminate Lo | discriminate Hi] |].
    unfold exp_cap in Lo, Hi. simpl fneg in Lo. apply fle_Fin in Hi, Lo.
    replace (F2R (- 1453635) (-14)) with (- F2R 1453635 (-14))%R in Lo
      by (rewrite <- F2R_opp; reflexivity).
    destruct (Z.lt_trichotomy m 0) as [Hm|[->|Hm]].
    + assert (Rm : representable binary32 (Fin (- m) e) = true).
      { change (Fin (- m) e) with (fneg (Fin m e)). rewrite representable_neg. exact Rx. }
      assert (Vm : (F2R (- m) e <= F2R 1453635 (-14))%R) by (rewrite F2R_opp; lra).
      destruct (exp_product (- m) e Rm ltac:(lia) Vm)
        as (my & ey & my' & ey' & Hexp & Y0 & Y0' & Hprod).
      rewrite Z.opp_involutive in Hexp.
      exists my', ey', my, ey. split; [|split; [exact Y0'|]].
      * intros fuel Hf. destruct (Hexp fuel Hf) as [A B]. split; [exact B | exact A].
      * apply reciprocal_close; auto. rewrite Rmult_comm. exact Hprod.
    + exists 8388608, (-23), 8388608, (-23).
      assert (V1 : F2R 8388608 (-23) = 1%R) by (unfold F2R, bpow, powerRZ; simpl; lra).
      split; [|split].
      * intros fuel Hf. split; exact (static_exp_zero e fuel Hf).
      * rewrite V1. lra.
      * rewrite V1, Rinv_1, Rminus_diag, Rabs_R0. lra.
    + destruct (exp_product m e Rx Hm Hi)
        as (my & ey & my' & ey' & Hexp & Y0 & Y0' & Hprod).
      exists my, ey, my', ey'. split; [|split; [exact Y0|]].
      * intros fuel Hf. exact (Hexp fuel Hf).
      * apply reciprocal_close; auto.
Qed.

Lemma static_exp_properties_witness :
  exists m e m' e',
    (forall fuel, (32 <= fuel)%nat ->
       static_exp fuel exp_cap = Some (Fin m e) /\
       static_exp fuel (- exp_cap)%fp = Some (Fin m' e')) /\
    (0 < F2R m e)%R /\
    (Rabs (F2R m' e' - / F2R m e) <= / F2R m e * (1 / 50000))%R.
Proof.
  exact (proj2 (proj2 static_exp_properties) exp_cap eq_refl eq_refl eq_refl).
Defined.

(** Counterexample to C8 as stated ("for every x"): at the binary32 number
    x = -11629081 * 2^-17, the first one below -88.72283935546875, the value
    at -x is +infinity while the value at x is a positive finite float, whose
    reciprocal is a finite number. *)
Lemma static_exp_reciprocal_fails :
  representable binary32 (Fin (-11629081) (-17)) = true /\
  static_exp 64 (- Fin (-11629081) (-17))%fp = Some (Inf false) /\
  (exists m e, static_exp 64 (Fin (-11629081) (-17)) = Some (Fin m e) /\ 0 < m).
Proof.
  split; [reflexivity|]. split; [vm_compute; reflexivity|].
  exists 2097145, (-149). split; [vm_compute; reflexivity | reflexivity].
Qed.

Lemma static_int_pow_on_float fuel x n :
  static_int_pow_on float_arith fuel x n = NormalProbabilityDensity.static_int_pow fuel x n.
Proof. reflexivity. Qed.

Lemma pow_halve (x : R) n :
  0 < n ->
  (x ^ Z.to_nat n = (if Z.land n 1 =? 0 then 1 else x) * (x * x) ^ Z.to_nat (Z.shiftr n 1))%R.
Proof.
  intros Hn.
  rewrite Z.shiftr_div_pow2, Z.pow_1_r by lia.
  change 1 with (Z.ones 1) at 1. rewrite Z.land_ones, Z.pow_1_r by lia.
  pose proof (Z.div_mod n 2 ltac:(lia)) as D.
  pose proof (Z.mod_pos_bound n 2 ltac:(lia)) as M.
  assert (Q : 0 <= n / 2) by (apply Z.div_pos; lia).
  replace (x * x)%R with (x ^ 2)%R by ring. rewrite <- pow_mult.
  destruct (Z.eqb_spec (n mod 2) 0) as [E|E].
  - rewrite Rmult_1_l. f_equal. lia.
  - replace (Z.to_nat n) with (S (2 * Z.to_nat (n / 2)))%nat by lia.
    simpl pow. reflexivity.
Qed.

Lemma real_pow_loop k : forall p x n,
  n < 2 ^ Z.of_nat k ->
  forall fuel, (k < fuel)%nat ->
  exists x' n', while fuel real_pow_cond real_pow_body (p, x, n)
                = Some ((p * x ^ Z.to_nat n)%R, x', n').
Proof.
  induction k as [|k IH]; intros p x n Hn fuel Hf.
  - destruct fuel; [lia|]. rewrite while_step. simpl real_pow_cond.
    destruct (Z.ltb_spec 0 n); [simpl in Hn; lia|].
    exists x, n. replace (Z.to_nat n) with 0%nat by lia. simpl. rewrite Rmult_1_r. reflexivity.
  - destruct fuel; [lia|]. rewrite while_step. simpl real_pow_cond.
    destruct (Z.ltb_spec 0 n) as [Hpos|Hneg].
    + unfold real_pow_body at 2.
      destruct (IH (if Z.land n 1 =? 0 then p else (p * x)%R) (x * x)%R (Z.shiftr n 1))
        with (fuel := fuel) as (x' & n' & E); [|lia|].
      { rewrite Z.shiftr_div_pow2, Z.pow_1_r by lia.
        apply Z.div_lt_upper_bound; [lia|]. rewrite <- Z.pow_succ_r by lia.
        rewrite <- Nat2Z.inj_succ. exact Hn. }
      exists x', n'. rewrite E. f_equal. f_equal. f_equal.
      rewrite (pow_halve x n Hpos). destruct (Z.land n 1 =? 0); ring.
    + exists x, n. replace (Z.to_nat n) with 0%nat by lia. simpl. rewrite Rmult_1_r. reflexivity.
Qed.

(** In exact arithmetic the squaring loop computes the power: for every real
    x and every int n it returns x^n when n >= 0 and 1 when n < 0, within
    k + 1 iterations when n < 2^k. *)
Theorem static_int_pow_exact (x : R) (n : Z) (k fuel : nat) :
  n < 2 ^ Z.of_nat k -> (k < fuel)%nat ->
  static_int_pow_on real_arith fuel x n = Some (x ^ Z.to_nat n)%R.
Proof.
  intros Hn Hf. unfold static_int_pow_on.
  change (while fuel _ _ _) with (while fuel real_pow_cond real_pow_body (1%R, x, n)).
  destruct (real_pow_loop k 1%R x n Hn fuel Hf) as (x' & n' & ->).
  rewrite Rmult_1_l. reflexivity.
Qed.

Lemma static_int_pow_exact_witness :
  static_int_pow_on real_arith 32 2%R 10 = Some (2 ^ 10)%R.
Proof.
  exact (static_int_pow_exact 2%R 10 31 32 eq_refl (le_n 32)).
Defined.

(** * The shape of the table, for every configuration *)
Lemma sequence_length {A : Type} (l : list (option A)) : forall fs,
  sequence l = Some fs -> length fs = length l.
Proof.
  induction l as [|[a|] l IH]; intros fs H; simpl in H; try discriminate.
  - injection H as <-. reflexivity.
  - destruct (sequence l) as [t|]; [|discriminate]. injection H as <-.
    simpl. rewrite (IH t); reflexivity.
Qed.

Lemma sequence_None {A : Type} (l : list (option A)) :
  sequence l = None <-> In None l.
Proof.
  induction l as [|[a|] l IH]; simpl.
  - split; [discriminate | tauto].
  - destruct (sequence l) as [t|]; simpl.
    + split; [discriminate|]. intros [H|H]; [discriminate|]. apply IH in H. discriminate.
    + split; auto. intros _. right. apply IH. reflexivity.
  - split; auto.
Qed.

Lemma running_sum_length {T : Type} (A : arith T) kDelta fs : forall sum,
  length (running_sum A kDelta sum fs) = length fs.
Proof. induction fs as [|f t IH]; intros sum; simpl; auto. Qed.

(** For every arithmetic, resolution, pair of limits and density: a table
    that is built has kPoints + 1 entries, the first of which is 0; and no
    table is built exactly when the density has no value at one of the
    kPoints + 1 grid points kLower, kLower + kDelta * 1, ...,
    kLower + kDelta * kPoints. *)
Theorem table_shape {T : Type} (A : arith T) (kPoints : nat) (kLower kUpper : T)
    (density : T -> option T) :
  (forall v, Confidence.cdf_ A kPoints kLower kUpper density = Some v ->
     length v = S kPoints /\ nth_error v 0 = Some (of_Z A 0)) /\
  (Confidence.cdf_ A kPoints kLower kUpper density = None <->
   exists p, In p (sample_points A kPoints kLower (Confidence.kDelta A kPoints kLower kUpper)) /\
             density p = None).
Proof.
  rewrite cdf_of_samples.
  set (pts := sample_points A kPoints kLower (Confidence.kDelta A kPoints kLower kUpper)).
  assert (Lp : length pts = S kPoints).
  { unfold pts, sample_points. simpl. rewrite length_map, length_seq. reflexivity. }
  split.
  - intros v Hv. destruct (sequence (map density pts)) as [fs|] eqn:E; [|discriminate].
    injection Hv as <-. apply sequence_length in E. rewrite length_map, Lp in E.
    destruct fs as [|f0 t]; [discriminate|]. simpl in E. simpl.
    rewrite running_sum_length. split; [lia | reflexivity].
  - destruct (sequence (map density pts)) as [fs|] eqn:E; simpl.
    + split; [discriminate|]. intros (p & Hin & Hp).
      assert (X : In None (map density pts)) by (rewrite <- Hp; apply in_map; exact Hin).
      apply sequence_None in X. congruence.
    + split; auto. intros _. apply sequence_None in E. apply in_map_iff in E.
      destruct E as (p & Hp & Hin). exists p. auto.
Qed.

(** * The score never exceeds 1, whatever the table holds *)
Lemma fmul_two_mono a b :
  fle a b = true -> fle (float_of_int 2 * a)%fp (float_of_int 2 * b)%fp = true.
Proof.
  intros H. destruct (fle_not_nan _ _ H) as [Na Nb].
  change (float_of_int 2) with (Fin 8388608 (-22)).
  destruct a as [|sa|ma ea], b as [|sb|mb eb]; try discriminate.
  - destruct sa, sb; try discriminate; reflexivity.
  - destruct sa; [|discriminate]. simpl fmul at 1. apply fle_Inf_l.
    apply round_not_nan; [apply P32 | lia].
  - destruct sb; [discriminate|]. simpl fmul at 2. apply fle_Inf_r.
    apply round_not_nan; [apply P32 | lia].
  - apply fle_Fin in H. unfold fmul. apply round_mono; try lia; try apply P32.
    rewrite !mult_IZR, !bpow_add. unfold F2R in H.
    assert (P := bpow_pos (-22)).
    assert (0 < IZR 8388608)%R by (apply IZR_lt; reflexivity).
    unfold Rdiv. rewrite Rinv_1, !Rmult_1_r.
    replace (IZR 8388608 * IZR ma * (bpow (-22) * bpow ea))%R
      with ((IZR 8388608 * bpow (-22)) * (IZR ma * bpow ea))%R by ring.
    replace (IZR 8388608 * IZR mb * (bpow (-22) * bpow eb))%R
      with ((IZR 8388608 * bpow (-22)) * (IZR mb * bpow eb))%R by ring.
    apply Rmult_le_compat_l; [|exact H]. apply Rmult_le_pos; lra.
Qed.

Lemma std_min_le_l a b :
  is_nan a = false -> is_nan b = false -> fle (std_min a b) a = true.
Proof.
  intros Na Nb. unfold std_min. destruct (flt b a) eqn:E.
  - apply flt_fle. exact E.
  - apply fle_refl. exact Na.
Qed.

Lemma std_min_le_r a b :
  is_nan a = false -> is_nan b = false -> fle (std_min a b) b = true.
Proof.
  intros Na Nb. unfold std_min. destruct (flt b a) eqn:E.
  - apply fle_refl. exact Nb.
  - apply flt_false_fle; auto.
Qed.

Lemma std_min_glb a b c :
  fle c a = true -> fle c b = true -> fle c (std_min a b) = true.
Proof. intros Ha Hb. unfold std_min. destruct (flt b a); auto. Qed.

Lemma confidence_le_1 c :
  is_nan c = false -> fle (confidence_of c) (float_of_int 1) = true.
Proof.
  intros Nc. unfold confidence_of.
  assert (Half : fle (std_min c (float_of_int 1 - c)%fp) (Fin 1 (-1)) = true).
  { destruct c as [|s|m e]; [discriminate | destruct s; reflexivity |].
    assert (Nd : is_nan (float_of_int 1 - Fin m e)%fp = false).
    { change (float_of_int 1) with (Fin 8388608 (-23)). unfold fsub. simpl fneg.
      apply fadd_not_nan_Fin. apply P32. }
    destruct (fle (Fin m e) (Fin 1 (-1))) eqn:E.
    - apply fle_trans with (Fin m e); auto. apply std_min_le_l; auto.
    - apply fle_trans with (float_of_int 1 - Fin m e)%fp; [apply std_min_le_r; auto|].
      apply fle_trans with (float_of_int 1 - Fin 1 (-1))%fp; [|reflexivity].
      apply fsub_mono; try reflexivity. apply P32.
      apply flt_fle. apply fle_false_flt; auto. }
  change (float_of_int 1) with (float_of_int 2 * Fin 1 (-1))%fp at 2.
  apply fmul_two_mono. exact Half.
Qed.

Lemma confidence_ge_0 c :
  fle (float_of_int 0) c = true -> fle c (float_of_int 1) = true ->
  fle (float_of_int 0) (confidence_of c) = true.
Proof.
  intros H0 H1. unfold confidence_of.
  assert (Fc : is_fin c = true) by (apply (fle_between_fin _ _ _ H0 H1); reflexivity).
  change (float_of_int 0) with (float_of_int 2 * float_of_int 0)%fp at 1.
  apply fmul_two_mono. apply std_min_glb; auto.
  change (float_of_int 0) with (float_of_int 1 - float_of_int 1)%fp at 1.
  apply fsub_mono; try reflexivity; auto. apply P32.
Qed.

Lemma some_eq {A : Type} (a b : A) : Some a = Some b -> a = b.
Proof. intros H. injection H. auto. Qed.

(** For every resolution, limits, table and argument: when no entry of the
    table is a NaN, a score that evaluate returns is at most 1; when every
    entry lies in [0, 1], it is also at least 0. *)
Theorem evaluate_at_most_one (kPoints : nat) (kLower kUpper : fp) (v : list fp) (x y : fp) :
  Forall (fun c => is_nan c = false) v ->
  Confidence.evaluate kPoints kLower kUpper (Some v) x = Some y ->
  (y <= float_of_int 1)%fp = true /\
  (Forall (fun c => (float_of_int 0 <= c)%fp = true /\ (c <= float_of_int 1)%fp = true) v ->
   (float_of_int 0 <= y)%fp = true).
Proof.
  intros Hv H. unfold Confidence.evaluate in H.
  destruct ((x <= kLower)%fp || (x >= kUpper)%fp).
  - apply some_eq in H. subst y. split; reflexivity.
  - destruct (to_int _) as [i|]; [|discriminate].
    destruct (i <? 0); [discriminate|].
    destruct (nth_error v (Z.to_nat i)) as [c|] eqn:E; [|discriminate].
    apply some_eq in H. subst y. apply nth_error_In in E.
    change (float_of_int 2 * std_min c (float_of_int 1 - c))%fp with (confidence_of c). split.
    + apply confidence_le_1. rewrite Forall_forall in Hv. auto.
    + intros Hu. rewrite Forall_forall in Hu. destruct (Hu c E). apply confidence_ge_0; auto.
Qed.

Lemma evaluate_at_most_one_witness :
  Confidence.evaluate 2 (float_of_int 0) (float_of_int 2)
    (Some [float_of_int 0; Fin 3 (-2); float_of_int 1]) (float_of_int 1)
  = Some (Fin 8388608 (-24)) /\
  (Fin 8388608 (-24) <= float_of_int 1)%fp = true.
Proof.
  split; [reflexivity|].
  refine (proj1 (evaluate_at_most_one 2 (float_of_int 0) (float_of_int 2)
                   [float_of_int 0; Fin 3 (-2); float_of_int 1] (float_of_int 1)
                   (Fin 8388608 (-24)) _ eq_refl)).
  repeat constructor.
Defined.

(** * The score is largest at the mean *)
(** For every x that is not a NaN, evaluate x is at most evaluate kMean. *)
Theorem evaluate_max_at_mean x :
  is_nan x = false ->
  exists y top,
    Metric.evaluate x = Some y /\
    Metric.evaluate NormalDistributionParams.kMean = Some top /\
    (y <= top)%fp = true.
Proof.
  intros Hn.
  destruct (cdf_values_nth 5000 ltac:(lia)) as (c0 & Hc0).
  assert (Top : Metric.evaluate NormalDistributionParams.kMean = Some (confidence_of c0)).
  { apply (evaluate_inside _ 5000 c0); [reflexivity | exact bucket_mean | lia | exact Hc0]. }
  destruct (((x <= Limits.kLower) || (x >= Limits.kUpper))%fp) eqn:E.
  - exists (float_of_int 0), (confidence_of c0).
    split; [apply evaluate_outside; auto|]. split; [exact Top|].
    pose proof (confidence_unit _ _ Hc0) as U. unfold unit_interval in U.
    apply andb_prop in U. destruct U as [U _]. apply andb_prop in U. destruct U as [_ U].
    exact U.
  - destruct (inside_range x Hn E) as [H1 H2].
    destruct (evaluate_in_range x H1 H2) as (i & c & B & Hi & Hc & Ev).
    exists (confidence_of c), (confidence_of c0).
    split; [exact Ev|]. split; [exact Top|].
    destruct (Z_le_gt_dec i 5000).
    + apply (confidence_rising i 5000 c c0); auto; lia.
    + apply (confidence_falling 5000 i c0 c); auto; lia.
Qed.

Lemma evaluate_max_at_mean_witness :
  exists y top,
    Metric.evaluate (Fin 1 (-4)) = Some y /\
    Metric.evaluate NormalDistributionParams.kMean = Some top /\
    (y <= top)%fp = true.
Proof. exact (evaluate_max_at_mean (Fin 1 (-4)) eq_refl). Defined.

(** * The table and the cumulative trapezoidal sum, in binary32 *)
Lemma forallb2_nth {A B : Type} (p : A -> B -> bool) (l : list A) : forall l' i a b,
  forallb2 p l l' = true -> nth_error l i = Some a -> nth_error l' i = Some b -> p a b = true.
Proof.
  induction l as [|h t IH]; intros [|h' t'] i a b H Ha Hb; try discriminate;
    try (destruct i; discriminate).
  simpl in H. apply andb_prop in H. destruct H as [H1 H2].
  destruct i as [|i]; simpl in Ha, Hb.
  - injection Ha as <-. injection Hb as <-. exact H1.
  - apply (IH t' i); auto.
Qed.

Lemma trapezoid_values_eq :
  trapezoid_values = cumulative_trapezoid float_arith Metric.kDelta f_vals.
Proof. vm_compute. reflexivity. Qed.

(** In the reference configuration every entry of the table differs from the
    same entry of the cumulative trapezoidal sum, computed in binary32 from
    the same density samples, by at most 2^-19. *)
Theorem table_near_trapezoid :
  exists v, Metric.cdf_ = Some v /\
    forall i c t,
      nth_error v i = Some c ->
      nth_error (cumulative_trapezoid float_arith Metric.kDelta f_vals) i = Some t ->
      exists mc ec mt et, c = Fin mc ec /\ t = Fin mt et /\
        (Rabs (F2R mc ec - F2R mt et) <= bpow (-19))%R.
Proof.
  exists cdf_values. split; [exact Metric_cdf_eq|].
  intros i c t Hc Ht.
  rewrite <- trapezoid_values_eq in Ht.
  pose proof (forallb2_nth _ _ _ i c t trapezoid_close Hc Ht) as H.
  destruct (close_sound _ _ _ _ H) as (mc & ec & mt & et & -> & -> & Hb).
  exists mc, ec, mt, et. split; [reflexivity|]. split; [reflexivity|].
  eapply Rle_trans; [exact Hb|]. unfold F2R. rewrite Rmult_1_l. lra.
Qed.

(** * The range of the exponential *)
Lemma fmul_ge_one a b :
  fle (float_of_int 1) a = true -> fle (float_of_int 1) b = true ->
  fle (float_of_int 1) (a * b)%fp = true.
Proof.
  intros Ha Hb.
  assert (Pos : forall m e, fle (float_of_int 1) (Fin m e) = true -> 0 < m).
  { intros m e H. apply (float_of_int_small 1 ltac:(simpl; lia)) in H.
    apply lt_IZR. unfold F2R in H. pose proof (bpow_pos e). nra. }
  destruct a as [|sa|ma ea], b as [|sb|mb eb]; try discriminate.
  - destruct sa, sb; try discriminate. reflexivity.
  - destruct sa; [discriminate|]. pose proof (Pos _ _ Hb). simpl.
    destruct (Z.eqb_spec mb 0); [lia|]. destruct (Z.ltb_spec mb 0); [lia|]. reflexivity.
  - destruct sb; [discriminate|]. pose proof (Pos _ _ Ha). simpl.
    destruct (Z.eqb_spec ma 0); [lia|]. destruct (Z.ltb_spec ma 0); [lia|]. reflexivity.
  - change (float_of_int 1) with (float_of_int 1 * float_of_int 1)%fp at 1.
    apply fmul_mono; auto; try reflexivity. apply P32.
Qed.

Lemma unit01_fin a : unit01 a -> is_fin a = true.
Proof. intros [H0 H1]. apply (fle_between_fin _ _ _ H0 H1); reflexivity. Qed.

Lemma fmul_unit01 a b : unit01 a -> unit01 b -> unit01 (a * b)%fp.
Proof.
  intros Ha Hb. pose proof (unit01_fin a Ha). pose proof (unit01_fin b Hb).
  destruct Ha as [A0 A1], Hb as [B0 B1]. split.
  - change (float_of_int 0) with (float_of_int 0 * float_of_int 0)%fp at 1.
    apply fmul_mono; auto; try reflexivity. apply P32.
  - change (float_of_int 1) with (float_of_int 1 * float_of_int 1)%fp.
    apply fmul_mono; auto. apply P32.
Qed.

Lemma pow_ge_one fuel : forall p x n s,
  fle (float_of_int 1) p = true -> fle (float_of_int 1) x = true ->
  while fuel pow_cond pow_body (p, x, n) = Some s ->
  fle (float_of_int 1) (fst (fst s)) = true.
Proof.
  induction fuel as [|fuel IH]; intros p x n s Hp Hx H; [discriminate|].
  rewrite while_step in H. simpl pow_cond in H. destruct (0 <? n).
  - unfold pow_body in H at 2. apply IH in H; auto.
    + destruct (Z.land n 1 =? 0); auto. apply fmul_ge_one; auto.
    + apply fmul_ge_one; auto.
  - apply some_eq in H. subst s. exact Hp.
Qed.

Lemma pow_le_one fuel : forall p x n s,
  unit01 p -> unit01 x ->
  while fuel pow_cond pow_body (p, x, n) = Some s -> unit01 (fst (fst s)).
Proof.
  induction fuel as [|fuel IH]; intros p x n s Hp Hx H; [discriminate|].
  rewrite while_step in H. simpl pow_cond in H. destruct (0 <? n).
  - unfold pow_body in H at 2. apply IH in H; auto.
    + destruct (Z.land n 1 =? 0); auto. apply fmul_unit01; auto.
    + apply fmul_unit01; auto.
  - apply some_eq in H. subst s. exact Hp.
Qed.

Lemma static_int_pow_while fuel b n p :
  static_int_pow fuel b n = Some p ->
  exists s, while fuel pow_cond pow_body (float_of_int 1, b, n) = Some s /\ fst (fst s) = p.
Proof.
  unfold static_int_pow.
  change (while fuel _ _ _) with (while fuel pow_cond pow_body (float_of_int 1, b, n)).
  generalize (while fuel pow_cond pow_body (float_of_int 1, b, n)).
  intros [[[p' x'] n']|] H; [|discriminate].
  apply some_eq in H. subst p'. eexists. split; reflexivity.
Qed.

Lemma recip_unit ms es :
  (1 <= F2R ms es)%R -> unit01 (recip (Fin ms es)).
Proof.
  intros HS. unfold recip, to_double, to_float.
  change (literal 1 1) with (Fin 4503599627370496 (-52)).
  assert (Vo : F2R 4503599627370496 (-52) = 1%R) by (unfold F2R, bpow, powerRZ; simpl; lra).
  assert (Hms : ms <> 0).
  { intros ->. rewrite F2R_0 in HS. lra. }
  destruct (fdiv_Fin binary64 4503599627370496 (-52) ms es Hms) as (n & d & e' & -> & Hd & V).
  rewrite Vo in V.
  assert (I : (0 < / F2R ms es <= 1)%R).
  { split; [apply Rinv_0_lt_compat; lra|].
    rewrite <- Rinv_1. apply Rinv_le_contravar; lra. }
  unfold Rdiv in V at 2. rewrite Rmult_1_l in V.
  assert (L : fle (round binary64 0 1 0) (round binary64 n d e') = true).
  { apply round_mono; try lia; try apply P64. rewrite V.
    replace (IZR 0 / IZR 1 * bpow 0)%R with 0%R by (unfold Rdiv; ring). lra. }
  assert (U : fle (round binary64 n d e') (round binary64 1 1 0) = true).
  { apply round_mono; try lia; try apply P64. rewrite V.
    replace (IZR 1 / IZR 1 * bpow 0)%R with 1%R by (rewrite bpow_0; field). lra. }
  assert (F : is_fin (round binary64 n d e') = true).
  { apply (fle_between_fin _ _ _ L U); reflexivity. }
  destruct (round binary64 n d e') as [| |my ey]; try discriminate.
  change (round binary64 0 1 0) with (Fin 0 0) in L.
  change (round binary64 1 1 0) with (Fin 4503599627370496 (-52)) in U.
  apply fle_Fin in L, U. rewrite F2R_0 in L. rewrite Vo in U.
  simpl cvt. unfold unit01. split.
  - change (float_of_int 0) with (round binary32 0 1 0).
    apply round_mono; try lia; try apply P32.
    replace (IZR 0 / IZR 1 * bpow 0)%R with 0%R by (unfold Rdiv; ring).
    replace (IZR my / IZR 1 * bpow ey)%R with (F2R my ey) by (unfold F2R; field). exact L.
  - change (float_of_int 1) with (round binary32 1 1 0).
    apply round_mono; try lia; try apply P32.
    replace (IZR 1 / IZR 1 * bpow 0)%R with 1%R by (rewrite bpow_0; field).
    replace (IZR my / IZR 1 * bpow ey)%R with (F2R my ey) by (unfold F2R; field). exact U.
Qed.

Lemma exp_branches m e :
  representable binary32 (Fin m e) = true -> 0 < m -> (F2R m e < IZR (2 ^ 31))%R ->
  exists y y',
    (forall fuel, (32 <= fuel)%nat ->
       static_exp fuel (Fin m e) = Some y /\ static_exp fuel (Fin (- m) e) = Some y') /\
    fle (float_of_int 1) y = true /\ unit01 y'.
Proof.
  intros Rm Hm Hv.
  destruct (static_exp_shape m e Rm ltac:(lia) Hv) as (n & sum & Hn & _ & S1 & S3 & Hexp).
  destruct (static_int_pow_total (base_of true) n ltac:(lia)) as (p & Hp).
  destruct (static_int_pow_total (base_of false) n ltac:(lia)) as (q & Hq).
  assert (Fsum : is_fin sum = true) by (apply (fle_between_fin _ _ _ S1 S3); reflexivity).
  exists (p * sum)%fp, (q * recip sum)%fp. split; [|split].
  - intros fuel Hf. destruct (Hexp fuel Hf) as [X1 X2]. rewrite X1, (X2 Hm), Hp, Hq by auto.
    split; reflexivity.
  - apply fmul_ge_one; auto.
    destruct (static_int_pow_while 32 _ _ _ (Hp 32%nat (le_n _))) as (s & Hs & <-).
    apply (pow_ge_one 32 (float_of_int 1) (base_of true) n s eq_refl eq_refl Hs).
  - apply fmul_unit01.
    + destruct (static_int_pow_while 32 _ _ _ (Hq 32%nat (le_n _))) as (s & Hs & <-).
      apply (pow_le_one 32 (float_of_int 1) (base_of false) n s); auto; split; reflexivity.
    + destruct sum as [| |ms es]; try discriminate. apply recip_unit.
      apply (float_of_int_small 1 ltac:(simpl; lia)) in S1. exact S1.
Qed.

Lemma static_exp_bounds x :
  representable binary32 x = true ->
  (float_of_int (- 2147483648) < x)%fp = true -> (x < float_of_int 2147483648)%fp = true ->
  exists y,
    (forall fuel, (32 <= fuel)%nat -> static_exp fuel x = Some y) /\
    ((float_of_int 0 <= x)%fp = true -> (float_of_int 1 <= y)%fp = true) /\
    ((x <= float_of_int 0)%fp = true ->
     (float_of_int 0 <= y)%fp = true /\ (y <= float_of_int 1)%fp = true).
Proof.
  intros Rx Lo Hi.
  destruct x as [|s|m e]; [discriminate Hi | destruct s; [discriminate Lo | discriminate Hi] |].
  change (float_of_int 2147483648) with (Fin 8388608 8) in Hi.
  change (float_of_int (- 2147483648)) with (Fin (- 8388608) 8) in Lo.
  apply flt_Fin in Hi, Lo.
  replace (F2R (-8388608) 8) with (- F2R 8388608 8)%R in Lo by (rewrite <- F2R_opp; reflexivity).
  rewrite F2R_pow31 in Lo, Hi.
  assert (P := bpow_pos e).
  destruct (Z.lt_trichotomy m 0) as [Hm|[->|Hm]].
  - assert (Rm : representable binary32 (Fin (- m) e) = true).
    { change (Fin (- m) e) with (fneg (Fin m e)). rewrite representable_neg. exact Rx. }
    assert (Vm : (F2R (- m) e < IZR (2 ^ 31))%R) by (rewrite F2R_opp; lra).
    destruct (exp_branches (- m) e Rm ltac:(lia) Vm) as (y & y' & Hexp & Hy & Hy').
    rewrite Z.opp_involutive in Hexp.
    exists y'. split; [intros fuel Hf; apply (Hexp fuel Hf)|]. split.
    + intros H. change (float_of_int 0) with (Fin 0 0) in H. apply fle_Fin in H.
      rewrite F2R_0 in H. unfold F2R in H. apply IZR_lt in Hm. nra.
    + intros _. exact Hy'.
  - exists (float_of_int 1). split; [intros fuel Hf; apply static_exp_zero; auto|].
    split; intros _; [|split]; reflexivity.
  - destruct (exp_branches m e Rx Hm Hi) as (y & y' & Hexp & Hy & Hy').
    exists y. split; [intros fuel Hf; apply (Hexp fuel Hf)|]. split.
    + intros _. exact Hy.
    + intros H. change (float_of_int 0) with (Fin 0 0) in H. apply fle_Fin in H.
      rewrite F2R_0 in H. unfold F2R in H. apply IZR_lt in Hm. nra.
Qed.

(** For every float x with -2^31 < x < 2^31 the exponential has a value y,
    which is never a NaN: y >= 1 when x >= 0 (it may be +infinity), and
    0 <= y <= 1 when x <= 0. *)
Theorem static_exp_range x :
  representable binary32 x = true ->
  (float_of_int (- 2147483648) < x)%fp = true -> (x < float_of_int 2147483648)%fp = true ->
  exists y,
    (forall fuel, (32 <= fuel)%nat -> static_exp fuel x = Some y) /\
    ((float_of_int 0 <= x)%fp = true -> (float_of_int 1 <= y)%fp = true) /\
    ((x <= float_of_int 0)%fp = true ->
     (float_of_int 0 <= y)%fp = true /\ (y <= float_of_int 1)%fp = true).
Proof. exact (static_exp_bounds x). Qed.

Lemma static_exp_range_witness :
  exists y,
    (forall fuel, (32 <= fuel)%nat -> static_exp fuel (Fin (-5) (-1)) = Some y) /\
    ((float_of_int 0 <= Fin (-5) (-1))%fp = true -> (float_of_int 1 <= y)%fp = true) /\
    ((Fin (-5) (-1) <= float_of_int 0)%fp = true ->
     (float_of_int 0 <= y)%fp = true /\ (y <= float_of_int 1)%fp = true).
Proof. exact (static_exp_range (Fin (-5) (-1)) eq_refl eq_refl eq_refl). Defined.

(** * The range of the density *)
Lemma round_nonpos f n d e :
  1 <= prec f -> 0 < d -> (IZR n / IZR d * bpow e <= 0)%R ->
  fle (round f n d e) (Fin 0 0) = true.
Proof.
  intros Hp Hd H. change (Fin 0 0) with (round f 0 1 0).
  apply round_mono; auto; try lia.
  replace (IZR 0 / IZR 1 * bpow 0)%R with 0%R by (unfold Rdiv; ring). exact H.
Qed.

Lemma round_nonneg f n d e :
  1 <= prec f -> 0 < d -> (0 <= IZR n / IZR d * bpow e)%R ->
  fle (Fin 0 0) (round f n d e) = true.
Proof.
  intros Hp Hd H. change (Fin 0 0) with (round f 0 1 0).
  apply round_mono; auto; try lia.
  replace (IZR 0 / IZR 1 * bpow 0)%R with 0%R by (unfold Rdiv; ring). exact H.
Qed.

Lemma cvt_mono f a b :
  1 <= prec f -> fle a b = true -> is_fin a = true -> is_fin b = true ->
  fle (cvt f a) (cvt f b) = true.
Proof.
  intros Hp H Fa Fb. destruct a as [| |ma ea], b as [| |mb eb]; try discriminate.
  apply fle_Fin in H. simpl. apply round_mono; auto; try lia.
  unfold F2R in H. unfold Rdiv. rewrite Rinv_1, !Rmult_1_r. exact H.
Qed.

Lemma power_nonpos x :
  is_fin x = true ->
  fle density_lo x = true -> fle x density_hi = true ->
  fle (power_of x) (float_of_int 0) = true.
Proof.
  intros Fx Lo Hi. unfold power_of, to_double, to_float.
  set (d := (x - NormalDistributionParams.kMean)%fp).
  assert (Wd : within d_bound d = true).
  { unfold within. apply andb_true_intro. split.
    - apply fle_trans with (density_lo - NormalDistributionParams.kMean)%fp;
        [reflexivity|]. apply fsub_mono; auto. apply P32.
    - apply fle_trans with (density_hi - NormalDistributionParams.kMean)%fp;
        [|reflexivity]. apply fsub_mono; auto. apply P32. }
  assert (W1 : within (literal 5 10 * d_bound)%double (- literal 5 10 * d)%double = true).
  { apply fmul_within; auto. apply P64. }
  assert (W2 : within (literal 5 10 * d_bound * d_bound)%double
                      (- literal 5 10 * d * d)%double = true).
  { apply fmul_within; auto. apply P64. }
  assert (W3 : within (literal 5 10 * d_bound * d_bound / Fin 13958644 (-29))%double
                      (- literal 5 10 * d * d / Fin 13958644 (-29))%double = true).
  { apply fdiv_within; auto. apply P64. lia. }
  change NormalDistributionParams.kStdev with (Fin 13958644 (-29)).
  destruct (within_Fin _ _ Wd eq_refl) as (? & ? & md & ed & _ & Ed & _).
  destruct (within_Fin _ _ W1 eq_refl) as (? & ? & mt & et & _ & Et & _).
  destruct (within_Fin _ _ W2 eq_refl) as (? & ? & mu & eu & _ & Eu & _).
  destruct (within_Fin _ _ W3 eq_refl) as (? & ? & mw & ew & _ & Ew & _).
  clear W1 W2 W3 Wd. clearbody d. subst d.
  assert (S0 : (0 < F2R 13958644 (-29))%R).
  { unfold F2R. apply Rmult_lt_0_compat; [apply IZR_lt; reflexivity | apply bpow_pos]. }
  (* the sign of each intermediate result *)
  assert (TD : (F2R mt et * F2R md ed <= 0)%R).
  { change (- literal 5 10)%double with (Fin (-4503599627370496) (-53)) in Et.
    destruct (fmul_Fin binary64 (-4503599627370496) (-53) md ed) as [E V].
    rewrite E in Et.
    assert (C : (F2R (-4503599627370496) (-53) < 0)%R).
    { replace (F2R (-4503599627370496) (-53)) with (- F2R 4503599627370496 (-53))%R
        by (rewrite <- F2R_opp; reflexivity).
      unfold F2R.
      assert (0 < IZR 4503599627370496 * bpow (-53))%R; [|lra].
      apply Rmult_lt_0_compat; [apply IZR_lt; reflexivity | apply bpow_pos]. }
    destruct (Rle_lt_dec 0 (F2R md ed)) as [D|D].
    - assert (T : fle (Fin mt et) (Fin 0 0) = true).
      { rewrite <- Et. apply round_nonpos; [apply P64 | lia |]. rewrite V. nra. }
      apply fle_Fin in T. rewrite F2R_0 in T. nra.
    - assert (T : fle (Fin 0 0) (Fin mt et) = true).
      { rewrite <- Et. apply round_nonneg; [apply P64 | lia |]. rewrite V. nra. }
      apply fle_Fin in T. rewrite F2R_0 in T. nra. }
  assert (U : (F2R mu eu <= 0)%R).
  { rewrite Et in Eu. destruct (fmul_Fin binary64 mt et md ed) as [E V]. rewrite E in Eu.
    assert (T : fle (Fin mu eu) (Fin 0 0) = true).
    { rewrite <- Eu. apply round_nonpos; [apply P64 | lia |]. rewrite V. exact TD. }
    apply fle_Fin in T. rewrite F2R_0 in T. exact T. }
  assert (W : (F2R mw ew <= 0)%R).
  { rewrite Eu in Ew.
    destruct (fdiv_Fin binary64 mu eu 13958644 (-29) ltac:(lia)) as (n & dd & e' & E & Hd & V).
    rewrite E in Ew.
    assert (T : fle (Fin mw ew) (Fin 0 0) = true).
    { rewrite <- Ew. apply round_nonpos; [apply P64 | lia |]. rewrite V.
      unfold Rdiv. assert (0 < / F2R 13958644 (-29))%R by (apply Rinv_0_lt_compat; auto). nra. }
    apply fle_Fin in T. rewrite F2R_0 in T. exact T. }
  rewrite Ew.
  destruct (fdiv_Fin binary64 mw ew 13958644 (-29) ltac:(lia)) as (n & dd & e' & E & Hd & V).
  rewrite E.
  assert (Z4 : fle (round binary64 n dd e') (Fin 0 0) = true).
  { apply round_nonpos; [apply P64 | lia |]. rewrite V.
    unfold Rdiv. assert (0 < / F2R 13958644 (-29))%R by (apply Rinv_0_lt_compat; auto). nra. }
  destruct (round binary64 n dd e') as [|s|m4 e4] eqn:E4.
  - discriminate.
  - destruct s; [reflexivity | discriminate].
  - apply fle_Fin in Z4. rewrite F2R_0 in Z4. simpl cvt.
    change (float_of_int 0) with (Fin 0 0).
    apply round_nonpos; [apply P32 | lia |].
    unfold Rdiv. rewrite Rinv_1, Rmult_1_r. exact Z4.
Qed.

Lemma density_bounds x :
  is_fin x = true ->
  fle density_lo x = true -> fle x density_hi = true ->
  exists y,
    (forall fuel, (32 <= fuel)%nat -> density_eval fuel x = Some y) /\
    fle (float_of_int 0) y = true /\ fle y density_top = true.
Proof.
  intros Fx Lo Hi.
  destruct (power_in_int_range x Fx Lo Hi) as (Fp & Rp & W1 & W2).
  destruct (static_exp_bounds (power_of x) Rp W1 W2) as (ex & Hex & _ & Hu).
  destruct (Hu (power_nonpos x Fx Lo Hi)) as [E0 E1].
  assert (Fe : is_fin ex = true) by (apply (fle_between_fin _ _ _ E0 E1); reflexivity).
  assert (X : fle (density_scale * float_of_int 0)%double (density_scale * ex)%double = true)
    by (apply fmul_mono; auto; try reflexivity; apply P64).
  assert (Y : fle (density_scale * ex)%double (density_scale * float_of_int 1)%double = true)
    by (apply fmul_mono; auto; try reflexivity; apply P64).
  assert (F : is_fin (density_scale * ex)%double = true)
    by (apply (fle_between_fin _ _ _ X Y); reflexivity).
  exists (to_float (density_scale * to_double ex)%double).
  split; [|split].
  - intros fuel Hf. rewrite density_eval_unfold, Hex by auto. reflexivity.
  - apply fle_trans with (to_float (density_scale * to_double (float_of_int 0))%double);
      [reflexivity|].
    unfold to_float, to_double. apply cvt_mono; [apply P32 | exact X | reflexivity | exact F].
  - unfold density_top, to_float, to_double.
    apply cvt_mono; [apply P32 | exact Y | exact F | reflexivity].
Qed.

Lemma density_at_mean fuel :
  (32 <= fuel)%nat -> density_eval fuel NormalDistributionParams.kMean = Some density_top.
Proof.
  intros Hf. rewrite density_eval_unfold.
  change (power_of NormalDistributionParams.kMean) with (Fin 0 0).
  rewrite static_exp_zero by auto. reflexivity.
Qed.

(** For every finite x with |x| <= 1000 the density has a value y with
    0 <= y <= top, where top is its value at the mean. *)
Theorem density_range x :
  is_fin x = true ->
  (float_of_int (-1000) <= x)%fp = true -> (x <= float_of_int 1000)%fp = true ->
  exists y top,
    (forall fuel, (32 <= fuel)%nat ->
       density_eval fuel x = Some y /\
       density_eval fuel NormalDistributionParams.kMean = Some top) /\
    (float_of_int 0 <= y)%fp = true /\ (y <= top)%fp = true.
Proof.
  intros Fx Lo Hi.
  destruct (density_bounds x Fx) as (y & Hy & Y0 & Y1).
  { apply fle_trans with (float_of_int (-1000)); [reflexivity | exact Lo]. }
  { apply fle_trans with (float_of_int 1000); [exact Hi | reflexivity]. }
  exists y, density_top. split; [|split; [exact Y0 | exact Y1]].
  intros fuel Hf. split; [apply Hy; exact Hf | apply density_at_mean; exact Hf].
Qed.

Lemma density_range_witness :
  exists y top,
    (forall fuel, (32 <= fuel)%nat ->
       density_eval fuel (Fin 1 (-4)) = Some y /\
       density_eval fuel NormalDistributionParams.kMean = Some top) /\
    (float_of_int 0 <= y)%fp = true /\ (y <= top)%fp = true.
Proof. exact (density_range (Fin 1 (-4)) eq_refl eq_refl eq_refl). Defined.

(** * What [test_equal] accepts *)
Lemma representable_le_max m e :
  representable binary32 (Fin m e) = true -> (Rabs (F2R m e) <= F2R 16777215 104)%R.
Proof.
  unfold representable. simpl prec. simpl emin. simpl emax.
  assert (Max : F2R 16777215 104 = (bpow 128 - bpow 104)%R).
  { unfold F2R. change 16777215 with (2 ^ 24 - 1). rewrite minus_IZR, bpow_IZR by lia.
    change 128 with (24 + 104). rewrite bpow_add. ring. }
  assert (P104 := bpow_pos 104).
  destruct (Z.eqb_spec m 0) as [->|Hm0].
  - intros _. rewrite F2R_0, Rabs_R0, Max.
    assert (bpow 104 < bpow 128)%R by (apply bpow_lt; lia). lra.
  - simpl. intros H. apply andb_prop in H. destruct H as [H H3].
    apply andb_prop in H. destruct H as [H1 H2].
    apply Z.ltb_lt in H1, H3. apply Z.leb_le in H2.
    set (a := Z.abs m) in *. assert (Ha : 0 < a) by (unfold a; lia).
    assert (Eabs : Rabs (F2R m e) = (IZR a * bpow e)%R).
    { unfold F2R. rewrite Rabs_mult, <- abs_IZR. fold a.
      rewrite (Rabs_pos_eq (bpow e)); [reflexivity | left; apply bpow_pos]. }
    rewrite Eabs. assert (Pe := bpow_pos e).
    destruct (Z_le_gt_dec e 104) as [He|He].
    + unfold F2R. apply Rmult_le_compat; try lra.
      * apply IZR_le. lia.
      * apply IZR_le. lia.
      * apply bpow_le. lia.
    + pose proof (Z.log2_nonneg a) as L0.
      assert (La : a < 2 ^ (128 - e)).
      { destruct (Z.log2_spec a Ha) as [_ L].
        eapply Z.lt_le_trans; [exact L|]. apply Z.pow_le_mono_r; lia. }
      assert (A1 : (IZR a <= bpow (128 - e) - 1)%R).
      { rewrite <- bpow_IZR by lia. rewrite <- minus_IZR. apply IZR_le. lia. }
      apply Rle_trans with ((bpow (128 - e) - 1) * bpow e)%R.
      * apply Rmult_le_compat_r; lra.
      * rewrite Max. rewrite Rmult_minus_distr_r, <- bpow_add, Rmult_1_l.
        replace (128 - e + e) with 128 by lia.
        assert (bpow 104 <= bpow e)%R by (apply bpow_le; lia). lra.
Qed.

Lemma fadd_error m1 e1 m2 e2 m e :
  fadd binary32 (Fin m1 e1) (Fin m2 e2) = Fin m e ->
  (Rabs (F2R m e - (F2R m1 e1 + F2R m2 e2))
   <= bpow (-24) * Rabs (F2R m1 e1 + F2R m2 e2) + bpow (-150))%R.
Proof.
  intros H. destruct (fadd_Fin binary32 m1 e1 m2 e2) as (n & e' & E & V).
  rewrite E in H.
  destruct (round_spec binary32 n 1 e' P32 ltac:(lia)) as (r & HR & HC & _).
  rewrite H in HC. rewrite V in HR.
  destruct HC as [[_ C]|[[_ C]|[_ (m' & e'' & C & <-)]]]; try discriminate.
  injection C as <- <-. apply rounded_error_any. exact HR.
Qed.

(** When [test_equal x y] holds for a float y, both arguments are finite and
    they differ by less than 0.001001 plus 2^-24 times |y|: the test accepts
    nothing that is farther apart than its accuracy and one rounding. *)
Theorem test_equal_sound x y :
  representable binary32 y = true -> tests.test_equal x y = true ->
  exists mx ex my ey, x = Fin mx ex /\ y = Fin my ey /\
    (Rabs (F2R mx ex - F2R my ey) < 1001 / 1000000 + bpow (-24) * Rabs (F2R my ey))%R.
Proof.
  intros Ry H. unfold tests.test_equal in H. apply andb_prop in H. destruct H as [H1 H2].
  change tests.accuracy with (Fin 8589935 (-33)) in H1, H2.
  destruct y as [|s|my ey].
  - destruct x; discriminate H1.
  - destruct s.
    + destruct x as [|[]|]; discriminate H2.
    + destruct x as [|[]|]; discriminate H1.
  - pose proof (representable_le_max my ey Ry) as Bm. apply Rabs_bounds in Bm.
    assert (Ly : fle (Fin (-16777215) 104) (Fin my ey) = true).
    { apply fle_Fin.
      replace (F2R (-16777215) 104) with (- F2R 16777215 104)%R
        by (rewrite <- F2R_opp; reflexivity). lra. }
    assert (Uy : fle (Fin my ey) (Fin 16777215 104) = true) by (apply fle_Fin; lra).
    assert (F2 : is_fin (Fin my ey + Fin 8589935 (-33))%fp = true).
    { apply (fle_between_fin (Fin (-16777215) 104 + Fin 8589935 (-33))%fp _
                             (Fin 16777215 104 + Fin 8589935 (-33))%fp);
        try reflexivity; apply fadd_mono; auto; try reflexivity; apply P32. }
    assert (F1 : is_fin (Fin my ey - Fin 8589935 (-33))%fp = true).
    { apply (fle_between_fin (Fin (-16777215) 104 - Fin 8589935 (-33))%fp _
                             (Fin 16777215 104 - Fin 8589935 (-33))%fp);
        try reflexivity; apply fsub_mono; auto; try reflexivity; apply P32. }
    destruct (Fin my ey + Fin 8589935 (-33))%fp as [| |m2 e2] eqn:E2; try discriminate.
    destruct (Fin my ey - Fin 8589935 (-33))%fp as [| |m1 e1] eqn:E1; try discriminate.
    destruct x as [|sx|mx ex]; [discriminate H1 | destruct sx; discriminate |].
    apply flt_Fin in H1, H2.
    apply fadd_error in E2. unfold fsub in E1. simpl fneg in E1. apply fadd_error in E1.
    replace (F2R (- 8589935) (-33)) with (- F2R 8589935 (-33))%R in E1
      by (rewrite <- F2R_opp; reflexivity).
    exists mx, ex, my, ey. split; [reflexivity|]. split; [reflexivity|].
    set (X := F2R mx ex) in *. set (Y := F2R my ey) in *.
    set (R1 := F2R m1 e1) in *. set (R2 := F2R m2 e2) in *.
    assert (A : (0 < F2R 8589935 (-33) < 10000001 / 10000000000)%R).
    { unfold F2R, bpow, powerRZ. simpl. lra. }
    set (acc := F2R 8589935 (-33)) in *.
    assert (B24 : bpow (-24) = (/ 16777216)%R).
    { unfold bpow, powerRZ. simpl. apply f_equal. lra. }
    assert (B150 : (0 < bpow (-150) <= / 1000000000000)%R).
    { split; [apply bpow_pos|].
      apply Rle_trans with (bpow (-40)); [apply bpow_le; lia|].
      unfold bpow, powerRZ. simpl. apply Rinv_le_contravar; lra. }
    assert (T2 : (Rabs (Y + acc) <= Rabs Y + acc)%R).
    { eapply Rle_trans; [apply Rabs_triang|]. rewrite (Rabs_pos_eq acc); lra. }
    assert (T1 : (Rabs (Y + - acc) <= Rabs Y + acc)%R).
    { eapply Rle_trans; [apply Rabs_triang|]. rewrite Rabs_Ropp, (Rabs_pos_eq acc); lra. }
    apply Rabs_bounds in E1, E2.
    pose proof (Rabs_pos Y) as PY.
    rewrite B24 in *.
    set (t := bpow (-150)) in *. clearbody t.
    apply Rabs_def1.
    + assert (X - Y < acc + (/ 16777216 * (Rabs Y + acc) + t))%R by nra. nra.
    + assert (Y - X < acc + (/ 16777216 * (Rabs Y + acc) + t))%R by nra. nra.
Qed.

Lemma test_equal_sound_witness :
  exists mx ex my ey, Fin 1023 (-10) = Fin mx ex /\ float_of_int 1 = Fin my ey /\
    (Rabs (F2R mx ex - F2R my ey) < 1001 / 1000000 + bpow (-24) * Rabs (F2R my ey))%R.
Proof. exact (test_equal_sound (Fin 1023 (-10)) (float_of_int 1) eq_refl eq_refl). Defined.

(** * A density that is never negative gives a table that never decreases *)
Lemma round_id m e :
  representable binary32 (Fin m e) = true ->
  exists m2 e2, round binary32 m 1 e = Fin m2 e2 /\ F2R m2 e2 = F2R m e.
Proof.
  intros Hr. pose proof (representable_le_max m e Hr) as Bm.
  destruct (representable_abs m e Hr) as [->|[A B]].
  - exists 0, 0. split; [reflexivity|]. rewrite !F2R_0. reflexivity.
  - apply (round_exact binary32 m 1 e m e P32); auto; try lia.
    + unfold F2R. field.
    + simpl emax. apply Rabs_bounds in Bm.
      assert (F2R 16777215 104 < bpow 128)%R.
      { unfold F2R. change 128 with (24 + 104). rewrite bpow_add.
        apply Rmult_lt_compat_r; [apply bpow_pos|]. rewrite <- bpow_IZR by lia.
        apply IZR_lt. reflexivity. }
      lra.
Qed.

Lemma nonneg_cases a :
  fle (Fin 0 0) a = true -> a = Inf false \/ exists m e, a = Fin m e /\ (0 <= F2R m e)%R.
Proof.
  destruct a as [|[]|m e]; try discriminate; auto.
  intros H. apply fle_Fin in H. rewrite F2R_0 in H. right. eauto.
Qed.

Lemma fadd_nonneg_mono a1 a2 b1 b2 :
  fle (Fin 0 0) a1 = true -> fle a1 a2 = true ->
  fle (Fin 0 0) b1 = true -> fle b1 b2 = true ->
  fle (a1 + b1)%fp (a2 + b2)%fp = true.
Proof.
  intros A0 A B0 B.
  destruct a1 as [|[]|m1 e1]; try discriminate;
    destruct a2 as [|[]|m2 e2]; try discriminate;
    destruct b1 as [|[]|m3 e3]; try discriminate;
    destruct b2 as [|[]|m4 e4]; try discriminate; try reflexivity.
  - simpl fadd at 2. apply fle_Inf_r. apply fadd_not_nan_Fin. apply P32.
  - simpl fadd at 2. apply fle_Inf_r. apply fadd_not_nan_Fin. apply P32.
  - simpl fadd at 2. apply fle_Inf_r. apply fadd_not_nan_Fin. apply P32.
  - apply fadd_mono; auto. apply P32.
Qed.

Lemma fadd_good a b : good a -> good b -> good (a + b)%fp.
Proof.
  intros [A0 Ar] [B0 Br]. split.
  - change (Fin 0 0) with (Fin 0 0 + Fin 0 0)%fp at 1.
    apply fadd_nonneg_mono; auto.
  - destruct a as [|sa|ma ea], b as [|sb|mb eb]; try reflexivity; try discriminate.
    + destruct sa, sb; reflexivity.
    + destruct (fadd_Fin binary32 ma ea mb eb) as (n & e & -> & _).
      destruct (round_spec binary32 n 1 e P32 ltac:(lia)) as (r & _ & _ & R). exact R.
Qed.

Lemma fadd_ge_l a b : good a -> fle (Fin 0 0) b = true -> fle a (a + b)%fp = true.
Proof.
  intros [A0 Ar] B0.
  destruct (nonneg_cases a A0) as [->|(ma & ea & -> & Va)];
    destruct (nonneg_cases b B0) as [->|(mb & eb & -> & Vb)]; try reflexivity.
  destruct (round_id ma ea Ar) as (m2 & e2 & E2 & V2).
  destruct (fadd_Fin binary32 ma ea mb eb) as (n & e & -> & V).
  apply fle_trans with (Fin m2 e2); [apply fle_Fin; lra|].
  rewrite <- E2. apply round_mono; try lia; try apply P32.
  rewrite V. unfold F2R in *. unfold Rdiv. rewrite Rinv_1, Rmult_1_r. lra.
Qed.

Lemma half_good f :
  good f -> good (f / float_of_int 2)%fp /\ fle (f / float_of_int 2)%fp f = true.
Proof.
  intros [F0 Fr]. change (float_of_int 2) with (Fin 8388608 (-22)).
  destruct (nonneg_cases f F0) as [->|(m & e & -> & V)].
  - split; [split|]; reflexivity.
  - destruct (fdiv_Fin binary32 m e 8388608 (-22) ltac:(lia)) as (n & d & e' & -> & Hd & Vq).
    assert (Two : F2R 8388608 (-22) = 2%R) by (unfold F2R, bpow, powerRZ; simpl; lra).
    rewrite Two in Vq.
    destruct (round_spec binary32 n d e' P32 Hd) as (r & _ & _ & R).
    split; [split|]; auto.
    + apply round_nonneg; auto. apply P32. rewrite Vq. lra.
    + destruct (round_id m e Fr) as (m2 & e2 & E2 & V2).
      apply fle_trans with (Fin m2 e2); [|apply fle_Fin; lra].
      rewrite <- E2. apply round_mono; try lia; try apply P32.
      rewrite Vq. unfold F2R. unfold Rdiv at 2. rewrite Rinv_1, Rmult_1_r.
      unfold F2R in V. lra.
Qed.

Lemma fmul_pos_mono mk ek a b :
  0 < mk -> fle (Fin 0 0) a = true -> fle a b = true ->
  fle (Fin 0 0) (Fin mk ek * a)%fp = true /\ fle (Fin mk ek * a)%fp (Fin mk ek * b)%fp = true.
Proof.
  intros Hk A0 AB.
  assert (B0 : fle (Fin 0 0) b = true) by (apply fle_trans with a; auto).
  assert (K0 : fle (Fin 0 0) (Fin mk ek) = true).
  { apply fle_Fin. rewrite F2R_0. unfold F2R.
    apply Rmult_le_pos; [apply IZR_le; lia | left; apply bpow_pos]. }
  assert (InfK : (Fin mk ek * Inf false)%fp = Inf false).
  { simpl. destruct (Z.eqb_spec mk 0); [lia|]. destruct (Z.ltb_spec mk 0); [lia|]. reflexivity. }
  assert (Z0 : forall m e, (0 <= F2R m e)%R -> fle (Fin 0 0) (Fin mk ek * Fin m e)%fp = true).
  { intros m e V. destruct (fmul_Fin binary32 mk ek m e) as [-> Vm].
    apply round_nonneg; [apply P32 | lia |]. rewrite Vm.
    apply fle_Fin in K0. rewrite F2R_0 in K0. apply Rmult_le_pos; auto. }
  destruct (nonneg_cases a A0) as [->|(ma & ea & -> & Va)];
    destruct (nonneg_cases b B0) as [->|(mb & eb & -> & Vb)]; try discriminate.
  - rewrite InfK. split; reflexivity.
  - rewrite InfK. split; [apply Z0; auto|]. apply fle_Inf_r.
    destruct (fmul_Fin binary32 mk ek ma ea) as [-> _]. apply round_not_nan; [apply P32 | lia].
  - split; [apply Z0; auto|]. apply fmul_mono; auto; try apply P32. apply fle_refl. reflexivity.
Qed.

Lemma running_chain mk ek fs : forall s,
  0 < mk -> good s -> Forall good fs ->
  chain fle (running_sum float_arith (Fin mk ek) s fs) = true /\
  (forall c, nth_error (running_sum float_arith (Fin mk ek) s fs) 0 = Some c ->
     fle (Fin mk ek * s)%fp c = true).
Proof.
  induction fs as [|f t IH]; intros s Hk Hs Hfs.
  - split; [reflexivity | discriminate].
  - apply Forall_cons_iff in Hfs. destruct Hfs as [Hf Ht].
    destruct (half_good f Hf) as [Hh Hle].
    assert (Hs' : good (s + f)%fp) by (apply fadd_good; auto).
    destruct (IH (s + f)%fp Hk Hs' Ht) as [IC IHd].
    simpl running_sum.
    change (mul float_arith) with (fmul binary32) in *.
    change (add float_arith) with (fadd binary32) in *.
    change (div float_arith) with (fdiv binary32) in *.
    change (of_Z float_arith 2) with (float_of_int 2) in *.
    destruct Hs as [S0 Sr]. destruct Hf as [F0 Fr]. destruct Hh as [H0 Hr].
    assert (N1 : fle (Fin 0 0) (s + f / float_of_int 2)%fp = true).
    { change (Fin 0 0) with (Fin 0 0 + Fin 0 0)%fp at 1. apply fadd_nonneg_mono; auto. }
    split.
    + destruct t as [|f' t'].
      * reflexivity.
      * simpl running_sum in *. cbn [chain]. apply andb_true_intro. split; [|exact IC].
        change (mul float_arith) with (fmul binary32) in *.
        change (add float_arith) with (fadd binary32) in *.
        change (div float_arith) with (fdiv binary32) in *.
        change (of_Z float_arith 2) with (float_of_int 2) in *.
        apply fle_trans with (Fin mk ek * (s + f))%fp.
        -- apply fmul_pos_mono; auto. apply fadd_nonneg_mono; auto. apply fle_refl.
           destruct s; try discriminate; reflexivity.
        -- apply (IHd _ eq_refl).
    + intros c Hc. simpl in Hc. apply some_eq in Hc. subst c.
      apply fmul_pos_mono; auto. apply fadd_ge_l; auto. split; auto.
Qed.

Lemma sequence_Forall {A : Type} (P : A -> Prop) (l : list (option A)) : forall fs,
  (forall a, In (Some a) l -> P a) -> sequence l = Some fs -> Forall P fs.
Proof.
  induction l as [|[a|] l IH]; intros fs HP H; simpl in H; try discriminate.
  - apply some_eq in H. subst fs. constructor.
  - destruct (sequence l) as [t|] eqn:E; [|discriminate].
    apply some_eq in H. subst fs. constructor.
    + apply HP. left. reflexivity.
    + apply IH; auto. intros b Hb. apply HP. right. exact Hb.
Qed.

(** For every resolution and limits whose step kDelta is a positive finite
    float, and every density whose values are binary32 floats that are not
    negative: each entry of the table is at most the next one. *)
Theorem table_nondecreasing (kPoints : nat) (kLower kUpper : fp) (density : fp -> option fp)
    (v : list fp) :
  is_fin (Confidence.kDelta float_arith kPoints kLower kUpper) = true ->
  (float_of_int 0 < Confidence.kDelta float_arith kPoints kLower kUpper)%fp = true ->
  (forall p y, density p = Some y ->
     (float_of_int 0 <= y)%fp = true /\ representable binary32 y = true) ->
  Confidence.cdf_ float_arith kPoints kLower kUpper density = Some v ->
  forall i a b, nth_error v i = Some a -> nth_error v (S i) = Some b -> (a <= b)%fp = true.
Proof.
  intros Fk Pk Hd Hv.
  rewrite cdf_of_samples in Hv.
  destruct (Confidence.kDelta float_arith kPoints kLower kUpper) as [| |mk ek] eqn:Ek;
    try discriminate.
  assert (Hk : 0 < mk).
  { change (float_of_int 0) with (Fin 0 0) in Pk. apply flt_Fin in Pk. rewrite F2R_0 in Pk.
    apply lt_IZR. unfold F2R in Pk. pose proof (bpow_pos ek). nra. }
  destruct (sequence (map density (sample_points float_arith kPoints kLower (Fin mk ek))))
    as [fs|] eqn:E; [|discriminate].
  simpl in Hv. apply some_eq in Hv. subst v.
  assert (G : Forall good fs).
  { apply (sequence_Forall good _ fs) in E; auto.
    intros y Hy. apply in_map_iff in Hy. destruct Hy as (p & Hp & _).
    apply Hd in Hp. exact Hp. }
  assert (C : chain fle (table_of_samples float_arith (Fin mk ek) fs) = true).
  { destruct fs as [|f0 t]; [reflexivity|].
    apply Forall_cons_iff in G. destruct G as [G0 Gt].
    destruct (half_good f0 G0) as [Hh _].
    destruct (running_chain mk ek t (f0 / float_of_int 2)%fp Hk Hh Gt) as [RC RH].
    unfold table_of_samples.
    change (div float_arith f0 (of_Z float_arith 2)) with (f0 / float_of_int 2)%fp.
    change (of_Z float_arith 0) with (Fin 0 0).
    destruct (running_sum float_arith (Fin mk ek) (f0 / float_of_int 2)%fp t) as [|c rest] eqn:ER.
    - reflexivity.
    - cbn [chain]. apply andb_true_intro. split; [|exact RC].
      apply fle_trans with (Fin mk ek * (f0 / float_of_int 2))%fp; [|apply (RH c eq_refl)].
      destruct Hh as [H0 _].
      assert (X : fle (f0 / float_of_int 2)%fp (f0 / float_of_int 2)%fp = true).
      { apply fle_refl. destruct (fle_not_nan _ _ H0) as [_ N]. exact N. }
      exact (proj1 (fmul_pos_mono mk ek _ _ Hk H0 X)). }
  intros i a b Ha Hb.
  apply (chain_nth fle fle_trans _ C i (S i) a b); auto.
Qed.

Lemma table_nondecreasing_witness :
  Confidence.cdf_ float_arith 2 (float_of_int 0) (float_of_int 2)
    (fun _ => Some (float_of_int 2))
  = Some [float_of_int 0; float_of_int 2; float_of_int 4] /\
  (float_of_int 2 <= float_of_int 4)%fp = true.
Proof.
  split; [reflexivity|].
  exact (table_nondecreasing 2 (float_of_int 0) (float_of_int 2)
           (fun _ => Some (float_of_int 2))
           [float_of_int 0; float_of_int 2; float_of_int 4] eq_refl eq_refl
           (fun p y H => match some_eq _ _ H in _ = z return
                           (float_of_int 0 <= z)%fp = true /\ representable binary32 z = true
                         with eq_refl => conj eq_refl eq_refl end)
           eq_refl 1%nat (float_of_int 2) (float_of_int 4) eq_refl eq_refl).
Defined.

(** * Totality *)
Lemma evaluate_defined x :
  is_nan x = false -> exists y, Metric.evaluate x = Some y /\ is_fin y = true.
Proof.
  intros Hn.
  destruct (((x <= Limits.kLower) || (x >= Limits.kUpper))%fp) eqn:E.
  - exists (float_of_int 0). split; [apply evaluate_outside; auto | reflexivity].
  - destruct (inside_range x Hn E) as [H1 H2].
    destruct (evaluate_in_range x H1 H2) as (i & c & B & Hi & Hc & Ev).
    exists (confidence_of c). split; auto.
    pose proof (confidence_unit _ _ Hc) as U. unfold unit_interval in U.
    apply andb_prop in U. destruct U as [U _]. apply andb_prop in U. destruct U as [U _].
    exact U.
Qed.

Lemma static_exp_finite x :
  representable binary32 x = true ->
  (float_of_int (- 2147483648) < x)%fp = true -> (x < float_of_int 2147483648)%fp = true ->
  exists y,
    (forall fuel, (32 <= fuel)%nat -> static_exp fuel x = Some y) /\
    ((x <= exp_cap)%fp = true -> is_fin y = true).
Proof.
  intros Rx Lo Hi.
  destruct (static_exp_bounds x Rx Lo Hi) as (y & Hy & _ & Hneg).
  exists y. split; [exact Hy|]. intros Hc.
  destruct x as [|s|m e]; [discriminate Hi | destruct s; [discriminate Lo | discriminate Hi] |].
  destruct (Z.leb_spec m 0) as [Hm|Hm].
  - destruct Hneg as [Y0 Y1].
    { change (float_of_int 0) with (Fin 0 0). apply fle_Fin. rewrite F2R_0.
      unfold F2R. assert (IZR m <= 0)%R by (apply IZR_le; exact Hm).
      pose proof (bpow_pos e). nra. }
    apply (fle_between_fin _ _ _ Y0 Y1); reflexivity.
  - unfold exp_cap in Hc. apply fle_Fin in Hc.
    destruct (exp_product m e Rx Hm Hc) as (my & ey & my' & ey' & Hexp & _).
    destruct (Hexp 32%nat (le_n _)) as [E _]. rewrite (Hy 32%nat (le_n _)) in E.
    apply some_eq in E. subst y. reflexivity.
Qed.

Lemma density_finite x :
  is_fin x = true ->
  (density_lo <= x)%fp = true -> (x <= density_hi)%fp = true ->
  exists y, (forall fuel, (32 <= fuel)%nat -> density_eval fuel x = Some y) /\ is_fin y = true.
Proof.
  intros Fx Lo Hi. destruct (density_bounds x Fx Lo Hi) as (y & Hy & Y0 & Y1).
  exists y. split; [exact Hy|]. apply (fle_between_fin _ _ _ Y0 Y1); reflexivity.
Qed.

(** C9 (amended).  Both loops terminate: exponentiation by squaring for every
    int exponent, within 32 iterations; the Taylor loop for every remainder in
    [0, 1], within 10 iterations.  The exponential returns a float for every
    binary32 number x with -2^31 < x < 2^31, and a finite one whenever
    x <= 1453635 * 2^-14 = 88.72283935546875; the density returns a finite
    float for every finite x from -13958291 * 2^-13 to 13958995 * 2^-13
    (about -1703.89 and 1703.98); the table has its 10001 entries; and
    evaluate returns a finite float for every x that is not a NaN. *)
Theorem core_operations_total :
  (forall x n, n < 2 ^ 31 ->
     exists p, forall fuel, (32 <= fuel)%nat -> static_int_pow fuel x n = Some p) /\
  (forall r, is_fin r = true ->
     (float_of_int 0 <= r)%fp = true -> (r <= float_of_int 1)%fp = true ->
     exists s, forall fuel, (10 < fuel)%nat ->
       while fuel taylor_cond (taylor_body r) (float_of_int 0, float_of_int 1, 1) = Some s) /\
  (forall x, is_fin x = true -> representable binary32 x = true ->
     (float_of_int (- 2147483648) < x)%fp = true -> (x < float_of_int 2147483648)%fp = true ->
     exists y,
       (forall fuel, (32 <= fuel)%nat -> static_exp fuel x = Some y) /\
       ((x <= exp_cap)%fp = true -> is_fin y = true)) /\
  (forall x, is_fin x = true ->
     (density_lo <= x)%fp = true -> (x <= density_hi)%fp = true ->
     exists y,
       (forall fuel, (32 <= fuel)%nat -> density_eval fuel x = Some y) /\ is_fin y = true) /\
  (exists v, Metric.cdf_ = Some v /\ length v = S Metric.kPoints) /\
  (forall x, is_nan x = false -> exists y, Metric.evaluate x = Some y /\ is_fin y = true).
Proof.
  split; [exact static_int_pow_total|].
  split; [exact taylor_terminates|].
  split; [intros x _; exact (static_exp_finite x)|].
  split; [exact density_finite|].
  split; [|exact evaluate_defined].
  exists cdf_values. split; [exact Metric_cdf_eq | exact cdf_values_length].
Qed.

Lemma core_operations_total_witness :
  (exists p, forall fuel, (32 <= fuel)%nat ->
     static_int_pow fuel (float_of_int 2) 10 = Some p) /\
  (exists s, forall fuel, (10 < fuel)%nat ->
     while fuel taylor_cond (taylor_body (Fin 1 (-1))) (float_of_int 0, float_of_int 1, 1)
     = Some s) /\
  (exists y, (forall fuel, (32 <= fuel)%nat -> static_exp fuel exp_cap = Some y) /\
             is_fin y = true) /\
  (exists y, (forall fuel, (32 <= fuel)%nat -> density_eval fuel density_hi = Some y) /\
             is_fin y = true) /\
  (exists y, (forall fuel, (32 <= fuel)%nat -> density_eval fuel density_lo = Some y) /\
             is_fin y = true) /\
  (exists y, Metric.evaluate (Fin 1 (-4)) = Some y /\ is_fin y = true).
Proof.
  destruct core_operations_total as (H1 & H2 & H3 & H4 & _ & H6).
  split; [apply (H1 (float_of_int 2) 10); reflexivity|].
  split; [apply (H2 (Fin 1 (-1))); reflexivity|].
  split.
  { destruct (H3 exp_cap eq_refl eq_refl eq_refl eq_refl) as (y & Hy & Hf).
    exists y. split; [exact Hy | exact (Hf eq_refl)]. }
  split; [apply (H4 density_hi); reflexivity|].
  split; [apply (H4 density_lo); reflexivity|].
  apply (H6 (Fin 1 (-4))); reflexivity.
Defined.

(** Counterexample to C9 as stated: the finite binary32 number
    11629081 * 2^-17 = 88.72284698486328125, the first one above
    88.72283935546875, has an exponential that is not a finite float: both
    loops terminate and the final product overflows to +infinity. *)
Lemma finite_input_overflows :
  is_fin (Fin 11629081 (-17)) = true /\
  representable binary32 (Fin 11629081 (-17)) = true /\
  (Fin 11629081 (-17) < float_of_int 89)%fp = true /\
  static_exp 64 (Fin 11629081 (-17)) = Some (Inf false).
Proof. repeat split; vm_compute; reflexivity. Qed.
